(** * AingalLang: the tree-walking evaluator of [src/interpreter.py]

    A shallow embedding of the [Interpreter] visitor and of the part of the
    Python object model it computes with, followed by the properties of the
    evaluator that the specification states.

    Layout:
    - [Py]: Python values ([None], [int], [float], [bool], [str], [list],
      the [BreakStatement] instance), exceptions and the operators the
      visitor applies to them;
    - scopes, kept in a store addressed by index (a Python reference to a
      [Scope] object is an index into that store, so that aliasing between
      the lexical chain and the closures is kept);
    - the parse tree, as the visitor reads it through the accessors of the
      generated context classes;
    - the visitor, one definition per method of the source, tied together by
      [visit], which is recursive on a step budget;
    - the properties that the specification states;
    - further properties of the evaluator: what every visit keeps, the
      round trips of declarations, assignments and scoped names, the
      protocol of a call, loops and conditions, operators, casts and the
      transposition.

    What the embedding leaves out: the line, column and source text that an
    [InterpreterError] carries (the parse tree here has no positions, so
    [get_source_line] has no counterpart); the limits of the Python
    interpreter, which are its recursion limit and the bound that CPython
    puts on the number of digits of an [int] that is converted to text
    (here an integer of any size has a text); and the identity of objects
    where [==] on lists consults it before the values (see [py_eq]). *)

From Stdlib Require Import ZArith Ascii String.
From Stdlib Require Import PrimFloat SpecFloat FloatOps FloatAxioms.
From stdpp Require Import gmap strings list fin_maps pretty.

#[local] Set Warnings "-register-all".
#[local] Open Scope Z_scope.

(* ===================================================================== *)
(** * The Python object model used by the interpreter                     *)
(* ===================================================================== *)

Module Py.

(** Values that flow through [self.visit].  [VBreak] is an instance of the
    class [BreakStatement]; a matrix is a [list] of [list]s. *)
Inductive value : Type :=
  | VNone
  | VBreak
  | VInt (z : Z)
  | VFloat (f : float)
  | VBool (b : bool)
  | VStr (s : string)
  | VList (l : list value).

(** Exceptions.  [FunctionReturn] and [InterpreterError] are the classes of
    the source, the latter with its message and its suggestion;
    [Exception_] is a bare [Exception(message)]; the others are raised by
    Python itself. *)
Inductive exn : Type :=
  | FunctionReturn (v : value)
  | InterpreterError (message : string) (suggestion : string)
  | Exception_ (message : string)
  | TypeError
  | ValueError
  | ZeroDivisionError (message : string)
  | OverflowError
  | KeyError (key : string)
  | IndexError
  | AttributeError.

(** Result of a pure Python operation. *)
Definition res (A : Type) : Type := exn + A.
Definition ok {A} (a : A) : res A := inr a.
Definition err {A} (e : exn) : res A := inl e.

Definition res_bind {A B} (r : res A) (k : A -> res B) : res B :=
  match r with inl e => inl e | inr a => k a end.

(** ** The pieces of the Python runtime that are taken as given

    The textual form of a float, of a quoted string and of a plain object,
    the parsing of a string by [float()], the characters of a string,
    printf-style [str % x] and libm are not part of the interpreter; every
    result below holds for any choice of them. *)
Class Runtime : Type := {
  repr_float : float -> string;
  repr_str : string -> string;
  repr_object : string;
  float_of_str : string -> option float;
  str_chars : string -> list string;
  str_percent : string -> value -> res value;
  math_pow : float -> float -> res float;
  math_sin : float -> res float;
  math_cos : float -> res float;
  math_tan : float -> res float
}.

(** ** Type tests *)

(** [isinstance(v, int)]: [bool] is a subclass of [int]. *)
Definition as_int (v : value) : option Z :=
  match v with
  | VInt z => Some z
  | VBool b => Some (Z.b2z b)
  | _ => None
  end.

Definition isinstance_int (v : value) : bool := bool_decide (is_Some (as_int v)).
Definition isinstance_float (v : value) : bool :=
  match v with VFloat _ => true | _ => false end.
Definition isinstance_str (v : value) : bool :=
  match v with VStr _ => true | _ => false end.
Definition isinstance_bool (v : value) : bool :=
  match v with VBool _ => true | _ => false end.
Definition isinstance_list (v : value) : bool :=
  match v with VList _ => true | _ => false end.
Definition isinstance_BreakStatement (v : value) : bool :=
  match v with VBreak => true | _ => false end.
Definition is_None (v : value) : bool :=
  match v with VNone => true | _ => false end.
(** [isinstance(v, (int, float))] *)
Definition isinstance_int_float (v : value) : bool :=
  isinstance_int v || isinstance_float v.

(** ** Floats: IEEE binary64, as CPython's [float] *)

(** [float(z)] for an [int]: round to nearest even, [OverflowError] when the
    rounded value is not finite. *)
Definition float_of_int (z : Z) : res float :=
  let f := SF2Prim (binary_normalize prec emax z 0 false) in
  if is_infinity f then err OverflowError else ok f.

(** The float nearest to [n / d] (round to nearest even). *)
Definition float_of_ratio (neg : bool) (n d : positive) : float :=
  SF2Prim (SFdiv prec emax (S754_finite neg n 0) (S754_finite false d 0)).

(** [a / b] on two [int]s. *)
Definition int_truediv (a b : Z) : res float :=
  match a, b with
  | _, Z0 => err (ZeroDivisionError "division by zero")
  | Z0, Zpos _ => ok zero
  | Z0, Zneg _ => ok neg_zero
  | Zpos n, Zpos d => let f := float_of_ratio false n d in
                      if is_infinity f then err OverflowError else ok f
  | Zneg n, Zneg d => let f := float_of_ratio false n d in
                      if is_infinity f then err OverflowError else ok f
  | Zpos n, Zneg d | Zneg n, Zpos d =>
      let f := float_of_ratio true n d in
      if is_infinity f then err OverflowError else ok f
  end.

(** [f.is_integer()] *)
Definition float_is_integer (f : float) : bool :=
  match Prim2SF f with
  | S754_zero _ => true
  | S754_finite _ m e =>
      if 0 <=? e then true else Z.eqb (Z.pos m mod 2 ^ (- e)) 0
  | _ => false
  end.

(** [int(f)]: truncation toward zero. *)
Definition int_of_float (f : float) : res Z :=
  match Prim2SF f with
  | S754_zero _ => ok 0
  | S754_finite s m e =>
      let a := if 0 <=? e then Z.pos m * 2 ^ e else Z.pos m / 2 ^ (- e) in
      ok (if s then - a else a)
  | S754_infinity _ => err OverflowError
  | S754_nan => err ValueError
  end.

(** C's [fmod]: the remainder has the sign of [x] and is exact. *)
Definition fmod (x y : float) : float :=
  match Prim2SF x, Prim2SF y with
  | S754_nan, _ | _, S754_nan => nan
  | S754_infinity _, _ => nan
  | _, S754_zero _ => nan
  | S754_zero _, _ => x
  | S754_finite _ _ _, S754_infinity _ => x
  | S754_finite sx mx ex, S754_finite _ my ey =>
      let e := Z.min ex ey in
      let r := (Z.pos mx * 2 ^ (ex - e)) mod (Z.pos my * 2 ^ (ey - e)) in
      if Z.eqb r 0 then (if sx then neg_zero else zero)
      else SF2Prim (binary_normalize prec emax (if sx then - r else r) e false)
  end.

(** [x % y] on floats ([float_rem] of CPython). *)
Definition float_mod (x y : float) : res float :=
  if PrimFloat.eqb y zero then err (ZeroDivisionError "float modulo")
  else
    let m := fmod x y in
    if PrimFloat.eqb m zero
    then ok (if get_sign y then neg_zero else zero)
    else if xorb (PrimFloat.ltb y zero) (PrimFloat.ltb m zero)
         then ok (m + y)%float else ok m.

Definition float_truediv (x y : float) : res float :=
  if PrimFloat.eqb y zero then err (ZeroDivisionError "float division by zero")
  else ok (x / y)%float.

(** Exact comparison of an [int] with a float; [None] when the float is a
    NaN. *)
Definition compare_int_float (z : Z) (f : float) : option comparison :=
  match Prim2SF f with
  | S754_nan => None
  | S754_infinity s => Some (if s then Gt else Lt)
  | S754_zero _ => Some (z ?= 0)
  | S754_finite s m e =>
      let m' := if s then Z.neg m else Z.pos m in
      Some (if 0 <=? e then z ?= m' * 2 ^ e else z * 2 ^ (- e) ?= m')
  end.

Definition compare_float (x y : float) : option comparison :=
  match PrimFloat.compare x y with
  | FEq => Some Eq | FLt => Some Lt | FGt => Some Gt | FNotComparable => None
  end.

(** ** Numbers: the operand pairs Python's arithmetic promotes *)

Inductive number : Type :=
  | NInt (z : Z)
  | NFloat (f : float).

(** A value as an operand of arithmetic: [bool] counts as [int]. *)
Definition as_number (v : value) : option number :=
  match v with
  | VInt z => Some (NInt z)
  | VBool b => Some (NInt (Z.b2z b))
  | VFloat f => Some (NFloat f)
  | _ => None
  end.

Definition number_to_float (n : number) : res float :=
  match n with NInt z => float_of_int z | NFloat f => ok f end.

(** A binary arithmetic operator: on two [int]s it is [fi]; as soon as one
    operand is a float the other is converted and it is [ff]. *)
Definition arith (fi : Z -> Z -> res value) (ff : float -> float -> res value)
    (a b : number) : res value :=
  match a, b with
  | NInt x, NInt y => fi x y
  | _, _ =>
      res_bind (number_to_float a) (fun x =>
      res_bind (number_to_float b) (fun y => ff x y))
  end.

(** ** Sequences *)

Fixpoint str_repeat (n : nat) (s : string) : string :=
  match n with O => "" | S n' => s +:+ str_repeat n' s end.

Fixpoint list_repeat {A} (n : nat) (l : list A) : list A :=
  match n with O => [] | S n' => l ++ list_repeat n' l end.

(** ** The binary operators *)

(** [a + b] *)
Definition py_add (a b : value) : res value :=
  match as_number a, as_number b with
  | Some x, Some y =>
      arith (fun x y => ok (VInt (x + y)))
            (fun x y => ok (VFloat (x + y)%float)) x y
  | _, _ =>
      match a, b with
      | VStr s, VStr t => ok (VStr (s +:+ t))
      | VList l, VList k => ok (VList (l ++ k))
      | _, _ => err TypeError
      end
  end.

(** [a - b] *)
Definition py_sub (a b : value) : res value :=
  match as_number a, as_number b with
  | Some x, Some y =>
      arith (fun x y => ok (VInt (x - y)))
            (fun x y => ok (VFloat (x - y)%float)) x y
  | _, _ => err TypeError
  end.

(** [a * b]: a sequence times an [int] repeats the sequence. *)
Definition py_mul (a b : value) : res value :=
  match as_number a, as_number b with
  | Some x, Some y =>
      arith (fun x y => ok (VInt (x * y)))
            (fun x y => ok (VFloat (x * y)%float)) x y
  | _, _ =>
      match a, as_int b, as_int a, b with
      | VStr s, Some n, _, _ => ok (VStr (str_repeat (Z.to_nat n) s))
      | VList l, Some n, _, _ => ok (VList (list_repeat (Z.to_nat n) l))
      | _, _, Some n, VStr s => ok (VStr (str_repeat (Z.to_nat n) s))
      | _, _, Some n, VList l => ok (VList (list_repeat (Z.to_nat n) l))
      | _, _, _, _ => err TypeError
      end
  end.

(** [a / b]: true division. *)
Definition py_truediv (a b : value) : res value :=
  match as_number a, as_number b with
  | Some x, Some y =>
      arith (fun x y => res_bind (int_truediv x y) (fun f => ok (VFloat f)))
            (fun x y => res_bind (float_truediv x y) (fun f => ok (VFloat f)))
            x y
  | _, _ => err TypeError
  end.

(** [a // b] where [a] is not a float and [b] is an [int]: the only operand
    types [visitTerm] applies [//] to.  On [int]s it rounds toward minus
    infinity ([Z.div]). *)
Definition py_floordiv_int (a : value) (b : Z) : res value :=
  match as_int a with
  | Some x =>
      if Z.eqb b 0
      then err (ZeroDivisionError "integer division or modulo by zero")
      else ok (VInt (x / b))
  | None => err TypeError
  end.

(** [a % b]: the remainder has the sign of [b] ([Z.modulo]); on a [str] left
    operand it is printf-style formatting. *)
Definition py_mod {rt : Runtime} (a b : value) : res value :=
  match a with
  | VStr s => str_percent s b
  | _ =>
      match as_number a, as_number b with
      | Some x, Some y =>
          arith (fun x y =>
                   if Z.eqb y 0
                   then err (ZeroDivisionError
                               "integer division or modulo by zero")
                   else ok (VInt (x mod y)))
                (fun x y => res_bind (float_mod x y) (fun f => ok (VFloat f)))
                x y
      | _, _ => err TypeError
      end
  end.

(** [-a] and [+a] *)
Definition py_neg (a : value) : res value :=
  match as_number a with
  | Some (NInt z) => ok (VInt (- z))
  | Some (NFloat f) => ok (VFloat (- f)%float)
  | None => err TypeError
  end.

Definition py_pos (a : value) : res value :=
  match as_number a with
  | Some (NInt z) => ok (VInt z)
  | Some (NFloat f) => ok (VFloat f)
  | None => err TypeError
  end.

(** ** Comparisons *)

Definition compare_number (a b : number) : option comparison :=
  match a, b with
  | NInt x, NInt y => Some (x ?= y)
  | NInt x, NFloat g => compare_int_float x g
  | NFloat f, NInt y => CompOpp <$> compare_int_float y f
  | NFloat f, NFloat g => compare_float f g
  end.

(** [a == b]: numbers by value, strings and lists structurally, [None] with
    itself; two [BreakStatement] instances are two objects.  The items of
    two lists are compared by value alone.  Python takes two items that are
    the same object as equal before it compares their values, which differs
    from the comparison by value for a NaN only: a list that holds a NaN
    equals, in Python, a list that holds the same float object, and does
    not here, where a number has no identity. *)
Fixpoint py_eq (a b : value) : bool :=
  match as_number a, as_number b with
  | Some x, Some y =>
      match compare_number x y with Some Eq => true | _ => false end
  | _, _ =>
      match a, b with
      | VNone, VNone => true
      | VStr s, VStr t => String.eqb s t
      | VList l, VList k =>
          (fix go (l k : list value) : bool :=
             match l, k with
             | [], [] => true
             | x :: l', y :: k' => py_eq x y && go l' k'
             | _, _ => false
             end) l k
      | _, _ => false
      end
  end.

(** The ordering of two values, when Python defines one: [inl TypeError]
    when it does not, [inr None] when the operands are unordered (a NaN is
    involved), so that every ordering test is false. *)
Fixpoint py_compare (a b : value) : res (option comparison) :=
  match as_number a, as_number b with
  | Some x, Some y => ok (compare_number x y)
  | _, _ =>
      match a, b with
      | VStr s, VStr t => ok (Some (String.compare s t))
      | VList l, VList k =>
          (fix go (l k : list value) : res (option comparison) :=
             match l, k with
             | [], [] => ok (Some Eq)
             | [], _ :: _ => ok (Some Lt)
             | _ :: _, [] => ok (Some Gt)
             | x :: l', y :: k' =>
                 if py_eq x y then go l' k' else py_compare x y
             end) l k
      | _, _ => err TypeError
      end
  end.

Definition py_lt (a b : value) : res value :=
  res_bind (py_compare a b) (fun c =>
    ok (VBool (match c with Some Lt => true | _ => false end))).
Definition py_gt (a b : value) : res value :=
  res_bind (py_compare a b) (fun c =>
    ok (VBool (match c with Some Gt => true | _ => false end))).
Definition py_le (a b : value) : res value :=
  res_bind (py_compare a b) (fun c =>
    ok (VBool (match c with Some Lt | Some Eq => true | _ => false end))).
Definition py_ge (a b : value) : res value :=
  res_bind (py_compare a b) (fun c =>
    ok (VBool (match c with Some Gt | Some Eq => true | _ => false end))).

(** ** Conversions *)

(** [bool(v)], the truth value tested by [if] and [while]. *)
Definition truthy (v : value) : bool :=
  match v with
  | VNone => false
  | VBreak => true
  | VInt z => negb (Z.eqb z 0)
  | VFloat f => negb (PrimFloat.eqb f zero)
  | VBool b => b
  | VStr s => negb (String.eqb s "")
  | VList l => match l with [] => false | _ => true end
  end.

Section WithRuntime.
Context {rt : Runtime}.

(** [repr(v)] *)
Fixpoint py_repr (v : value) : string :=
  match v with
  | VNone => "None"
  | VBreak => repr_object
  | VInt z => pretty z
  | VFloat f => repr_float f
  | VBool b => if b then "True" else "False"
  | VStr s => repr_str s
  | VList l =>
      "[" +:+
      (fix go (l : list value) : string :=
         match l with
         | [] => ""
         | [x] => py_repr x
         | x :: l' => py_repr x +:+ ", " +:+ go l'
         end) l +:+ "]"
  end.

(** [str(v)] *)
Definition py_str (v : value) : string :=
  match v with
  | VStr s => s
  | _ => py_repr v
  end.

(** [float(v)] *)
Definition py_float (v : value) : res float :=
  match v with
  | VInt z => float_of_int z
  | VBool b => float_of_int (Z.b2z b)
  | VFloat f => ok f
  | VStr s =>
      match float_of_str s with Some f => ok f | None => err ValueError end
  | _ => err TypeError
  end.

(** [float(text)] for the text of a [NUMBER] token: [digits] is the text
    without its decimal point, read in base ten, and [scale] the number of
    digits after the point. *)
Definition float_of_decimal (digits : N) (scale : nat) : float :=
  match digits with
  | N0 => zero
  | Npos n => float_of_ratio false n (Z.to_pos (10 ^ Z.of_nat scale))
  end.
End WithRuntime.

(** ** Methods of [str] *)

(** [s.lower()] on the ASCII letters. *)
Definition ascii_lower (c : ascii) : ascii :=
  let n := nat_of_ascii c in
  if (65 <=? n)%nat && (n <=? 90)%nat then ascii_of_nat (n + 32) else c.

Fixpoint lower (s : string) : string :=
  match s with
  | EmptyString => EmptyString
  | String c s' => String (ascii_lower c) (lower s')
  end.

(** The double quote. *)
Definition dquote : ascii := ascii_of_nat 34.

Fixpoint lstrip (c : ascii) (s : list ascii) : list ascii :=
  match s with
  | a :: s' => if Ascii.eqb a c then lstrip c s' else s
  | [] => []
  end.

(** [s.strip(c)] for a one-character [c]. *)
Definition strip (c : ascii) (s : string) : string :=
  string_of_list_ascii
    (rev (lstrip c (rev (lstrip c (list_ascii_of_string s))))).

(** [s.split("::")]; [cur] is the part being read, last character first. *)
Fixpoint split_colons (s : string) (cur : list ascii) : list string :=
  match s with
  | EmptyString => [string_of_list_ascii (rev cur)]
  | String a s' =>
      match s' with
      | String b s'' =>
          if Ascii.eqb a ":" && Ascii.eqb b ":"
          then string_of_list_ascii (rev cur) :: split_colons s'' []
          else split_colons s' (a :: cur)
      | EmptyString => [string_of_list_ascii (rev (a :: cur))]
      end
  end.

(** ** Sized and subscripted values *)

Fixpoint res_map {A B} (f : A -> res B) (l : list A) : res (list B) :=
  match l with
  | [] => ok []
  | x :: l' =>
      res_bind (f x) (fun y => res_bind (res_map f l') (fun ys => ok (y :: ys)))
  end.

Section Sequences.
Context {rt : Runtime}.

(** The items [for x in v] yields. *)
Definition py_iter (v : value) : res (list value) :=
  match v with
  | VList l => ok l
  | VStr s => ok (VStr <$> str_chars s)
  | _ => err TypeError
  end.

(** [len(v)] *)
Definition py_len (v : value) : res nat :=
  match v with
  | VList l => ok (length l)
  | VStr s => ok (length (str_chars s))
  | _ => err TypeError
  end.

(** [v[i]] for [i >= 0] *)
Definition py_getitem (v : value) (i : nat) : res value :=
  res_bind (py_iter v) (fun l =>
    match l !! i with Some x => ok x | None => err IndexError end).

(** [a, b = v] *)
Definition py_unpack2 (v : value) : res (value * value) :=
  res_bind (py_iter v) (fun l =>
    match l with
    | [a; b] => ok (a, b)
    | _ => err ValueError
    end).
End Sequences.

(** The C conversion of an argument of [math.*] to a double. *)
Definition as_double (v : value) : res float :=
  match as_number v with
  | Some n => number_to_float n
  | None => err TypeError
  end.

End Py.

Import Py.

(* ===================================================================== *)
(** * Scopes                                                              *)
(* ===================================================================== *)

(** [class Scope].  The attribute [parent] is a reference to another
    [Scope] object or [None]: here the index of that object in the store. *)
Module Scope.

Record t : Type := mk {
  variables : gmap string value;
  parameters : gset string;
  parent : option nat
}.

(** All [Scope] objects ever created, in order of creation. *)
Abbreviation store := (list t).

(** [Scope(parent=p)] *)
Definition new (p : option nat) : t :=
  {| variables := ∅; parameters := ∅; parent := p |}.

(** [self.set_variable(name, value, is_param)] *)
Definition set_variable (name : string) (v : value) (is_param : bool)
    (self : t) : t :=
  {| variables := <[name := v]> (variables self);
     parameters := if is_param then {[name]} ∪ parameters self
                   else parameters self;
     parent := parent self |}.

(** [self.has_variable(name)] *)
Definition has_variable (name : string) (self : t) : bool :=
  bool_decide (is_Some (variables self !! name)).

(** [self.is_parameter(name)], following [parent] at most [depth] times;
    [None] when the chain leaves the store or is longer than [depth]. *)
Fixpoint is_parameter (depth : nat) (σ : store) (self : nat)
    (name : string) : option bool :=
  match depth with
  | O => None
  | S d =>
      s ← σ !! self;
      if bool_decide (name ∈ parameters s) then Some true
      else match parent s with
           | Some p => is_parameter d σ p name
           | None => Some false
           end
  end.

(** [self.get_variable(name)]: [Some (inl e)] is the exception raised at
    the root. *)
Fixpoint get_variable (depth : nat) (σ : store) (self : nat)
    (name : string) : option (res value) :=
  match depth with
  | O => None
  | S d =>
      s ← σ !! self;
      match variables s !! name with
      | Some v => Some (ok v)
      | None =>
          match parent s with
          | Some p => get_variable d σ p name
          | None =>
              Some (err (Exception_
                ("Variable '" +:+ name +:+ "' not found in any scope")))
          end
      end
  end.

(** The scope reached from [self] by following [parent] exactly [levels]
    times: [Some None] when a scope on the way has no parent. *)
Fixpoint ancestor (levels : nat) (σ : store) (self : nat)
    : option (option nat) :=
  match levels with
  | O => Some (Some self)
  | S l =>
      s ← σ !! self;
      match parent s with
      | Some p => ancestor l σ p
      | None => Some None
      end
  end.

(** The chain of scopes from [self] to the root, nearest first. *)
Fixpoint chain (depth : nat) (σ : store) (self : nat) : list nat :=
  match depth with
  | O => []
  | S d =>
      self ::
      match σ !! self with
      | Some s => match parent s with
                  | Some p => chain d σ p
                  | None => []
                  end
      | None => []
      end
  end.

(** [while current and current != scope: ...] of
    [_variable_exists_in_child_scopes], on the store; [None] when the walk
    leaves the store or is longer than [depth]. *)
Fixpoint exists_in_child_scopes (depth : nat) (σ : store)
    (current scope : nat) (name : string) : option bool :=
  match depth with
  | O => if bool_decide (current = scope) then Some false else None
  | S d =>
      if bool_decide (current = scope) then Some false
      else
        s ← σ !! current;
        if has_variable name s then Some true
        else match parent s with
             | Some p => exists_in_child_scopes d σ p scope name
             | None => Some false
             end
  end.

(** [while scope and not scope.has_variable(name): scope = scope.parent]:
    the nearest scope of the chain that binds [name], if any. *)
Fixpoint nearest_binding (depth : nat) (σ : store) (scope : nat)
    (name : string) : option (option nat) :=
  match depth with
  | O => None
  | S d =>
      s ← σ !! scope;
      if has_variable name s then Some (Some scope)
      else match parent s with
           | Some p => nearest_binding d σ p name
           | None => Some None
           end
  end.

(** A store as the constructors of the source build it: the parent of an
    object was created before the object.  [wf_from n σ] reads [σ] as the
    objects from index [n] on. *)
Fixpoint wf_from (n : nat) (σ : store) : bool :=
  match σ with
  | [] => true
  | s :: σ' =>
      match parent s with
      | Some p => (p <? n)%nat
      | None => true
      end && wf_from (S n) σ'
  end.

Definition wf (σ : store) : bool := wf_from 0 σ.

End Scope.

(* ===================================================================== *)
(** * The parse tree                                                      *)
(* ===================================================================== *)

(** The text of a [NUMBER] token: [digits] is the text without its decimal
    point, read in base ten; [scale] is [None] when the text has no point
    and otherwise the number of digits after it. *)
Record NUMBER : Type := { digits : N; scale : option nat }.

Inductive builtin : Type :=
  POWER_FUNC | SIN_FUNC | COS_FUNC | TAN_FUNC | CTAN_FUNC | NO_FUNC.

Inductive reassign_op : Type :=
  ADD_TO | SUBTRACT_FROM | TIMES | DIVIDE_FROM | NO_OP.

(** The class of [ctx.parentCtx], as far as the visitor tests it. *)
Inductive parent_kind : Type :=
  ForInitContext | ForUpdateContext | OtherContext.

(** A node of the parse tree: one constructor per context class (or
    labelled alternative) the visitor has a method or an accessor for.  The
    arguments are what the visitor reads from the node, named after the
    accessor.  Nodes whose class has no method of its own ([LoopStatement],
    [ForInit], [ForUpdate], [ForBody], [StringExpression]) are visited by
    the inherited [visitChildren]. *)
Inductive tree : Type :=
  | Terminal
  | STRING (text : string)
  | IDENTIFIER (text : string)
  | Program (statement : list tree)
  | Statement (child : tree)
  | VariableDeclarationOrAssignment (SET : bool)
      (scopedIdentifier : option string) (identifier : string)
      (typeAnnotation : option string) (expression : tree)
      (parentCtx : parent_kind)
  | FunctionDeclaration (name : string) (parameter : option (list string))
      (blockStatement : tree)
  | FunctionCall (name : string) (argumentList : option (list tree))
  | BuiltInFunctions (func : builtin) (numExpression : list tree)
  | Identifier (text : string)
  | ScopedIdentifier (PARENT_SCOPE : nat) (name : string)
  | BlockStatement (statement : list tree)
  | ReturnStatement (expression : tree)
  | Reassignment (leftHandSide : string) (op : reassign_op)
      (expression : tree)
  | DisplayStatement (expression : list tree)
  | NumExpression3 (left : tree) (op : string) (right : tree)
  | NumExpression1 (child : tree)
  | Term3 (left : tree) (op : string) (right : tree)
  | Term1 (child : tree)
  | UnaryPlus (factor : tree)
  | UnaryMinus (factor : tree)
  | FactorNumber (number : NUMBER)
  | FactorIdentifier (name : string)
  | FactorString (text : string)
  | FactorParens (numExpression : tree)
  | FactorFunctionCall (functionCall : tree)
  | FactorOperation (operation : tree)
  | FactorscopedIdentifier (scopedIdentifier : tree)
  | FactorTrue
  | FactorFalse
  | CastExpression (typeAnnotation : string) (factor : tree)
  | Operation (name : string) (INCREMENT DECREMENT : bool)
  | NumComparison (left : tree) (comparisonOp : string) (right : tree)
  | StringComparison (left : tree) (op : string) (right : tree)
  | MatrixComparison (left : tree) (op : string) (right : tree)
  | MatrixExpression (matrixAtom : tree) (INVERT_MATRIX TRANSPOSITION : bool)
  | MatrixAtom (identifier : option string) (matrixConstruction : tree)
  | MatrixConstruction (row : list (list tree))
  | ValueNumber (number : NUMBER)
  | ValueIdentifier (name : string)
  | ValueMatrix (matrixExpression : tree)
  | ValueOther
  | BoolExpression (children : list tree)
  | LogicOr (boolAndExpression : list tree)
  | LogicAnd (boolNotExpression : list tree)
  | LogicNot (boolNotExpression : tree)
  | LogicPrimaryWrap (boolPrimary : tree)
  | LogicParen (boolExpression : tree)
  | TrueLiteral
  | FalseLiteral
  | LogicIdentifier (name : string)
  | IfStatement (boolExpression statement blockStatement : list tree)
      (ELSE_IF : nat) (ELSE : bool)
  | LoopIfStatement (boolExpression loopStatements statement : list tree)
      (ELSE : bool)
  | BreakStatement
  | LoopStatements (child : tree)
  | LoopStatement (children : list tree)
  | WhileLoop (boolExpression : tree) (loopStatements : list tree)
  | ForLoop (forInit : option tree) (cond : tree) (forUpdate : option tree)
      (forBody : option tree)
  | ForInit (children : list tree)
  | ForUpdate (children : list tree)
  | ForBody (children : list tree)
  | StringExpression (children : list tree)
  | Expression (child : tree).

(* ===================================================================== *)
(** * The interpreter state                                               *)
(* ===================================================================== *)

(** An entry of [self.functions]. *)
Record Function : Type := {
  params : list string;
  body : tree;
  scope : nat
}.

(** An entry of [self.call_stack]. *)
Record Frame : Type := {
  frame_name : string;
  frame_params : list string;
  frame_scope : nat
}.

(** The attributes of an [Interpreter] object, with the store of the
    [Scope] objects they refer to and the lines written by [print]. *)
Record Interpreter : Type := mkInterpreter {
  scopes : Scope.store;
  global_scope : nat;
  current_scope : nat;
  memory : gmap string value;
  variables : gmap string value;
  functions : gmap string Function;
  output_lines : list string;
  call_stack : list Frame;
  debug : bool;
  skip_next_block_scope : bool;
  stdout : list string
}.

(** [Interpreter(debug)] *)
Definition init (debug : bool) : Interpreter :=
  {| scopes := [Scope.new None];
     global_scope := 0;
     current_scope := 0;
     memory := ∅;
     variables := ∅;
     functions := ∅;
     output_lines := [];
     call_stack := [];
     debug := debug;
     skip_next_block_scope := false;
     stdout := [] |}.

Definition set_scopes (σ : Scope.store) (i : Interpreter) : Interpreter :=
  mkInterpreter σ (global_scope i) (current_scope i) (memory i) (variables i)
    (functions i) (output_lines i) (call_stack i) (debug i)
    (skip_next_block_scope i) (stdout i).
Definition set_current_scope (c : nat) (i : Interpreter) : Interpreter :=
  mkInterpreter (scopes i) (global_scope i) c (memory i) (variables i)
    (functions i) (output_lines i) (call_stack i) (debug i)
    (skip_next_block_scope i) (stdout i).
Definition set_memory (m : gmap string value) (i : Interpreter)
    : Interpreter :=
  mkInterpreter (scopes i) (global_scope i) (current_scope i) m (variables i)
    (functions i) (output_lines i) (call_stack i) (debug i)
    (skip_next_block_scope i) (stdout i).
Definition set_functions (f : gmap string Function) (i : Interpreter)
    : Interpreter :=
  mkInterpreter (scopes i) (global_scope i) (current_scope i) (memory i)
    (variables i) f (output_lines i) (call_stack i) (debug i)
    (skip_next_block_scope i) (stdout i).
Definition set_output_lines (o : list string) (i : Interpreter)
    : Interpreter :=
  mkInterpreter (scopes i) (global_scope i) (current_scope i) (memory i)
    (variables i) (functions i) o (call_stack i) (debug i)
    (skip_next_block_scope i) (stdout i).
Definition set_call_stack (k : list Frame) (i : Interpreter) : Interpreter :=
  mkInterpreter (scopes i) (global_scope i) (current_scope i) (memory i)
    (variables i) (functions i) (output_lines i) k (debug i)
    (skip_next_block_scope i) (stdout i).
Definition set_skip_next_block_scope (b : bool) (i : Interpreter)
    : Interpreter :=
  mkInterpreter (scopes i) (global_scope i) (current_scope i) (memory i)
    (variables i) (functions i) (output_lines i) (call_stack i) (debug i) b
    (stdout i).
Definition set_stdout (o : list string) (i : Interpreter) : Interpreter :=
  mkInterpreter (scopes i) (global_scope i) (current_scope i) (memory i)
    (variables i) (functions i) (output_lines i) (call_stack i) (debug i)
    (skip_next_block_scope i) o.

(* ===================================================================== *)
(** * The evaluation monad                                                *)
(* ===================================================================== *)

(** How a piece of the visitor ends: with a value, with a Python exception
    in flight, or without an answer from the model: [OutOfFuel] when the
    step budget is used up, [Stuck] when a scope reference is not in the
    store (no state built by the interpreter has such a reference). *)
Inductive outcome (A : Type) : Type :=
  | Done (a : A)
  | Raised (e : exn)
  | OutOfFuel
  | Stuck.
Arguments Done {A} a.
Arguments Raised {A} e.
Arguments OutOfFuel {A}.
Arguments Stuck {A}.

Definition M (A : Type) : Type := Interpreter → outcome A * Interpreter.

Definition ret {A} (a : A) : M A := λ i, (Done a, i).
Definition raise {A} (e : exn) : M A := λ i, (Raised e, i).
Definition out_of_fuel {A} : M A := λ i, (OutOfFuel, i).
Definition stuck {A} : M A := λ i, (Stuck, i).

Definition bind {A B} (m : M A) (k : A → M B) : M B :=
  λ i, match m i with
       | (Done a, i') => k a i'
       | (Raised e, i') => (Raised e, i')
       | (OutOfFuel, i') => (OutOfFuel, i')
       | (Stuck, i') => (Stuck, i')
       end.

Declare Scope interp_scope.
Delimit Scope interp_scope with interp.
Bind Scope interp_scope with M.
Notation "x ← m ; k" := (bind m (λ x, k))
  (at level 20, m at level 100, k at level 200, only parsing) : interp_scope.
Notation "' x ← m ; k" := (bind m (λ x, k))
  (at level 20, x pattern, m at level 100, k at level 200, only parsing)
  : interp_scope.
Notation "m ;; k" := (bind m (λ _, k))
  (at level 100, k at level 200, only parsing, right associativity)
  : interp_scope.
#[local] Open Scope interp_scope.

Definition gets {A} (f : Interpreter → A) : M A := λ i, (Done (f i), i).
Definition modify (f : Interpreter → Interpreter) : M unit :=
  λ i, (Done tt, f i).

(** A pure Python operation inside the visitor. *)
Definition lift {A} (r : res A) : M A :=
  match r with inl e => raise e | inr a => ret a end.

(** A result of a walk over the store. *)
Definition lift_store {A} (o : option A) : M A :=
  match o with Some a => ret a | None => stuck end.

(** [for x in l: f(x)] *)
Fixpoint for_each {A} (f : A → M unit) (l : list A) : M unit :=
  match l with
  | [] => ret tt
  | x :: l' => f x ;; for_each f l'
  end.

(** [[f(x) for x in l]] *)
Fixpoint map_M {A B} (f : A → M B) (l : list A) : M (list B) :=
  match l with
  | [] => ret []
  | x :: l' => y ← f x; ys ← map_M f l'; ret (y :: ys)
  end.

(** ** Scope objects through the store *)

(** The object a reference points to. *)
Definition deref (r : nat) : M Scope.t :=
  σ ← gets scopes; lift_store (σ !! r).

(** [Scope(parent=p)]: a new object, and the reference to it. *)
Definition new_scope (p : option nat) : M nat :=
  σ ← gets scopes;
  modify (set_scopes (σ ++ [Scope.new p])) ;;
  ret (length σ).

(** [r.set_variable(name, value, is_param)] *)
Definition scope_set_variable (r : nat) (name : string) (v : value)
    (is_param : bool) : M unit :=
  s ← deref r;
  modify (λ i, set_scopes
                 (<[r := Scope.set_variable name v is_param s]> (scopes i)) i).

(** [r.has_variable(name)] *)
Definition scope_has_variable (r : nat) (name : string) : M bool :=
  s ← deref r; ret (Scope.has_variable name s).

(** [r.get_variable(name)] *)
Definition scope_get_variable (r : nat) (name : string) : M value :=
  σ ← gets scopes;
  x ← lift_store (Scope.get_variable (S r) σ r name);
  lift x.

(** [r.is_parameter(name)] *)
Definition scope_is_parameter (r : nat) (name : string) : M bool :=
  σ ← gets scopes;
  lift_store (Scope.is_parameter (S r) σ r name).

(** [print(line)] *)
Definition print (line : string) : M unit :=
  modify (λ i, set_stdout (stdout i ++ [line]) i).

(** [self.output_lines.append(line)] *)
Definition output_lines_append (line : string) : M unit :=
  modify (λ i, set_output_lines (output_lines i ++ [line]) i).

(* ===================================================================== *)
(** * The methods of [class Interpreter]                                  *)
(* ===================================================================== *)

Section Methods.
Context {rt : Runtime}.

(** [self.visit], the dispatch on the class of the node. *)
Variable visit : tree → M value.

(** [self.visit(t)] where the accessor may have returned [None]. *)
Definition visit_opt (t : option tree) : M value :=
  match t with
  | Some t => visit t
  | None => raise AttributeError
  end.

(** The inherited [visitChildren]: the result of the last child. *)
Fixpoint visitChildren_from (result : value) (children : list tree)
    : M value :=
  match children with
  | [] => ret result
  | c :: cs => r ← visit c; visitChildren_from r cs
  end.
Definition visitChildren (children : list tree) : M value :=
  visitChildren_from VNone children.

Definition push_env : M unit :=
  c ← gets current_scope;
  r ← new_scope (Some c);
  modify (set_current_scope r).

Definition pop_env : M unit :=
  c ← gets current_scope;
  s ← deref c;
  match Scope.parent s with
  | Some p => modify (set_current_scope p)
  | None => raise (Exception_ "Cannot pop global scope")
  end.

Definition lookup_variable (name : string) : M value :=
  c ← gets current_scope;
  scope_get_variable c name.

Definition visitProgram (statement : list tree) : M value :=
  for_each (λ stmt,
    result ← visit stmt;
    if negb (is_None result) && negb (isinstance_BreakStatement result)
    then output_lines_append (py_str result)
    else ret tt) statement ;;
  o ← gets output_lines;
  ret (VList (VStr <$> o)).

(** [isinstance(value, float) and value.is_integer()] then [int(value)] *)
Definition narrow (v : value) : res value :=
  match v with
  | VFloat f =>
      if float_is_integer f
      then res_bind (int_of_float f) (λ z, ok (VInt z))
      else ok v
  | _ => ok v
  end.

Definition cast_value (v : value) (type_str : option string) : res value :=
  match type_str with
  | None => narrow v
  | Some t =>
      if String.eqb t "int" then
        res_bind (py_float v) (λ f,
        res_bind (int_of_float f) (λ z, ok (VInt z)))
      else if String.eqb t "float" then
        res_bind (py_float v) (λ f, ok (VFloat f))
      else if String.eqb t "bool" then
        match v with
        | VStr s => ok (VBool (String.eqb (lower s) "true"))
        | _ => ok (VBool (truthy v))
        end
      else if String.eqb t "string" then ok (VStr (py_str v))
      else if String.eqb t "matrix" then
        match v with
        | VList rows =>
            if forallb isinstance_list rows then ok v
            else err (Exception_ "Invalid matrix format")
        | _ => err (Exception_ "Invalid matrix format")
        end
      else err (Exception_ ("Unknown type: " +:+ t))
  end.

(** [type_ctx.getText().lower() if type_ctx else None] *)
Definition declared_type_of (typeAnnotation : option string)
    : option string :=
  lower <$> typeAnnotation.

(** [if declared_type:] *)
Definition declared (declared_type : option string) : bool :=
  match declared_type with
  | Some t => negb (String.eqb t "")
  | None => false
  end.

Definition resolve_scope_for_assignment (scoped_name : string)
    : M (nat * string) :=
  let parts := split_colons scoped_name [] in
  let var_name := List.last parts ""%string in
  let levels := (length parts - 1)%nat in
  c ← gets current_scope;
  σ ← gets scopes;
  a ← lift_store (Scope.ancestor levels σ c);
  match a with
  | Some scope => ret (scope, var_name)
  | None =>
      raise (Exception_
        ("No parent scope exists while resolving assignment to '"
         +:+ scoped_name +:+ "'"))
  end.

Definition _variable_exists_in_child_scopes (scope : nat) (name : string)
    : M bool :=
  c ← gets current_scope;
  σ ← gets scopes;
  lift_store (Scope.exists_in_child_scopes (S c) σ c scope name).

Definition visitVariableDeclarationOrAssignment (SET : bool)
    (scopedIdentifier : option string) (identifier : string)
    (typeAnnotation : option string) (expression : tree)
    (parentCtx : parent_kind) : M value :=
  let is_declaration := SET in
  match scopedIdentifier with
  | Some scoped_name =>
      value ← visit expression;
      let declared_type := declared_type_of typeAnnotation in
      value ← lift (if declared declared_type
                    then cast_value value declared_type
                    else narrow value);
      '(scope, var_name) ← resolve_scope_for_assignment scoped_name;
      shadowed ← (if is_declaration
                  then _variable_exists_in_child_scopes scope var_name
                  else ret false);
      if shadowed then
        raise (InterpreterError
          ("Cannot declare variable '" +:+ var_name +:+
           "' in parent scope when it exists in child scope")
          "Remove the local declaration first or use a different name")
      else
        scope_set_variable scope var_name value false ;;
        ret VNone
  | None =>
      let name := identifier in
      value ← visit expression;
      let declared_type := declared_type_of typeAnnotation in
      let in_for_init :=
        match parentCtx with ForInitContext => true | _ => false end in
      let in_for_update :=
        match parentCtx with ForUpdateContext => true | _ => false end in
      c ← gets current_scope;
      if is_declaration then
        (if negb (in_for_init || in_for_update) then
           p ← scope_is_parameter c name;
           if p then
             raise (InterpreterError
               ("Cannot redeclare parameter '" +:+ name +:+
                "' in this scope")
               "Parameters cannot be redeclared in the same function scope")
           else
             h ← scope_has_variable c name;
             if h then
               raise (InterpreterError
                 ("Variable '" +:+ name +:+
                  "' is already declared in this scope")
                 "Use reassignment syntax instead of redeclaration")
             else ret tt
         else ret tt) ;;
        value ← lift (if declared declared_type
                      then cast_value value declared_type
                      else narrow value);
        scope_set_variable c name value false ;;
        ret VNone
      else
        σ ← gets scopes;
        scope ← lift_store (Scope.nearest_binding (S c) σ c name);
        match scope with
        | None =>
            raise (InterpreterError
              ("Variable '" +:+ name +:+ "' not declared in this scope")
              "Declare the variable with 'Set' before assigning to it")
        | Some scope =>
            value ← lift (if declared declared_type
                          then cast_value value declared_type
                          else ok value);
            scope_set_variable scope name value false ;;
            ret VNone
        end
  end.

(** The loop over [typedParameter] of [visitFunctionDeclaration]. *)
Fixpoint parameter_names (typedParameter : list string)
    (seen_params : gset string) : res (list string) :=
  match typedParameter with
  | [] => ok []
  | param_name :: rest =>
      if bool_decide (param_name ∈ seen_params) then
        err (InterpreterError
               ("Duplicate parameter name '" +:+ param_name +:+ "'")
               "Parameter names must be unique within a function")
      else
        res_bind (parameter_names rest ({[param_name]} ∪ seen_params))
                 (λ l, ok (param_name :: l))
  end.

Definition visitFunctionDeclaration (name : string)
    (parameter : option (list string)) (blockStatement : tree) : M value :=
  fs ← gets functions;
  if bool_decide (is_Some (fs !! name)) then
    raise (InterpreterError
             ("Duplicate function declaration '" +:+ name +:+ "'")
             "Function names must be unique")
  else
    param_list ← lift (match parameter with
                       | Some typedParameter =>
                           parameter_names typedParameter ∅
                       | None => ok []
                       end);
    c ← gets current_scope;
    modify (λ i, set_functions
                   (<[name := {| params := param_list;
                                 body := blockStatement;
                                 scope := c |}]> (functions i)) i) ;;
    ret VNone.

(** [try: ... except FunctionReturn as fr: result = fr.value
    finally: self.call_stack.pop(); self.current_scope = previous_scope] *)
Definition call_protected (previous_scope : nat) (m : M value) : M value :=
  λ i,
    let '(o, i') := m i in
    let i'' := set_current_scope previous_scope
                 (set_call_stack (removelast (call_stack i')) i') in
    match o with
    | Raised (FunctionReturn v) => (Done v, i'')
    | _ => (o, i'')
    end.

Definition callFunction (name : string) (args : list value) : M value :=
  fs ← gets functions;
  match fs !! name with
  | None => raise (KeyError name)
  | Some func =>
      let param_names := params func in
      let defining_scope := scope func in
      if negb (length param_names =? length args)%nat then
        raise (Exception_
                 ("Function '" +:+ name +:+ "' expects " +:+
                  pretty (length param_names) +:+ " args, got " +:+
                  pretty (length args)))
      else
        local_scope ← new_scope (Some defining_scope);
        for_each (λ '(pname, arg),
                    scope_set_variable local_scope pname arg true)
                 (zip param_names args) ;;
        previous_scope ← gets current_scope;
        modify (set_current_scope local_scope) ;;
        modify (λ i, set_call_stack
                       (call_stack i ++
                        [{| frame_name := name;
                            frame_params := param_names;
                            frame_scope := local_scope |}]) i) ;;
        call_protected previous_scope
          (modify (set_skip_next_block_scope true) ;;
           visit (body func))
  end.

Definition visitFunctionCall (name : string)
    (argumentList : option (list tree)) : M value :=
  args ← match argumentList with
         | Some expression => map_M visit expression
         | None => ret []
         end;
  callFunction name args.

Definition visitBuiltInFunctions (func : builtin)
    (numExpression : list tree) : M value :=
  match func with
  | POWER_FUNC =>
      base ← visit_opt (numExpression !! 0%nat);
      exponent ← visit_opt (numExpression !! 1%nat);
      lift (res_bind (as_double base) (λ b,
            res_bind (as_double exponent) (λ e,
            res_bind (math_pow b e) (λ r, ok (VFloat r)))))
  | SIN_FUNC =>
      value ← visit_opt (numExpression !! 0%nat);
      lift (res_bind (as_double value) (λ x,
            res_bind (math_sin x) (λ r, ok (VFloat r))))
  | COS_FUNC =>
      value ← visit_opt (numExpression !! 0%nat);
      lift (res_bind (as_double value) (λ x,
            res_bind (math_cos x) (λ r, ok (VFloat r))))
  | TAN_FUNC =>
      value ← visit_opt (numExpression !! 0%nat);
      lift (res_bind (as_double value) (λ x,
            res_bind (math_tan x) (λ r, ok (VFloat r))))
  | CTAN_FUNC =>
      value ← visit_opt (numExpression !! 0%nat);
      tan_val ← lift (res_bind (as_double value) math_tan);
      if PrimFloat.eqb tan_val zero then
        raise (ZeroDivisionError "Cotangent undefined: tan(value) = 0")
      else lift (py_truediv (VInt 1) (VFloat tan_val))
  | NO_FUNC => raise (Exception_ "Unknown built-in function")
  end.

Definition visitIdentifier (var_name : string) : M value :=
  vs ← gets variables;
  match vs !! var_name with
  | Some v => ret v
  | None => raise (Exception_ ("Undefined variable: " +:+ var_name))
  end.

Definition visitScopedIdentifier (levels : nat) (name : string) : M value :=
  c ← gets current_scope;
  σ ← gets scopes;
  a ← lift_store (Scope.ancestor levels σ c);
  match a with
  | Some current_scope => scope_get_variable current_scope name
  | None =>
      raise (InterpreterError
        ("No parent scope exists while resolving 'parent::" +:+ name +:+ "'")
        "Too many 'parent::' references, the parent scope doesn't exist")
  end.

Definition visitBlockStatement (statement : list tree) : M value :=
  skip ← gets skip_next_block_scope;
  if skip then
    modify (set_skip_next_block_scope false) ;;
    for_each (λ stmt, visit stmt ;; ret tt) statement ;;
    ret VNone
  else
    push_env ;;
    for_each (λ stmt, visit stmt ;; ret tt) statement ;;
    pop_env ;;
    ret VNone.

Definition visitReturnStatement (expression : tree) : M value :=
  value ← visit expression;
  raise (FunctionReturn value).

Definition visitStatement (child : tree) : M value :=
  result ← match child with
           | VariableDeclarationOrAssignment _ _ _ _ _ _
           | FunctionDeclaration _ _ _
           | FunctionCall _ _
           | ReturnStatement _
           | DisplayStatement _
           | IfStatement _ _ _ _ _
           | LoopStatement _
           | ForLoop _ _ _ _
           | WhileLoop _ _
           | BlockStatement _
           | Operation _ _ _ => visit child
           | _ => ret VNone
           end;
  (if match child with FunctionCall _ _ => true | _ => false end
      && negb (is_None result)
   then output_lines_append ("Result: " +:+ py_str result)
   else ret tt) ;;
  ret result.

Definition visitReassignment (name : string) (op : reassign_op)
    (expression : tree) : M value :=
  value ← visit expression;
  c ← gets current_scope;
  σ ← gets scopes;
  found ← lift_store (Scope.nearest_binding (S c) σ c name);
  match found with
  | Some scope =>
      current_value ← scope_get_variable scope name;
      match op with
      | ADD_TO =>
          v ← lift (py_add current_value value);
          scope_set_variable scope name v false
      | SUBTRACT_FROM =>
          v ← lift (py_sub current_value value);
          scope_set_variable scope name v false
      | TIMES =>
          v ← lift (py_mul current_value value);
          scope_set_variable scope name v false
      | DIVIDE_FROM =>
          v ← lift (py_truediv current_value value);
          scope_set_variable scope name v false
      | NO_OP => ret tt
      end ;;
      scope_get_variable scope name
  | None => raise (Exception_ ("Variable '" +:+ name +:+ "' not defined."))
  end.

Definition visitDisplayStatement (expression : list tree) : M value :=
  results ← map_M visit expression;
  let display_output := String.concat " " (py_str <$> results) in
  dbg ← gets debug;
  (if dbg then print ("DEBUG: Displaying " +:+ py_str (VList results))
   else ret tt) ;;
  output_lines_append display_output ;;
  print display_output ;;
  ret VNone.

(** The body of [visitNumExpression] once both operands are values;
    [None] when [op] is neither [+] nor [-] and control leaves the [if]. *)
Definition numExpression_op (op : string) (left right : value)
    : option (res value) :=
  if String.eqb op "+" then
    if isinstance_str left || isinstance_str right
    then Some (ok (VStr (py_str left +:+ py_str right)))
    else Some (py_add left right)
  else if String.eqb op "-" then
    if isinstance_int_float left && isinstance_int_float right
    then Some (py_sub left right)
    else Some (err TypeError)
  else None.

Definition visitNumExpression3 (l : tree) (op : string) (r : tree)
    : M value :=
  left ← visit l;
  right ← visit r;
  match numExpression_op op left right with
  | Some x => lift x
  | None => visit l
  end.

(** The body of [visitTerm] once both operands are values. *)
Definition term_op (op : string) (left right : value)
    : option (res value) :=
  if String.eqb op "*" then Some (py_mul left right)
  else if String.eqb op "/" then
    match as_int right with
    | Some b =>
        if negb (isinstance_float left)
        then Some (py_floordiv_int left b)
        else Some (py_truediv left right)
    | None => Some (py_truediv left right)
    end
  else if String.eqb op "%" then Some (py_mod left right)
  else None.

Definition visitTerm3 (l : tree) (op : string) (r : tree) : M value :=
  left ← visit l;
  right ← visit r;
  match term_op op left right with
  | Some x => lift x
  | None => visit l
  end.

Definition visitUnaryPlus (factor : tree) : M value :=
  v ← visit factor; lift (py_pos v).

Definition visitUnaryMinus (factor : tree) : M value :=
  v ← visit factor; lift (py_neg v).

Definition visitFactorNumber (number : NUMBER) : M value :=
  match scale number with
  | Some k => ret (VFloat (float_of_decimal (digits number) k))
  | None => ret (VInt (Z.of_N (digits number)))
  end.

Definition visitFactorString (text : string) : M value :=
  ret (VStr (strip dquote text)).

Definition visitOperation (var_name : string) (INCREMENT DECREMENT : bool)
    : M value :=
  m ← gets memory;
  match m !! var_name with
  | None =>
      raise (Exception_ ("Variable '" +:+ var_name +:+ "' not defined."))
  | Some current_value =>
      if negb (isinstance_int_float current_value) then
        raise (Exception_
                 ("Cannot increment/decrement non-numeric variable '" +:+
                  var_name +:+ "'."))
      else
        (if INCREMENT then
           v ← lift (py_add current_value (VInt 1));
           modify (λ i, set_memory (<[var_name := v]> (memory i)) i)
         else if DECREMENT then
           v ← lift (py_sub current_value (VInt 1));
           modify (λ i, set_memory (<[var_name := v]> (memory i)) i)
         else ret tt) ;;
        m ← gets memory;
        match m !! var_name with
        | Some v => ret v
        | None => raise (KeyError var_name)
        end
  end.

Definition evaluateBinaryOp (left right : value) (op : string)
    : res value :=
  if String.eqb op "+" then py_add left right
  else if String.eqb op "-" then py_sub left right
  else if String.eqb op "*" then py_mul left right
  else if String.eqb op "/" then py_truediv left right
  else if String.eqb op "%" then py_mod left right
  else if String.eqb op "<" then py_lt left right
  else if String.eqb op ">" then py_gt left right
  else if String.eqb op "==" then ok (VBool (py_eq left right))
  else if String.eqb op "!=" then ok (VBool (negb (py_eq left right)))
  else if String.eqb op "<=" then py_le left right
  else if String.eqb op ">=" then py_ge left right
  else err (Exception_ ("Unknown operator " +:+ op)).

Definition visitNumComparison (l : tree) (op : string) (r : tree)
    : M value :=
  left ← visit l;
  right ← visit r;
  lift (evaluateBinaryOp left right op).

(** [visitStringComparison] and [visitMatrixComparison] *)
Definition visitEqualityComparison (l : tree) (op : string) (r : tree)
    : M value :=
  left ← visit l;
  right ← visit r;
  ret (VBool (if String.eqb op "==" then py_eq left right
              else negb (py_eq left right))).

Definition transpose_matrix (matrix : value) : res value :=
  if negb (truthy matrix) then ok (VList [])
  else
    res_bind (py_getitem matrix 0) (λ m0,
    if negb (truthy m0) then ok (VList [])
    else
      res_bind (py_len m0) (λ k,
      res_bind (py_len matrix) (λ n,
      res_bind
        (res_map (λ i,
           res_bind
             (res_map (λ j, res_bind (py_getitem matrix j)
                                     (λ mj, py_getitem mj i))
                      (seq 0 n))
             (λ row, ok (VList row)))
           (seq 0 k))
        (λ rows, ok (VList rows))))).

Definition invert_matrix (matrix : value) : res value :=
  res_bind (py_len matrix) (λ n,
  res_bind (if negb (n =? 2)%nat then ok true
            else res_bind (py_getitem matrix 0) (λ m0,
                 res_bind (py_len m0) (λ k, ok (negb (k =? 2)%nat))))
           (λ unsupported,
  if (unsupported : bool) then
    err (Exception_ "Only 2x2 matrix inversion supported")
  else
    res_bind (py_getitem matrix 0) (λ m0,
    res_bind (py_unpack2 m0) (λ '(a, b),
    res_bind (py_getitem matrix 1) (λ m1,
    res_bind (py_unpack2 m1) (λ '(c, d),
    res_bind (py_mul a d) (λ ad,
    res_bind (py_mul b c) (λ bc,
    res_bind (py_sub ad bc) (λ determinant,
    if py_eq determinant (VInt 0) then
      err (Exception_ "Matrix is not invertible")
    else
      res_bind (py_truediv d determinant) (λ i00,
      res_bind (py_neg b) (λ nb,
      res_bind (py_truediv nb determinant) (λ i01,
      res_bind (py_neg c) (λ nc,
      res_bind (py_truediv nc determinant) (λ i10,
      res_bind (py_truediv a determinant) (λ i11,
      ok (VList [VList [i00; i01]; VList [i10; i11]])))))))))))))))).

Definition visitMatrixExpression (matrixAtom : tree)
    (INVERT_MATRIX TRANSPOSITION : bool) : M value :=
  matrix ← visit matrixAtom;
  if INVERT_MATRIX then lift (invert_matrix matrix)
  else if TRANSPOSITION then lift (transpose_matrix matrix)
  else ret matrix.

Definition visitMatrixAtom (identifier : option string)
    (matrixConstruction : tree) : M value :=
  match identifier with
  | Some name => lookup_variable name
  | None => visit matrixConstruction
  end.

Definition visitMatrixConstruction (row : list (list tree)) : M value :=
  rows ← map_M (λ rowCtx,
                  r ← map_M visit rowCtx;
                  print ("DEBUG row: " +:+ py_str (VList r)) ;;
                  ret (VList r)) row;
  ret (VList rows).

Definition visitValueNumber (number : NUMBER) : M value :=
  ret (VFloat (float_of_decimal (digits number)
                 (default 0%nat (scale number)))).

Definition visitValueIdentifier (name : string) : M value :=
  value ← lookup_variable name;
  match value with
  | VList rows =>
      if existsb isinstance_list rows then
        raise (Exception_
                 "Matrix cannot contain another matrix as an element")
      else ret value
  | _ => ret value
  end.

Definition visitCastExpression (typeAnnotation : string) (factor : tree)
    : M value :=
  let target_type := lower typeAnnotation in
  value ← visit factor;
  if String.eqb target_type "int" then
    match value with
    | VBool b => ret (VInt (if b then 1 else 0))
    | _ =>
        match res_bind (py_float value) int_of_float with
        | inr z => ret (VInt z)
        | inl ValueError =>
            raise (Exception_
                     ("Cannot cast " +:+ py_str value +:+ " to int"))
        | inl e => raise e
        end
    end
  else if String.eqb target_type "float" then
    match py_float value with
    | inr f => ret (VFloat f)
    | inl ValueError =>
        raise (Exception_
                 ("Cannot cast " +:+ py_str value +:+ " to float"))
    | inl e => raise e
    end
  else if String.eqb target_type "bool" then
    match value with
    | VStr s => ret (VBool (String.eqb (lower s) "true"))
    | _ => ret (VBool (truthy value))
    end
  else if String.eqb target_type "string" then
    ret (VStr (py_str value))
  else raise (Exception_ ("Unsupported cast type: " +:+ target_type)).

Fixpoint visitLogicOr (boolAndExpression : list tree) : M value :=
  match boolAndExpression with
  | [] => ret (VBool false)
  | b :: rest =>
      v ← visit b;
      if truthy v then ret (VBool true) else visitLogicOr rest
  end.

Fixpoint visitLogicAnd (boolNotExpression : list tree) : M value :=
  match boolNotExpression with
  | [] => ret (VBool true)
  | b :: rest =>
      v ← visit b;
      if negb (truthy v) then ret (VBool false) else visitLogicAnd rest
  end.

Definition visitLogicNot (boolNotExpression : tree) : M value :=
  v ← visit boolNotExpression;
  ret (VBool (negb (truthy v))).

Definition visitLogicIdentifier (name : string) : M value :=
  v ← lookup_variable name;
  ret (VBool (truthy v)).

(** [a(i) or b(i)] on two accessors *)
Definition first_of (a b : list tree) (i : nat) : option tree :=
  match a !! i with
  | Some t => Some t
  | None => b !! i
  end.

(** The tested branches of an [if]: for each index, the condition of
    that index and, when it holds and the branch has a body, the body;
    [otherwise] when no branch was taken. *)
Fixpoint branches (boolExpression body1 body2 : list tree)
    (indices : list nat) (otherwise : M value) : M value :=
  match indices with
  | [] => otherwise
  | i :: rest =>
      c ← visit_opt (boolExpression !! i);
      match (if truthy c then first_of body1 body2 i else None) with
      | Some b => visit b
      | None => branches boolExpression body1 body2 rest otherwise
      end
  end.

Definition visitIfStatement (boolExpression statement blockStatement
    : list tree) (ELSE_IF : nat) (ELSE : bool) : M value :=
  branches boolExpression statement blockStatement (seq 0 (1 + ELSE_IF))
    (if ELSE then
       let num_ifs := (1 + ELSE_IF)%nat in
       match first_of statement blockStatement num_ifs with
       | Some b => visit b
       | None => ret VNone
       end
     else ret VNone).

Definition visitLoopIfStatement (boolExpression loopStatements statement
    : list tree) (ELSE : bool) : M value :=
  branches boolExpression loopStatements statement
    (0%nat :: seq 1 (length boolExpression - 1))
    (if ELSE then
       let idx := length boolExpression in
       match first_of loopStatements statement idx with
       | Some b => visit b
       | None => ret VNone
       end
     else ret VNone).

Definition visitLoopStatements (child : tree) : M value :=
  match child with
  | LoopStatement _
  | VariableDeclarationOrAssignment _ _ _ _ _ _
  | FunctionDeclaration _ _ _
  | ReturnStatement _
  | IfStatement _ _ _ _ _
  | BlockStatement _
  | DisplayStatement _ => visit child
  | _ => ret VNone
  end.

(** The [for stmt in ctx.loopStatements()] of [visitWhileLoop]:
    [Some r] when the method returns [r] from inside the loop. *)
Fixpoint while_body (loopStatements : list tree) : M (option value) :=
  match loopStatements with
  | [] => ret None
  | stmt :: rest =>
      result ← visit stmt;
      if isinstance_BreakStatement result then
        pop_env ;; ret (Some VNone)
      else if negb (is_None result) then
        pop_env ;; ret (Some result)
      else while_body rest
  end.

(** [visitWhileLoop]; each turn of the [while] takes one unit of [fuel]. *)
Fixpoint visitWhileLoop (fuel : nat) (boolExpression : tree)
    (loopStatements : list tree) : M value :=
  match fuel with
  | O => out_of_fuel
  | S n =>
      c ← visit boolExpression;
      if truthy c then
        push_env ;;
        r ← while_body loopStatements;
        match r with
        | Some result => ret result
        | None => pop_env ;; visitWhileLoop n boolExpression loopStatements
        end
      else ret VNone
  end.

(** The [while] of [visitForLoop]. *)
Fixpoint for_loop (fuel : nat) (cond : tree) (forUpdate forBody
    : option tree) : M value :=
  match fuel with
  | O => out_of_fuel
  | S n =>
      c ← visit cond;
      if truthy c then
        push_env ;;
        result ← visit_opt forBody;
        if isinstance_BreakStatement result then
          pop_env ;; ret VNone
        else
          pop_env ;;
          c' ← visit cond;
          (if truthy c' then visit_opt forUpdate ;; ret tt else ret tt) ;;
          for_loop n cond forUpdate forBody
      else ret VNone
  end.

Definition visitForLoop (fuel : nat) (forInit : option tree) (cond : tree)
    (forUpdate forBody : option tree) : M value :=
  match forInit with
  | Some init => visit init ;; ret tt
  | None => ret tt
  end ;;
  for_loop fuel cond forUpdate forBody.

Definition visitExpression (child : tree) : M value :=
  match child with
  | NumExpression3 _ _ _ | NumExpression1 _
  | BoolExpression _
  | FunctionCall _ _
  | BuiltInFunctions _ _
  | MatrixExpression _ _ _
  | StringExpression _
  | ScopedIdentifier _ _ => visit child
  | STRING text => ret (VStr (strip dquote text))
  | IDENTIFIER name => lookup_variable name
  | _ => ret VNone
  end.

(** [tree.accept(self)]: the method of the class of the node. *)
Definition accept (fuel : nat) (t : tree) : M value :=
  match t with
  | Terminal | STRING _ | IDENTIFIER _ => ret VNone
  | Program statement => visitProgram statement
  | Statement child => visitStatement child
  | VariableDeclarationOrAssignment SET scopedIdentifier identifier
      typeAnnotation expression parentCtx =>
      visitVariableDeclarationOrAssignment SET scopedIdentifier identifier
        typeAnnotation expression parentCtx
  | FunctionDeclaration name parameter blockStatement =>
      visitFunctionDeclaration name parameter blockStatement
  | FunctionCall name argumentList => visitFunctionCall name argumentList
  | BuiltInFunctions func numExpression =>
      visitBuiltInFunctions func numExpression
  | Identifier text => visitIdentifier text
  | ScopedIdentifier levels name => visitScopedIdentifier levels name
  | BlockStatement statement => visitBlockStatement statement
  | ReturnStatement expression => visitReturnStatement expression
  | Reassignment leftHandSide op expression =>
      visitReassignment leftHandSide op expression
  | DisplayStatement expression => visitDisplayStatement expression
  | NumExpression3 l op r => visitNumExpression3 l op r
  | NumExpression1 child => visit child
  | Term3 l op r => visitTerm3 l op r
  | Term1 child => visit child
  | UnaryPlus factor => visitUnaryPlus factor
  | UnaryMinus factor => visitUnaryMinus factor
  | FactorNumber number => visitFactorNumber number
  | FactorIdentifier name => lookup_variable name
  | FactorString text => visitFactorString text
  | FactorParens numExpression => visit numExpression
  | FactorFunctionCall functionCall => visit functionCall
  | FactorOperation operation => visit operation
  | FactorscopedIdentifier scopedIdentifier => visit scopedIdentifier
  | FactorTrue => ret (VBool true)
  | FactorFalse => ret (VBool false)
  | CastExpression typeAnnotation factor =>
      visitCastExpression typeAnnotation factor
  | Operation name INCREMENT DECREMENT =>
      visitOperation name INCREMENT DECREMENT
  | NumComparison l op r => visitNumComparison l op r
  | StringComparison l op r => visitEqualityComparison l op r
  | MatrixComparison l op r => visitEqualityComparison l op r
  | MatrixExpression matrixAtom INVERT_MATRIX TRANSPOSITION =>
      visitMatrixExpression matrixAtom INVERT_MATRIX TRANSPOSITION
  | MatrixAtom identifier matrixConstruction =>
      visitMatrixAtom identifier matrixConstruction
  | MatrixConstruction row => visitMatrixConstruction row
  | ValueNumber number => visitValueNumber number
  | ValueIdentifier name => visitValueIdentifier name
  | ValueMatrix _ =>
      raise (Exception_
               "Matrix cannot contain another matrix as an element")
  | ValueOther =>
      raise (Exception_
               "Invalid matrix value: must be a number or scalar variable")
  | BoolExpression children => visitChildren children
  | LogicOr boolAndExpression => visitLogicOr boolAndExpression
  | LogicAnd boolNotExpression => visitLogicAnd boolNotExpression
  | LogicNot boolNotExpression => visitLogicNot boolNotExpression
  | LogicPrimaryWrap boolPrimary => visit boolPrimary
  | LogicParen boolExpression => visit boolExpression
  | TrueLiteral => ret (VBool true)
  | FalseLiteral => ret (VBool false)
  | LogicIdentifier name => visitLogicIdentifier name
  | IfStatement boolExpression statement blockStatement ELSE_IF ELSE =>
      visitIfStatement boolExpression statement blockStatement ELSE_IF ELSE
  | LoopIfStatement boolExpression loopStatements statement ELSE =>
      visitLoopIfStatement boolExpression loopStatements statement ELSE
  | BreakStatement => ret VBreak
  | LoopStatements child => visitLoopStatements child
  | LoopStatement children => visitChildren children
  | WhileLoop boolExpression loopStatements =>
      visitWhileLoop fuel boolExpression loopStatements
  | ForLoop forInit cond forUpdate forBody =>
      visitForLoop fuel forInit cond forUpdate forBody
  | ForInit children | ForUpdate children | ForBody children
  | StringExpression children => visitChildren children
  | Expression child => visitExpression child
  end.
End Methods.

(** [self.visit(tree)].  Every call of [self.visit] made while a node is
    being visited runs on a budget smaller by one; the result is
    [OutOfFuel] when the budget does not cover the run. *)
Fixpoint visit {rt : Runtime} (fuel : nat) (t : tree) : M value :=
  match fuel with
  | O => out_of_fuel
  | S n => accept (visit n) n t
  end.

(** [Interpreter(debug).visit(program)] *)
Definition run {rt : Runtime} (fuel : nat) (debug : bool) (program : tree)
    : outcome value * Interpreter :=
  visit fuel program (init debug).

(** A runtime for closed examples: strings are read as sequences of ASCII
    characters; the other primitives answer with a fixed value, and no
    example below depends on them. *)
Definition plain_runtime : Runtime := {|
  repr_float := λ _, "<float>";
  repr_str := λ s, "'" +:+ s +:+ "'";
  repr_object := "<BreakStatement object>";
  float_of_str := λ _, None;
  str_chars := λ s, (λ c, String c EmptyString) <$> list_ascii_of_string s;
  str_percent := λ _ _, err TypeError;
  math_pow := λ _ _, err ValueError;
  math_sin := λ _, err ValueError;
  math_cos := λ _, err ValueError;
  math_tan := λ _, err ValueError
|}.

(* ===================================================================== *)
(** * Invariants of a run                                                 *)
(* ===================================================================== *)

(** [i'] is a later state of [i]: every [Scope] object of [i] is still
    there with the same [parent] (objects are never discarded and [parent]
    is never assigned after creation), and [self.memory] is still empty if
    it was. *)
Definition ext (i i' : Interpreter) : Prop :=
  (∀ r s, scopes i !! r = Some s →
          ∃ s', scopes i' !! r = Some s' ∧ Scope.parent s' = Scope.parent s)
  ∧ (memory i = ∅ → memory i' = ∅).

(** A computation that leaves a later state and, when it ends with a
    value, the current scope it started in. *)
Definition balanced {A} (m : M A) : Prop :=
  ∀ i o i', m i = (o, i') →
    ext i i' ∧ (∀ a, o = Done a → current_scope i' = current_scope i).

(** The current scope of [i] is a scope whose parent is [c]. *)
Definition pushed_from (c : nat) (i : Interpreter) : Prop :=
  ∃ s, scopes i !! current_scope i = Some s ∧ Scope.parent s = Some c.

(** The state after [push_env]. *)
Definition pushed (i : Interpreter) : Interpreter :=
  set_current_scope (length (scopes i))
    (set_scopes (scopes i ++ [Scope.new (Some (current_scope i))]) i).


(* ===================================================================== *)
(** * Notions used to state the properties                                *)
(* ===================================================================== *)

(** ** The step budget *)

(** Whenever [m1] ends with an answer, [m2] ends with the same answer in
    the same state. *)
Definition refines {A} (m1 m2 : M A) : Prop :=
  ∀ i o i', m1 i = (o, i') → o ≠ OutOfFuel → m2 i = (o, i').

(** ** Reachable states *)

(** What every state of a run satisfies: a parent was created before its
    children, and the current scope and the defining scope of every
    function are objects of the store. *)
Definition inv (i : Interpreter) : Prop :=
  Scope.wf (scopes i) = true
  ∧ (current_scope i < length (scopes i))%nat
  ∧ (∀ name f, functions i !! name = Some f →
               (scope f < length (scopes i))%nat).

Definition preserves {A} (m : M A) : Prop :=
  ∀ i o i', inv i → m i = (o, i') → inv i'.

(** A computation that, from a well-formed state, never ends on a scope
    reference that is not in the store. *)
Definition safe {A} (m : M A) : Prop :=
  ∀ i o i', inv i → m i = (o, i') → o ≠ Stuck.

(** ** Calls *)

(** The scope of a call once the parameters are bound:
    [for pname, arg in zip(param_names, args):
       local_scope.set_variable(pname, arg, is_param=True)]. *)
Definition bind_parameters (param_names : list string) (args : list value)
    (local_scope : Scope.t) : Scope.t :=
  fold_left (λ s '(pname, arg), Scope.set_variable pname arg true s)
            (zip param_names args) local_scope.

(** The state in which the body of a call of [name] is visited. *)
Definition call_entry (name : string) (func : Function) (args : list value)
    (i : Interpreter) : Interpreter :=
  set_skip_next_block_scope true
    (set_call_stack
       (call_stack i ++ [{| frame_name := name;
                            frame_params := params func;
                            frame_scope := length (scopes i) |}])
       (set_current_scope (length (scopes i))
          (set_scopes
             (scopes i ++
              [bind_parameters (params func) args
                 (Scope.new (Some (scope func)))]) i))).

(** The state after the [finally] clause of a call. *)
Definition call_exit (previous_scope : nat) (i : Interpreter)
    : Interpreter :=
  set_current_scope previous_scope
    (set_call_stack (removelast (call_stack i)) i).

(** ** Loops *)

(** The statements of a loop body visited in order up to the first one
    that yields a result other than [None]; [Some r] is that result. *)
Fixpoint first_result (visit : tree → M value) (statements : list tree)
    : M (option value) :=
  match statements with
  | [] => ret None
  | stmt :: rest =>
      r ← visit stmt;
      if is_None r then first_result visit rest else ret (Some r)
  end.

(** ** Explicit-parent targets *)

(** [name] is bound in the scope object [r]. *)
Definition binds (σ : Scope.store) (name : string) (r : nat) : bool :=
  match σ !! r with
  | Some s => Scope.has_variable name s
  | None => false
  end.

(** The scopes from the current one up to, and not including, the one
    [levels] parents up. *)
Definition scopes_below_target (σ : Scope.store) (current levels : nat)
    : list nat :=
  take levels (Scope.chain (S current) σ current).

(** The scopes strictly between the current one and the one [levels]
    parents up. *)
Definition scopes_strictly_between (σ : Scope.store) (current levels : nat)
    : list nat :=
  drop 1 (scopes_below_target σ current levels).

(** The state after [scope.set_variable(name, value)] on the object [r],
    which is [s] before the call. *)
Definition written (r : nat) (s : Scope.t) (name : string) (v : value)
    (i : Interpreter) : Interpreter :=
  set_scopes (<[r := Scope.set_variable name v false s]> (scopes i)) i.

(** ** Matrices *)

(** A matrix of [rows] rows and [cols] columns. *)
Definition matrix_of_shape (rows cols : nat) (m : list (list value))
    : Prop :=
  length m = rows ∧ Forall (λ row, length row = cols) m.

Definition matrix_value (m : list (list value)) : value :=
  VList (VList <$> m).

(** The inverse as the specification writes it, with the operators of the
    language: [det = a*d - b*c], a fault when [det == 0], and otherwise
    [[d/det, -b/det], [-c/det, a/det]]. *)
Definition closed_form_inverse (a b c d : value) : res value :=
  res_bind (py_mul a d) (λ ad,
  res_bind (py_mul b c) (λ bc,
  res_bind (py_sub ad bc) (λ det,
  if py_eq det (VInt 0) then err (Exception_ "Matrix is not invertible")
  else
    res_bind (py_truediv d det) (λ i00,
    res_bind (res_bind (py_neg b) (λ nb, py_truediv nb det)) (λ i01,
    res_bind (res_bind (py_neg c) (λ nc, py_truediv nc det)) (λ i10,
    res_bind (py_truediv a det) (λ i11,
    ok (VList [VList [i00; i01]; VList [i10; i11]])))))))).

(** ** Programs used as examples

    The comments write each program in a concrete syntax that follows the
    messages of the interpreter ([Set] for a declaration, [parent::] for
    one level up); the grammar itself is not part of [src/]. *)

(** The literal [n] *)
Definition number (n : N) : tree :=
  FactorNumber {| digits := n; scale := None |}.

(** The literal whose digits are those of [n], the last [k] of them after
    the decimal point *)
Definition decimal (n : N) (k : nat) : tree :=
  FactorNumber {| digits := n; scale := Some k |}.

(** An expression that is a single factor. *)
Definition expr (factor : tree) : tree :=
  Expression (NumExpression1 (Term1 factor)).

(** The variable [x] as an expression *)
Definition var (x : string) : tree := expr (FactorIdentifier x).

(** [x + 1] *)
Definition succ_of (x : string) : tree :=
  Expression (NumExpression3 (NumExpression1 (Term1 (FactorIdentifier x)))
                "+" (Term1 (number 1))).
(** [x op n] as a condition *)
Definition compare_with (x op : string) (n : N) : tree :=
  BoolExpression
    [NumComparison (NumExpression1 (Term1 (FactorIdentifier x))) op
                   (NumExpression1 (Term1 (number n)))].
(** [Set x = e] *)
Definition declaration (x : string) (e : tree) : tree :=
  VariableDeclarationOrAssignment true None x None e OtherContext.

(** [x = e] *)
Definition assignment (x : string) (e : tree) : tree :=
  VariableDeclarationOrAssignment false None x None e OtherContext.

(** [display e1 e2 ...] *)
Definition display (es : list tree) : tree :=
  Statement (DisplayStatement es).

(** [Set x = 1
     { function f() { return x }   x = 5 }
     function g(x) { return f() }
     display f()
     display g(99)] *)
Definition closure_program : tree :=
  Program [
    Statement (declaration "x" (expr (number 1)));
    Statement (BlockStatement [
      Statement (FunctionDeclaration "f" None
                   (BlockStatement [Statement (ReturnStatement (var "x"))]));
      Statement (assignment "x" (expr (number 5)))]);
    Statement (FunctionDeclaration "g" (Some ["x"])
                 (BlockStatement
                    [Statement (ReturnStatement
                                  (Expression (FunctionCall "f" None)))]));
    display [Expression (FunctionCall "f" None)];
    display [Expression (FunctionCall "g" (Some [expr (number 99)]))]
  ].

(** [break] as a statement of a loop body *)
Definition break_statement : tree :=
  LoopStatements (LoopStatement [BreakStatement]).

(** [if (x >= n) break] as a statement of a loop body *)
Definition break_when (x : string) (n : N) : tree :=
  LoopStatements
    (LoopStatement
       [LoopIfStatement [compare_with x ">=" n] [break_statement] [] false]).

(** [Set i = 0  Set j = 0  Set n = 0
     while (i < 3) {
       i = i + 1   j = 0
       if (true) while (j < 10) { j = j + 1  n = n + 1  if (j >= 2) break }
     }
     display i j n] *)
Definition nested_while_program : tree :=
  Program [
    Statement (declaration "i" (expr (number 0)));
    Statement (declaration "j" (expr (number 0)));
    Statement (declaration "n" (expr (number 0)));
    Statement (WhileLoop (compare_with "i" "<" 3) [
      LoopStatements (assignment "i" (succ_of "i"));
      LoopStatements (assignment "j" (expr (number 0)));
      LoopStatements
        (IfStatement [BoolExpression [TrueLiteral]]
           [Statement (WhileLoop (compare_with "j" "<" 10) [
              LoopStatements (assignment "j" (succ_of "j"));
              LoopStatements (assignment "n" (succ_of "n"));
              break_when "j" 2])]
           [] 0 false)]);
    display [var "i"; var "j"; var "n"]
  ].

(** [Set i = 0   while (i < 3) { i = i + 1   { break } }   display i] *)
Definition break_in_block_program : tree :=
  Program [
    Statement (declaration "i" (expr (number 0)));
    Statement (WhileLoop (compare_with "i" "<" 3) [
      LoopStatements (assignment "i" (succ_of "i"));
      LoopStatements
        (BlockStatement [Statement (LoopStatement [BreakStatement])])]);
    display [var "i"]
  ].

(** [function g() { return 5 }   function f() { g() }] *)
Definition last_statement_program : tree :=
  Program [
    Statement (FunctionDeclaration "g" None
                 (BlockStatement
                    [Statement (ReturnStatement (expr (number 5)))]));
    Statement (FunctionDeclaration "f" None
                 (BlockStatement [Statement (FunctionCall "g" None)]))
  ].

(** [Set x = 2.0   Set y = 1   y = 2.0] *)
Definition narrowing_program : tree :=
  Program [
    Statement (declaration "x" (expr (decimal 20 1)));
    Statement (declaration "y" (expr (number 1)));
    Statement (assignment "y" (expr (decimal 20 1)))
  ].

(** [Set x = 1   x++] *)
Definition increment_program : tree :=
  Program [
    Statement (declaration "x" (expr (number 1)));
    Statement (Operation "x" true false)
  ].

(** [Set x = 0   { Set x = 1   Set parent::x = 2 }] *)
Definition shadow_program : tree :=
  Program [
    Statement (declaration "x" (expr (number 0)));
    Statement (BlockStatement [
      Statement (declaration "x" (expr (number 1)));
      Statement (VariableDeclarationOrAssignment true (Some "parent::x") ""
                   None (expr (number 2)) OtherContext)])
  ].

(** The variables of the scope object [r]. *)
Definition variables_of (i : Interpreter) (r : nat) : gmap string value :=
  match scopes i !! r with
  | Some s => Scope.variables s
  | None => ∅
  end.

(** The state after the declarations of [last_statement_program]. *)
Definition last_statement_state : Interpreter :=
  snd (run (rt := plain_runtime) 10 false last_statement_program).

(** The state after [closure_program]. *)
Definition closure_state : Interpreter :=
  snd (run (rt := plain_runtime) 30 false closure_program).

(** [Set x = 0   { Set x = 1   { Set x = 2 } }] *)
Definition three_scopes_program : tree :=
  Program [
    Statement (declaration "x" (expr (number 0)));
    Statement (BlockStatement [
      Statement (declaration "x" (expr (number 1)));
      Statement (BlockStatement [
        Statement (declaration "x" (expr (number 2)))])])
  ].

(** The three scopes of [three_scopes_program], seen from the innermost
    one. *)
Definition innermost_state : Interpreter :=
  set_current_scope 2
    (snd (run (rt := plain_runtime) 20 false three_scopes_program)).

(** The state after the two declarations of [narrowing_program]. *)
Definition narrowing_declared_state : Interpreter :=
  snd (visit (rt := plain_runtime) 20
         (Program [
            Statement (declaration "x" (expr (decimal 20 1)));
            Statement (declaration "y" (expr (number 1)))])
         (init false)).

(** The state after the declaration of [increment_program]. *)
Definition increment_declared_state : Interpreter :=
  snd (visit (rt := plain_runtime) 20
         (Program [Statement (declaration "x" (expr (number 1)))])
         (init false)).

(* ===================================================================== *)
(** * Notions used to state further properties                           *)
(* ===================================================================== *)

(** ** What every visit keeps *)

(** [i'] is a later state of [i] in the stronger sense that, besides
    [ext], every [Scope] object created since [i] has a parent, and the
    attributes that no method assigns or that only grow are as follows:
    [global_scope], [variables] and [debug] are unchanged, the call stack
    is the same, [output_lines] and the printed lines only got longer, and
    every function of [i] is still there with the same entry. *)
Definition extends (i i' : Interpreter) : Prop :=
  ext i i'
  ∧ (∀ r s, scopes i' !! r = Some s → (length (scopes i) ≤ r)%nat →
            is_Some (Scope.parent s))
  ∧ global_scope i' = global_scope i
  ∧ variables i' = variables i
  ∧ debug i' = debug i
  ∧ call_stack i' = call_stack i
  ∧ output_lines i `prefix_of` output_lines i'
  ∧ stdout i `prefix_of` stdout i'
  ∧ functions i ⊆ functions i'.

(** A computation whose every end, with a value or not, is such a later
    state. *)
Definition extending {A} (m : M A) : Prop :=
  ∀ i o i', m i = (o, i') → extends i i'.

(** The global scope is the first object of the store, it has no parent,
    and it is the only scope without one. *)
Definition rooted (i : Interpreter) : Prop :=
  global_scope i = 0%nat
  ∧ (∃ g, scopes i !! 0%nat = Some g ∧ Scope.parent g = None)
  ∧ (∀ r s, scopes i !! r = Some s → (0 < r)%nat → is_Some (Scope.parent s)).

(** ** Scopes and scoped names *)

(** [name] is a parameter of the scope object [r]. *)
Definition is_parameter_of (σ : Scope.store) (name : string) (r : nat)
    : bool :=
  match σ !! r with
  | Some s => bool_decide (name ∈ Scope.parameters s)
  | None => false
  end.

(** The text of a name reached through [levels] explicit parents. *)
Fixpoint scoped_text (levels : nat) (name : string) : string :=
  match levels with
  | O => name
  | S l => "parent::" +:+ scoped_text l name
  end.

(** No character of [s] is a colon. *)
Definition colon_free (s : string) : bool :=
  forallb (λ c, negb (Ascii.eqb c ":")) (list_ascii_of_string s).

(** ** Methods that no visitor method calls *)

(** [Interpreter.set_var]: the walk starts at the global scope, and the
    name is bound in the global scope when the walk finds no binding. *)
Definition set_var (name : string) (value : value) : M unit :=
  g ← gets global_scope;
  σ ← gets scopes;
  found ← lift_store (Scope.nearest_binding (S g) σ g name);
  match found with
  | Some scope => scope_set_variable scope name value false
  | None => scope_set_variable g name value false
  end.

(** [Interpreter.get_var] *)
Definition get_var (name : string) : M value :=
  c ← gets current_scope;
  scope_get_variable c name.

(** ** Operators and matrices *)


(** The entry of row [i] and column [j] of a matrix. *)
Definition entry (m : list (list value)) (i j : nat) : value :=
  default VNone (m !! i ≫= λ row, row !! j).

(** The matrix whose rows are the columns of a matrix of [rows] rows and
    [cols] columns. *)
Definition transposed (rows cols : nat) (m : list (list value))
    : list (list value) :=
  (λ j, (λ i, entry m i j) <$> seq 0 rows) <$> seq 0 cols.

(** ** More programs and states used as examples *)

(** [function h() { { Set y = z } }] *)
Definition failing_call_program : tree :=
  Program
    [Statement
       (FunctionDeclaration "h" None
          (BlockStatement
             [Statement
                (BlockStatement
                   [Statement (declaration "y" (var "z"))])]))].

(** The state after [failing_call_program]. *)
Definition failing_call_state : Interpreter :=
  snd (run (rt := plain_runtime) 20 false failing_call_program).

(** The state in which the body of [f(p)] is visited when [f] is called
    with 7 from a new interpreter, once a block has been entered. *)
Definition block_in_call_state : Interpreter :=
  pushed (call_entry "f"
            {| params := ["p"%string]; body := BlockStatement []; scope := 0 |}
            [VInt 7] (init false)).

(* ===================================================================== *)
(** * Properties                                                          *)
(* ===================================================================== *)

Lemma ext_refl i : ext i i.
Proof. split; [intros r s Hr; eauto | auto]. Qed.

Lemma ext_trans i1 i2 i3 : ext i1 i2 → ext i2 i3 → ext i1 i3.
Proof.
  intros [H1 M1] [H2 M2]. split; [|auto].
  intros r s Hr. destruct (H1 r s Hr) as (s' & Hr' & Hp).
  destruct (H2 r s' Hr') as (s'' & Hr'' & Hp'').
  exists s''. split; [done | congruence].
Qed.

Lemma ext_same_store i i' :
  scopes i' = scopes i → memory i' = memory i → ext i i'.
Proof.
  intros Hs Hm. split; [|congruence].
  intros r s Hr. exists s. rewrite Hs. auto.
Qed.

Lemma ext_set_current_scope c i : ext i (set_current_scope c i).
Proof. by apply ext_same_store. Qed.

Lemma ext_pushed i : ext i (pushed i).
Proof.
  split; [|done]. intros r s Hr. exists s. split; [|done].
  cbn. by apply lookup_app_l_Some.
Qed.

Lemma pushed_from_pushed i : pushed_from (current_scope i) (pushed i).
Proof.
  exists (Scope.new (Some (current_scope i))). split; [|done].
  cbn. by rewrite lookup_app_r, Nat.sub_diag.
Qed.

Lemma pushed_from_ext c i i' :
  pushed_from c i → ext i i' → current_scope i' = current_scope i →
  pushed_from c i'.
Proof.
  intros (s & Hs & Hp) [He _] Hc. destruct (He _ _ Hs) as (s' & Hs' & Hp').
  exists s'. rewrite Hc. split; [done | congruence].
Qed.

Lemma bind_done {A B} (m : M A) (k : A → M B) i a i1 :
  m i = (Done a, i1) → bind m k i = k a i1.
Proof. unfold bind. by intros ->. Qed.

Lemma bind_not_done {A B} (m : M A) (k : A → M B) i o i1 :
  m i = (o, i1) → (∀ a, o ≠ Done a) →
  bind m k i = (match o with
                | Done _ => Stuck
                | Raised e => Raised e
                | OutOfFuel => OutOfFuel
                | Stuck => Stuck
                end, i1).
Proof.
  unfold bind. intros -> Ho. destruct o; [by destruct (Ho a) | done..].
Qed.

Section Balanced.
Context {A B : Type}.

Lemma balanced_ret (a : A) : balanced (ret a).
Proof. intros i o i' [= <- <-]. split; [apply ext_refl | auto]. Qed.

Lemma balanced_raise (e : exn) : balanced (raise (A := A) e).
Proof. intros i o i' [= <- <-]. split; [apply ext_refl | done]. Qed.

Lemma balanced_out_of_fuel : balanced (out_of_fuel (A := A)).
Proof. intros i o i' [= <- <-]. split; [apply ext_refl | done]. Qed.

Lemma balanced_stuck : balanced (stuck (A := A)).
Proof. intros i o i' [= <- <-]. split; [apply ext_refl | done]. Qed.

Lemma balanced_gets (f : Interpreter → A) : balanced (gets f).
Proof. intros i o i' [= <- <-]. split; [apply ext_refl | auto]. Qed.

Lemma balanced_lift (r : res A) : balanced (lift r).
Proof. destruct r; [apply balanced_raise | apply balanced_ret]. Qed.

Lemma balanced_lift_store (o : option A) : balanced (lift_store o).
Proof. destruct o; [apply balanced_ret | apply balanced_stuck]. Qed.

Lemma balanced_bind (m : M A) (k : A → M B) :
  balanced m → (∀ a, balanced (k a)) → balanced (bind m k).
Proof.
  intros Hm Hk i o i'. unfold bind.
  destruct (m i) as [[a| e | |] i1] eqn:E; destruct (Hm _ _ _ E) as [He Hc].
  - intros Hka. destruct (Hk a _ _ _ Hka) as [He' Hc']. split.
    + by eapply ext_trans.
    + intros b ->. rewrite (Hc' b eq_refl). by apply (Hc a).
  - intros [= <- <-]. by split.
  - intros [= <- <-]. by split.
  - intros [= <- <-]. by split.
Qed.
End Balanced.

Lemma balanced_modify (f : Interpreter → Interpreter) :
  (∀ i, scopes (f i) = scopes i) →
  (∀ i, memory (f i) = memory i) →
  (∀ i, current_scope (f i) = current_scope i) →
  balanced (modify f).
Proof.
  intros Hs Hm Hc i o i' [= <- <-]. split; [by apply ext_same_store | auto].
Qed.

Create HintDb balanced discriminated.

#[local] Hint Resolve balanced_ret balanced_raise balanced_out_of_fuel
  balanced_stuck balanced_gets balanced_lift balanced_lift_store : balanced.

Lemma balanced_for_each {A} (f : A → M unit) (l : list A) :
  (∀ x, balanced (f x)) → balanced (for_each f l).
Proof.
  intros Hf. induction l as [|x l IH]; cbn.
  - apply balanced_ret.
  - apply balanced_bind; auto.
Qed.

Lemma balanced_map_M {A B} (f : A → M B) (l : list A) :
  (∀ x, balanced (f x)) → balanced (map_M f l).
Proof.
  intros Hf. induction l as [|x l IH]; cbn.
  - apply balanced_ret.
  - apply balanced_bind; [auto|]. intros y.
    apply balanced_bind; [auto|]. intros ys. apply balanced_ret.
Qed.

Lemma balanced_deref r : balanced (deref r).
Proof.
  unfold deref. apply balanced_bind; [apply balanced_gets|].
  intros σ. apply balanced_lift_store.
Qed.

Lemma ext_insert_scope i r s s' :
  scopes i !! r = Some s → Scope.parent s' = Scope.parent s →
  ext i (set_scopes (<[r := s']> (scopes i)) i).
Proof.
  intros Hr Hp. split; [|done]. intros r0 s0 Hr0. cbn.
  destruct (decide (r = r0)) as [<-|Hne].
  - exists s'. rewrite list_lookup_insert_eq by (by eapply lookup_lt_Some).
    split; [done | congruence].
  - exists s0. by rewrite list_lookup_insert_ne.
Qed.

Lemma scope_set_variable_eq r name v p i :
  scope_set_variable r name v p i =
  match scopes i !! r with
  | Some s =>
      (Done tt,
       set_scopes (<[r := Scope.set_variable name v p s]> (scopes i)) i)
  | None => (Stuck, i)
  end.
Proof.
  unfold scope_set_variable, deref, bind, gets, lift_store, modify.
  by destruct (scopes i !! r).
Qed.

Lemma balanced_scope_set_variable r name v p :
  balanced (scope_set_variable r name v p).
Proof.
  intros i o i'. rewrite scope_set_variable_eq.
  destruct (scopes i !! r) as [s|] eqn:E; intros [= <- <-].
  - split; [|done]. by eapply ext_insert_scope.
  - split; [apply ext_refl | done].
Qed.

Lemma balanced_scope_has_variable r name :
  balanced (scope_has_variable r name).
Proof.
  unfold scope_has_variable. apply balanced_bind; [apply balanced_deref|].
  intros s. apply balanced_ret.
Qed.

Lemma balanced_scope_get_variable r name :
  balanced (scope_get_variable r name).
Proof.
  unfold scope_get_variable. apply balanced_bind; [apply balanced_gets|].
  intros σ. apply balanced_bind; [apply balanced_lift_store|].
  intros x. apply balanced_lift.
Qed.

Lemma balanced_scope_is_parameter r name :
  balanced (scope_is_parameter r name).
Proof.
  unfold scope_is_parameter. apply balanced_bind; [apply balanced_gets|].
  intros σ. apply balanced_lift_store.
Qed.

Lemma balanced_print line : balanced (print line).
Proof. by apply balanced_modify. Qed.

Lemma balanced_output_lines_append line :
  balanced (output_lines_append line).
Proof. by apply balanced_modify. Qed.

Lemma balanced_lookup_variable name : balanced (lookup_variable name).
Proof.
  unfold lookup_variable. apply balanced_bind; [apply balanced_gets|].
  intros c. apply balanced_scope_get_variable.
Qed.

Lemma new_scope_eq p i :
  new_scope p i =
  (Done (length (scopes i)), set_scopes (scopes i ++ [Scope.new p]) i).
Proof. reflexivity. Qed.

Lemma balanced_new_scope p : balanced (new_scope p).
Proof.
  intros i o i'. rewrite new_scope_eq. intros [= <- <-].
  split; [|done]. split; [|done]. intros r s Hr. exists s.
  split; [|done]. cbn. by apply lookup_app_l_Some.
Qed.

#[local] Hint Resolve balanced_deref balanced_scope_set_variable
  balanced_scope_has_variable balanced_scope_get_variable
  balanced_scope_is_parameter balanced_print balanced_output_lines_append
  balanced_lookup_variable balanced_new_scope : balanced.

(** One step of the proof that a method is balanced: split a sequence,
    case on a test, or close the goal with a known fact. *)
Ltac balanced_step :=
  match goal with
  | |- balanced (bind _ _) => apply balanced_bind; [| intros ?]
  | |- balanced (for_each _ _) => apply balanced_for_each; intros ?
  | |- balanced (map_M _ _) => apply balanced_map_M; intros ?
  | |- balanced (modify _) => by apply balanced_modify
  | |- balanced (if ?b then _ else _) => destruct b
  | |- balanced (match ?x with _ => _ end) => destruct x
  | |- balanced (let '(_, _) := ?x in _) => destruct x
  | H : ∀ t, balanced (?v t) |- balanced (?v _) => apply H
  | |- balanced _ => solve [auto with balanced]
  end.
Ltac balanced_tac := repeat balanced_step.

Section BalancedMethods.
Context {rt : Runtime}.
Variable visit : tree → M value.
Hypothesis balanced_visit : ∀ t, balanced (visit t).

Lemma balanced_visit_opt t : balanced (visit_opt visit t).
Proof. unfold visit_opt. balanced_tac. Qed.

Lemma balanced_visitChildren_from r children :
  balanced (visitChildren_from visit r children).
Proof.
  revert r. induction children as [|c cs IH]; intros r; cbn.
  - apply balanced_ret.
  - apply balanced_bind; auto.
Qed.

Lemma balanced_visitChildren children :
  balanced (visitChildren visit children).
Proof. apply balanced_visitChildren_from. Qed.

Lemma balanced_visitProgram statement :
  balanced (visitProgram visit statement).
Proof. unfold visitProgram. balanced_tac. Qed.

Lemma balanced_resolve_scope_for_assignment scoped_name :
  balanced (resolve_scope_for_assignment scoped_name).
Proof. unfold resolve_scope_for_assignment. balanced_tac. Qed.

Lemma balanced__variable_exists_in_child_scopes scope name :
  balanced (_variable_exists_in_child_scopes scope name).
Proof. unfold _variable_exists_in_child_scopes. balanced_tac. Qed.

Hint Resolve balanced_visit_opt balanced_visitChildren
  balanced_resolve_scope_for_assignment
  balanced__variable_exists_in_child_scopes : balanced.

Lemma balanced_visitVariableDeclarationOrAssignment SET scopedIdentifier
    identifier typeAnnotation expression parentCtx :
  balanced (visitVariableDeclarationOrAssignment visit SET scopedIdentifier
              identifier typeAnnotation expression parentCtx).
Proof. unfold visitVariableDeclarationOrAssignment. balanced_tac. Qed.

Lemma balanced_visitFunctionDeclaration name parameter blockStatement :
  balanced (visitFunctionDeclaration name parameter blockStatement).
Proof. unfold visitFunctionDeclaration. balanced_tac. Qed.

Lemma push_env_eq i : push_env i = (Done tt, pushed i).
Proof. reflexivity. Qed.

Lemma pop_env_pushed_from c i :
  pushed_from c i → pop_env i = (Done tt, set_current_scope c i).
Proof.
  intros (s & Hs & Hp).
  unfold pop_env, bind, gets, deref, lift_store. cbn.
  rewrite Hs. cbn. by rewrite Hp.
Qed.

(** [push_env(); m; pop_env()] around a balanced [m]. *)
Lemma balanced_bracket {A} (m : M A) (k : M value) :
  balanced m → balanced k →
  balanced (push_env ;; m ;; pop_env ;; k).
Proof.
  intros Hm Hk i o i'. unfold bind at 1. rewrite push_env_eq.
  unfold bind at 1.
  destruct (m (pushed i)) as [[a| e | |] i1] eqn:E;
    destruct (Hm _ _ _ E) as [He Hc];
    pose proof (ext_trans _ _ _ (ext_pushed i) He) as He0.
  - unfold bind at 1.
    rewrite (pop_env_pushed_from (current_scope i)).
    + intros Hki. destruct (Hk _ _ _ Hki) as [He' Hc']. split.
      * eapply ext_trans; [|exact He'].
        eapply ext_trans; [exact He0 | apply ext_set_current_scope].
      * intros b ->. by rewrite (Hc' b eq_refl).
    + eapply pushed_from_ext; [apply pushed_from_pushed | done |].
      by apply (Hc a).
  - intros [= <- <-]. by split.
  - intros [= <- <-]. by split.
  - intros [= <- <-]. by split.
Qed.

Lemma balanced_visitBlockStatement statement :
  balanced (visitBlockStatement visit statement).
Proof.
  unfold visitBlockStatement.
  apply balanced_bind; [apply balanced_gets|]. intros [|].
  - balanced_tac.
  - apply balanced_bracket; balanced_tac.
Qed.

Lemma balanced_call_protected previous_scope (m : M value) i o i' :
  (∀ j o' j', m j = (o', j') → ext j j') →
  call_protected previous_scope m i = (o, i') →
  ext i i' ∧ current_scope i' = previous_scope.
Proof.
  intros Hm. unfold call_protected.
  destruct (m i) as [o1 i1] eqn:E. pose proof (Hm _ _ _ E) as He.
  assert (ext i (set_current_scope previous_scope
                   (set_call_stack (removelast (call_stack i1)) i1))).
  { eapply ext_trans; [exact He|]. by apply ext_same_store. }
  destruct o1 as [a|[]| |]; intros [= <- <-]; by split.
Qed.

Lemma balanced_callFunction name args :
  balanced (callFunction visit name args).
Proof.
  unfold callFunction.
  apply balanced_bind; [apply balanced_gets|]. intros fs.
  destruct (fs !! name) as [func|]; [|apply balanced_raise].
  destruct (negb _); [apply balanced_raise|].
  intros i o i'. unfold bind at 1. rewrite new_scope_eq.
  set (i1 := set_scopes _ i). unfold bind at 1.
  destruct (for_each _ _ i1) as [[[]| e | |] i2] eqn:E.
  2-4: intros [= <- <-];
    assert (Hb : balanced (for_each (λ '(pname, arg),
                   scope_set_variable (length (scopes i)) pname arg true)
                   (zip (params func) args)))
      by (apply balanced_for_each; intros [? ?]; auto with balanced);
    destruct (Hb _ _ _ E) as [He _]; split; [|done];
    (eapply ext_trans; [|exact He]);
    by destruct (balanced_new_scope (Some (scope func)) i _ _ eq_refl).
  assert (Hb : balanced (for_each (λ '(pname, arg),
                 scope_set_variable (length (scopes i)) pname arg true)
                 (zip (params func) args)))
    by (apply balanced_for_each; intros [? ?]; auto with balanced).
  destruct (Hb _ _ _ E) as [He Hc]. specialize (Hc tt eq_refl).
  unfold bind at 1, gets at 1. unfold bind at 1, modify at 1.
  unfold bind at 1, modify at 1. intros Hcall.
  apply balanced_call_protected in Hcall as [He' Hc'].
  - split.
    + eapply ext_trans;
        [by destruct (balanced_new_scope (Some (scope func)) i _ _ eq_refl)|].
      eapply ext_trans; [exact He|].
      eapply ext_trans; [|exact He']. by apply ext_same_store.
    + intros _ _. rewrite Hc', Hc. done.
  - intros j o' j' Hj.
    assert (Hbody : balanced (modify (set_skip_next_block_scope true) ;;
                              visit (body func))) by balanced_tac.
    by destruct (Hbody _ _ _ Hj).
Qed.

Lemma balanced_visitFunctionCall name argumentList :
  balanced (visitFunctionCall visit name argumentList).
Proof.
  unfold visitFunctionCall.
  apply balanced_bind; [balanced_tac|]. intros args.
  apply balanced_callFunction.
Qed.

Lemma while_body_spec c loopStatements i o i' :
  pushed_from c i →
  while_body visit loopStatements i = (o, i') →
  ext i i' ∧
  match o with
  | Done (Some _) => current_scope i' = c
  | Done None => current_scope i' = current_scope i
  | _ => True
  end.
Proof.
  revert i. induction loopStatements as [|stmt rest IH]; intros i Hp; cbn.
  - intros [= <- <-]. split; [apply ext_refl | done].
  - unfold bind at 1.
    destruct (visit stmt i) as [[result| e | |] i1] eqn:E;
      destruct (balanced_visit _ _ _ _ E) as [He Hc].
    2-4: intros [= <- <-]; by split.
    specialize (Hc _ eq_refl).
    assert (Hp1 : pushed_from c i1) by by eapply pushed_from_ext.
    destruct (isinstance_BreakStatement result);
      [|destruct (negb (is_None result))].
    + unfold bind. rewrite (pop_env_pushed_from c) by done.
      intros [= <- <-]. split; [|done].
      eapply ext_trans; [exact He | apply ext_set_current_scope].
    + unfold bind. rewrite (pop_env_pushed_from c) by done.
      intros [= <- <-]. split; [|done].
      eapply ext_trans; [exact He | apply ext_set_current_scope].
    + intros Hrest. destruct (IH _ Hp1 Hrest) as [He' Hc']. split.
      * by eapply ext_trans.
      * destruct o as [[?|]| | |]; [done | congruence | done..].
Qed.

Lemma balanced_visitWhileLoop fuel boolExpression loopStatements :
  balanced (visitWhileLoop visit fuel boolExpression loopStatements).
Proof.
  induction fuel as [|n IH]; cbn; [apply balanced_out_of_fuel|].
  apply balanced_bind; [apply balanced_visit|]. intros c.
  destruct (truthy c); [|apply balanced_ret].
  intros i o i'. unfold bind at 1. rewrite push_env_eq.
  unfold bind at 1.
  destruct (while_body _ _ (pushed i)) as [[r| e | |] i1] eqn:E;
    destruct (while_body_spec (current_scope i) _ _ _ _
                (pushed_from_pushed i) E) as [He Hc];
    pose proof (ext_trans _ _ _ (ext_pushed i) He) as He0.
  2-4: intros [= <- <-]; by split.
  destruct r as [result|].
  - intros [= <- <-]. split; [done|]. by intros _ _.
  - unfold bind at 1. rewrite (pop_env_pushed_from (current_scope i)).
    + intros Hloop. destruct (IH _ _ _ Hloop) as [He' Hc']. split.
      * eapply ext_trans; [|exact He'].
        eapply ext_trans; [exact He0 | apply ext_set_current_scope].
      * intros a ->. by rewrite (Hc' a eq_refl).
    + eapply pushed_from_ext; [apply pushed_from_pushed | done | done].
Qed.

Lemma balanced_for_loop fuel cond forUpdate forBody :
  balanced (for_loop visit fuel cond forUpdate forBody).
Proof.
  induction fuel as [|n IH]; cbn; [apply balanced_out_of_fuel|].
  apply balanced_bind; [apply balanced_visit|]. intros c.
  destruct (truthy c); [|apply balanced_ret].
  intros i o i'. unfold bind at 1. rewrite push_env_eq.
  unfold bind at 1.
  destruct (visit_opt visit forBody (pushed i)) as [[r| e | |] i1] eqn:E;
    destruct (balanced_visit_opt _ _ _ _ E) as [He Hc];
    pose proof (ext_trans _ _ _ (ext_pushed i) He) as He0.
  2-4: intros [= <- <-]; by split.
  specialize (Hc _ eq_refl).
  assert (Hpop : pop_env i1 = (Done tt, set_current_scope (current_scope i) i1)).
  { apply pop_env_pushed_from.
    eapply pushed_from_ext; [apply pushed_from_pushed | done | done]. }
  assert (He1 : ext i (set_current_scope (current_scope i) i1)).
  { eapply ext_trans; [exact He0 | apply ext_set_current_scope]. }
  destruct (isinstance_BreakStatement r).
  - unfold bind. rewrite Hpop. intros [= <- <-]. split; [done|]. by intros.
  - unfold bind at 1. rewrite Hpop. intros Hrest.
    assert (Hb : balanced (c' ← visit cond;
              (if truthy c' then visit_opt visit forUpdate ;; ret tt
               else ret tt) ;;
              for_loop visit n cond forUpdate forBody)).
    { balanced_tac. }
    destruct (Hb _ _ _ Hrest) as [He' Hc']. split.
    + by eapply ext_trans.
    + intros a ->. by rewrite (Hc' a eq_refl).
Qed.

Lemma balanced_visitForLoop fuel forInit cond forUpdate forBody :
  balanced (visitForLoop visit fuel forInit cond forUpdate forBody).
Proof.
  unfold visitForLoop. apply balanced_bind; [balanced_tac|].
  intros _. apply balanced_for_loop.
Qed.

Lemma balanced_visitOperation var_name INCREMENT DECREMENT :
  balanced (visitOperation var_name INCREMENT DECREMENT).
Proof.
  intros i o i' Hrun.
  assert (Hcur : current_scope i' = current_scope i ∧ scopes i' = scopes i
                 ∧ (memory i = ∅ → i' = i)).
  { revert Hrun. unfold visitOperation, bind at 1, gets at 1.
    destruct (memory i !! var_name) as [current_value|] eqn:E.
    - assert (memory i ≠ ∅) by (intros Hm; by rewrite Hm in E).
      destruct (negb _); [by intros [= <- <-]|].
      unfold bind at 1.
      destruct INCREMENT; [|destruct DECREMENT].
      + unfold bind at 1.
        destruct (py_add _ _) as [e|v]; cbn; [by intros [= <- <-]|].
        unfold bind, gets, modify; cbn.
        destruct (<[var_name:=v]> (memory i) !! var_name);
          by intros [= <- <-].
      + unfold bind at 1.
        destruct (py_sub _ _) as [e|v]; cbn; [by intros [= <- <-]|].
        unfold bind, gets, modify; cbn.
        destruct (<[var_name:=v]> (memory i) !! var_name);
          by intros [= <- <-].
      + unfold bind, gets, ret; cbn. rewrite E. by intros [= <- <-].
    - by intros [= <- <-]. }
  destruct Hcur as (Hc & Hs & Hm). split; [|done].
  split.
  - intros r s Hr. exists s. by rewrite Hs.
  - intros Hempty. by rewrite (Hm Hempty).
Qed.

Hint Resolve balanced_visitVariableDeclarationOrAssignment
  balanced_visitFunctionDeclaration balanced_visitBlockStatement
  balanced_callFunction balanced_visitFunctionCall
  balanced_visitWhileLoop balanced_visitForLoop balanced_visitOperation
  balanced_visitProgram : balanced.

Lemma balanced_visitLogicOr boolAndExpression :
  balanced (visitLogicOr visit boolAndExpression).
Proof. induction boolAndExpression; cbn; balanced_tac. Qed.

Lemma balanced_visitLogicAnd boolNotExpression :
  balanced (visitLogicAnd visit boolNotExpression).
Proof. induction boolNotExpression; cbn; balanced_tac. Qed.

Lemma balanced_branches boolExpression body1 body2 indices otherwise :
  balanced otherwise →
  balanced (branches visit boolExpression body1 body2 indices otherwise).
Proof. intros Ho. induction indices; cbn; balanced_tac. Qed.

Hint Resolve balanced_visitLogicOr balanced_visitLogicAnd
  balanced_branches : balanced.

Lemma balanced_accept fuel t : balanced (accept visit fuel t).
Proof.
  destruct t; cbn [accept]; try solve [auto with balanced].
  - unfold visitStatement. balanced_tac.
  - unfold visitBuiltInFunctions. balanced_tac.
  - unfold visitIdentifier. balanced_tac.
  - unfold visitScopedIdentifier. balanced_tac.
  - unfold visitReturnStatement. balanced_tac.
  - unfold visitReassignment. balanced_tac.
  - unfold visitDisplayStatement. balanced_tac.
  - unfold visitNumExpression3. balanced_tac.
  - unfold visitTerm3. balanced_tac.
  - unfold visitUnaryPlus. balanced_tac.
  - unfold visitUnaryMinus. balanced_tac.
  - unfold visitFactorNumber. balanced_tac.
  - unfold visitFactorString. balanced_tac.
  - unfold visitCastExpression. balanced_tac.
  - unfold visitNumComparison. balanced_tac.
  - unfold visitEqualityComparison. balanced_tac.
  - unfold visitEqualityComparison. balanced_tac.
  - unfold visitMatrixExpression. balanced_tac.
  - unfold visitMatrixAtom. balanced_tac.
  - unfold visitMatrixConstruction. balanced_tac.
  - unfold visitValueNumber. balanced_tac.
  - unfold visitValueIdentifier. balanced_tac.
  - unfold visitLogicNot. balanced_tac.
  - unfold visitLogicIdentifier. balanced_tac.
  - unfold visitIfStatement. apply balanced_branches. balanced_tac.
  - unfold visitLoopIfStatement. apply balanced_branches. balanced_tac.
  - unfold visitLoopStatements. balanced_tac.
  - unfold visitExpression. balanced_tac.
Qed.
End BalancedMethods.

(** Every visit leaves a later state and, when it ends with a value, the
    current scope it started in. *)
Lemma balanced_visit {rt : Runtime} fuel t : balanced (visit fuel t).
Proof.
  revert t. induction fuel as [|n IH]; intros t; cbn [visit].
  - apply balanced_out_of_fuel.
  - by apply balanced_accept.
Qed.

(** ** A larger budget gives the same answer *)

Lemma refines_refl {A} (m : M A) : refines m m.
Proof. by intros i o i' ? ?. Qed.

Lemma refines_bind {A B} (m1 m2 : M A) (k1 k2 : A → M B) :
  refines m1 m2 → (∀ a, refines (k1 a) (k2 a)) →
  refines (bind m1 k1) (bind m2 k2).
Proof.
  intros Hm Hk i o i'. unfold bind.
  destruct (m1 i) as [[a| e | |] i1] eqn:E.
  - rewrite (Hm _ _ _ E) by done. apply Hk.
  - rewrite (Hm _ _ _ E) by done. done.
  - by intros [= <- <-].
  - rewrite (Hm _ _ _ E) by done. done.
Qed.

Lemma refines_for_each {A} (f1 f2 : A → M unit) (l : list A) :
  (∀ x, refines (f1 x) (f2 x)) → refines (for_each f1 l) (for_each f2 l).
Proof.
  intros Hf. induction l as [|x l IH]; cbn; [apply refines_refl|].
  apply refines_bind; auto.
Qed.

Lemma refines_map_M {A B} (f1 f2 : A → M B) (l : list A) :
  (∀ x, refines (f1 x) (f2 x)) → refines (map_M f1 l) (map_M f2 l).
Proof.
  intros Hf. induction l as [|x l IH]; cbn; [apply refines_refl|].
  apply refines_bind; [auto|]. intros y.
  apply refines_bind; [auto|]. intros ys. apply refines_refl.
Qed.

Lemma refines_call_protected previous_scope (m1 m2 : M value) :
  refines m1 m2 →
  refines (call_protected previous_scope m1)
          (call_protected previous_scope m2).
Proof.
  intros Hm i o i'. unfold call_protected.
  destruct (m1 i) as [o1 i1] eqn:E.
  destruct o1 as [a|e| |]; try destruct e; intros [= <- <-] Ho;
    by rewrite (Hm _ _ _ E).
Qed.

(** One step of a proof of [refines] between two runs of the same method
    on two visits. *)
Ltac refines_step :=
  match goal with
  | |- refines ?m ?m => apply refines_refl
  | |- refines (bind _ _) (bind _ _) => apply refines_bind; [| intros ?]
  | |- refines (for_each _ _) (for_each _ _) =>
      apply refines_for_each; intros ?
  | |- refines (map_M _ _) (map_M _ _) => apply refines_map_M; intros ?
  | |- refines (call_protected _ _) (call_protected _ _) =>
      apply refines_call_protected
  | |- refines (if ?b then _ else _) _ => destruct b
  | |- refines (match ?x with _ => _ end) _ => destruct x
  | H : ∀ t, refines (?v1 t) (?v2 t) |- refines (?v1 _) (?v2 _) => apply H
  end.
Ltac refines_tac := repeat refines_step.

Section RefinesMethods.
Context {rt : Runtime}.
Variables visit1 visit2 : tree → M value.
Hypothesis refines_visit : ∀ t, refines (visit1 t) (visit2 t).

Lemma refines_visitChildren_from r children :
  refines (visitChildren_from visit1 r children)
          (visitChildren_from visit2 r children).
Proof.
  revert r. induction children as [|c cs IH]; intros r; cbn.
  - apply refines_refl.
  - apply refines_bind; auto.
Qed.

Lemma refines_visitLogicOr l :
  refines (visitLogicOr visit1 l) (visitLogicOr visit2 l).
Proof. induction l; cbn; refines_tac; auto. Qed.

Lemma refines_visitLogicAnd l :
  refines (visitLogicAnd visit1 l) (visitLogicAnd visit2 l).
Proof. induction l; cbn; refines_tac; auto. Qed.

Lemma refines_branches boolExpression body1 body2 indices o1 o2 :
  refines o1 o2 →
  refines (branches visit1 boolExpression body1 body2 indices o1)
          (branches visit2 boolExpression body1 body2 indices o2).
Proof.
  intros Ho. induction indices; cbn; [done|]. unfold visit_opt.
  refines_tac; auto.
Qed.

Lemma refines_while_body loopStatements :
  refines (while_body visit1 loopStatements)
          (while_body visit2 loopStatements).
Proof. induction loopStatements; cbn; refines_tac; auto. Qed.

Lemma refines_visitWhileLoop n n' boolExpression loopStatements :
  (n ≤ n')%nat →
  refines (visitWhileLoop visit1 n boolExpression loopStatements)
          (visitWhileLoop visit2 n' boolExpression loopStatements).
Proof.
  revert n'. induction n as [|n IH]; intros n' Hle.
  - by intros i o i' [= <- <-].
  - destruct n' as [|n']; [lia|]. cbn.
    apply refines_bind; [auto|]. intros c. destruct (truthy c);
      [|apply refines_refl].
    apply refines_bind; [apply refines_refl|]. intros _.
    apply refines_bind; [apply refines_while_body|]. intros [r|];
      [apply refines_refl|].
    apply refines_bind; [apply refines_refl|]. intros _. apply IH. lia.
Qed.

Lemma refines_for_loop n n' cond forUpdate forBody :
  (n ≤ n')%nat →
  refines (for_loop visit1 n cond forUpdate forBody)
          (for_loop visit2 n' cond forUpdate forBody).
Proof.
  revert n'. induction n as [|n IH]; intros n' Hle.
  - by intros i o i' [= <- <-].
  - destruct n' as [|n']; [lia|]. cbn. unfold visit_opt.
    refines_tac; auto; apply IH; lia.
Qed.

Lemma refines_accept n n' t :
  (n ≤ n')%nat → refines (accept visit1 n t) (accept visit2 n' t).
Proof.
  intros Hle. destruct t; cbn [accept]; try apply refines_refl;
    try apply refines_visit.
  - unfold visitProgram. refines_tac.
  - unfold visitStatement. refines_tac.
  - unfold visitVariableDeclarationOrAssignment. refines_tac.
  - unfold visitFunctionCall, callFunction. refines_tac.
  - unfold visitBuiltInFunctions, visit_opt. refines_tac.
  - unfold visitBlockStatement. refines_tac.
  - unfold visitReturnStatement. refines_tac.
  - unfold visitReassignment. refines_tac.
  - unfold visitDisplayStatement. refines_tac.
  - unfold visitNumExpression3. refines_tac.
  - unfold visitTerm3. refines_tac.
  - unfold visitUnaryPlus. refines_tac.
  - unfold visitUnaryMinus. refines_tac.
  - unfold visitCastExpression. refines_tac.
  - unfold visitNumComparison. refines_tac.
  - unfold visitEqualityComparison. refines_tac.
  - unfold visitEqualityComparison. refines_tac.
  - unfold visitMatrixExpression. refines_tac.
  - unfold visitMatrixAtom. refines_tac.
  - unfold visitMatrixConstruction. refines_tac.
  - apply refines_visitChildren_from.
  - apply refines_visitLogicOr.
  - apply refines_visitLogicAnd.
  - unfold visitLogicNot. refines_tac.
  - unfold visitIfStatement. apply refines_branches. refines_tac.
  - unfold visitLoopIfStatement. apply refines_branches. refines_tac.
  - unfold visitLoopStatements. refines_tac.
  - apply refines_visitChildren_from.
  - by apply refines_visitWhileLoop.
  - unfold visitForLoop. apply refines_bind; [refines_tac|].
    intros _. by apply refines_for_loop.
  - apply refines_visitChildren_from.
  - apply refines_visitChildren_from.
  - apply refines_visitChildren_from.
  - apply refines_visitChildren_from.
  - unfold visitExpression. refines_tac.
Qed.
End RefinesMethods.

(** A visit that ends within a budget ends in the same way within any
    larger budget. *)
Lemma visit_fuel_mono {rt : Runtime} n n' t :
  (n ≤ n')%nat → refines (visit n t) (visit n' t).
Proof.
  revert n' t. induction n as [|n IH]; intros n' t Hle.
  - by intros i o i' [= <- <-].
  - destruct n' as [|n']; [lia|]. cbn [visit].
    apply refines_accept; [|lia]. intros t'. apply IH. lia.
Qed.

(** ** Blocks *)

Lemma for_each_discards_results (v : tree → M value) (l : list tree) i :
  for_each (λ stmt, v stmt ;; ret tt) l i =
  match map_M v l i with
  | (Done _, i') => (Done tt, i')
  | (Raised e, i') => (Raised e, i')
  | (OutOfFuel, i') => (OutOfFuel, i')
  | (Stuck, i') => (Stuck, i')
  end.
Proof.
  revert i. induction l as [|stmt l IH]; intros i; cbn; [done|].
  unfold bind at 1 2 4. destruct (v stmt i) as [[r| e | |] i1]; cbn; try done.
  rewrite IH. unfold bind. by destruct (map_M v l i1) as [[rs| e | |] i2].
Qed.

Lemma visitBlockStatement_done (v : tree → M value) statement i
    r i' :
  visitBlockStatement v statement i = (Done r, i') → r = VNone.
Proof.
  unfold visitBlockStatement, bind at 1, gets at 1.
  destruct (skip_next_block_scope i).
  - unfold bind at 1, modify at 1. unfold bind at 1.
    destruct (for_each _ _ _) as [[[]| e | |] i1]; unfold ret;
      by intros [= <- <-].
  - unfold bind at 1. rewrite push_env_eq. unfold bind at 1.
    destruct (for_each _ _ _) as [[[]| e | |] i1]; [|by intros [= <- <-]..].
    unfold bind at 1. destruct (pop_env i1) as [[[]| e | |] i2];
      unfold ret; by intros [= <- <-].
Qed.

(** C10.  A block visited on the path that pushes a scope yields [None]
    whatever its statements yield, a [BreakStatement] instance included:
    when every statement of the block ends with a value, the block ends
    with [None], in the state the statements left and back in the scope the
    block was entered in; and no run of a block ends with another value. *)
Theorem block_yields_none {rt : Runtime} (k : nat) (statement : list tree)
    (i : Interpreter) :
  skip_next_block_scope i = false →
  (∀ results i',
      map_M (visit k) statement (pushed i) = (Done results, i') →
      visit (S k) (BlockStatement statement) i =
      (Done VNone, set_current_scope (current_scope i) i'))
  ∧ (∀ r i', visit (S k) (BlockStatement statement) i = (Done r, i') →
             r = VNone).
Proof.
  intros Hskip. split.
  - intros results i' Hrun. cbn [visit accept].
    unfold visitBlockStatement, bind at 1, gets at 1. rewrite Hskip.
    unfold bind at 1. rewrite push_env_eq. unfold bind at 1.
    rewrite for_each_discards_results, Hrun. unfold bind at 1.
    assert (Hb : balanced (map_M (visit k) statement))
      by (apply balanced_map_M; intros t; apply balanced_visit).
    destruct (Hb _ _ _ Hrun) as [He Hc].
    rewrite (pop_env_pushed_from (current_scope i)); [done|].
    eapply pushed_from_ext; [apply pushed_from_pushed | done |].
    by apply (Hc results).
  - intros r i'. cbn [visit accept]. apply visitBlockStatement_done.
Qed.

(** A block whose only statement is [break], in a fresh interpreter. *)
Lemma block_yields_none_witness :
  visit (rt := plain_runtime) 4
    (BlockStatement [Statement (LoopStatement [BreakStatement])])
    (init false)
  = (Done VNone,
     set_current_scope 0
       (snd (map_M (visit (rt := plain_runtime) 3)
               [Statement (LoopStatement [BreakStatement])]
               (pushed (init false))))).
Proof.
  apply (proj1 (block_yields_none (rt := plain_runtime) 3
                  [Statement (LoopStatement [BreakStatement])] (init false)
                  eq_refl) [VBreak]).
  reflexivity.
Defined.

(** A [break] in a block of a loop body does not stop the loop: the three
    turns of the loop are made. *)
Lemma break_in_block_is_discarded :
  output_lines (snd (run (rt := plain_runtime) 20 false break_in_block_program))
  = ["3"%string].
Proof. vm_compute. reflexivity. Qed.

(** ** Calls *)

Lemma for_each_bind_parameters (l : list (string * value)) (σ : Scope.store)
    (s : Scope.t) (i : Interpreter) :
  for_each (λ '(pname, arg), scope_set_variable (length σ) pname arg true) l
    (set_scopes (σ ++ [s]) i)
  = (Done tt,
     set_scopes
       (σ ++ [fold_left (λ s '(pname, arg),
                           Scope.set_variable pname arg true s) l s]) i).
Proof.
  revert s. induction l as [|[pname arg] l IH]; intros s; cbn; [done|].
  unfold bind. rewrite scope_set_variable_eq. cbn.
  rewrite lookup_app_r, Nat.sub_diag by done. cbn.
  rewrite <- IH. f_equal.
  unfold set_scopes; cbn. f_equal.
  replace (length σ) with (length σ + 0)%nat at 1 by lia.
  by rewrite insert_app_r.
Qed.

(** A call visits the body of the function in [call_entry], catches a
    [FunctionReturn] and leaves through [call_exit]. *)
Lemma callFunction_eq (v : tree → M value) name args i func :
  functions i !! name = Some func →
  length (params func) = length args →
  callFunction v name args i =
  let '(o, i') := v (body func) (call_entry name func args i) in
  (match o with Raised (FunctionReturn r) => Done r | _ => o end,
   call_exit (current_scope i) i').
Proof.
  intros Hf Hlen. unfold callFunction, bind at 1, gets at 1. rewrite Hf.
  rewrite Hlen, Nat.eqb_refl. cbn [negb].
  unfold bind at 1. rewrite new_scope_eq. unfold bind at 1.
  rewrite for_each_bind_parameters.
  unfold bind at 1, gets at 1. unfold bind at 1, modify at 1.
  unfold bind at 1, modify at 1.
  unfold call_protected, bind at 1, modify at 1.
  change (set_skip_next_block_scope true _)
    with (call_entry name func args i).
  destruct (v (body func) (call_entry name func args i)) as [o i'].
  unfold call_exit. cbn [current_scope set_scopes].
  by destruct o as [a|[]| |].
Qed.

(** C1 (as amended).  A call whose body, a block, runs to its end without
    a return unwind yields [None], whatever the last statement of the body
    yielded; a call whose body raises a return unwind yields the value the
    unwind carries.  In both cases the call leaves through [call_exit]. *)
Theorem call_result {rt : Runtime} (k : nat) (name : string) (args : list value)
    (i : Interpreter) (func : Function) (statement : list tree) :
  functions i !! name = Some func →
  length (params func) = length args →
  body func = BlockStatement statement →
  ∀ o i', visit k (body func) (call_entry name func args i) = (o, i') →
    callFunction (visit k) name args i =
    (match o with
     | Done _ => Done VNone
     | Raised (FunctionReturn r) => Done r
     | _ => o
     end, call_exit (current_scope i) i').
Proof.
  intros Hf Hlen Hbody o i' Hrun.
  rewrite (callFunction_eq _ _ _ _ _ Hf Hlen), Hrun.
  destruct o as [r|[]| |]; try done.
  rewrite Hbody in Hrun. destruct k as [|k]; [discriminate|].
  cbn [visit accept] in Hrun.
  by rewrite (visitBlockStatement_done _ _ _ _ _ Hrun).
Qed.

(** In that state, the call [g()] returns through a return unwind and
    yields the value it carries. *)
Lemma call_result_witness :
  callFunction (visit (rt := plain_runtime) 10) "g" [] last_statement_state
  = (Done (VInt 5),
     call_exit 0
       (snd (visit (rt := plain_runtime) 10
               (BlockStatement [Statement (ReturnStatement (expr (number 5)))])
               (call_entry "g"
                  {| params := [];
                     body := BlockStatement
                               [Statement (ReturnStatement (expr (number 5)))];
                     scope := 0 |} [] last_statement_state)))).
Proof.
  apply (call_result (rt := plain_runtime) 10 "g" [] last_statement_state
           {| params := [];
              body := BlockStatement
                        [Statement (ReturnStatement (expr (number 5)))];
              scope := 0 |}
           [Statement (ReturnStatement (expr (number 5)))]
           eq_refl eq_refl eq_refl
           (Raised (FunctionReturn (VInt 5)))).
  vm_compute. reflexivity.
Defined.

(** The call [f()], whose body is the single statement [g()]: that
    statement, visited in the scope of the call, yields 5, and the body
    runs to its end without a return unwind, yet the call yields [None]. *)
Lemma call_result_is_not_last_statement :
  let func := {| params := [];
                 body := BlockStatement [Statement (FunctionCall "g" None)];
                 scope := 0 |} in
  functions last_statement_state !! "f" = Some func
  ∧ fst (visit (rt := plain_runtime) 10 (Statement (FunctionCall "g" None))
           (set_skip_next_block_scope false
              (call_entry "f" func [] last_statement_state)))
    = Done (VInt 5)
  ∧ fst (visit (rt := plain_runtime) 10 (body func)
           (call_entry "f" func [] last_statement_state))
    = Done VNone
  ∧ fst (callFunction (visit (rt := plain_runtime) 10) "f" []
           last_statement_state)
    = Done VNone.
Proof. vm_compute. repeat split; reflexivity. Qed.

Lemma get_variable_S d (σ : Scope.store) r x :
  Scope.get_variable (S d) σ r x =
  match σ !! r with
  | Some s =>
      match Scope.variables s !! x with
      | Some v => Some (ok v)
      | None =>
          match Scope.parent s with
          | Some p => Scope.get_variable d σ p x
          | None =>
              Some (err (Exception_
                ("Variable '" +:+ x +:+ "' not found in any scope")))
          end
      end
  | None => None
  end.
Proof. reflexivity. Qed.

Lemma get_variable_mono d d' (σ τ : Scope.store) r x a :
  (d ≤ d')%nat →
  Scope.get_variable d σ r x = Some a →
  Scope.get_variable d' (σ ++ τ) r x = Some a.
Proof.
  revert d' r. induction d as [|d IH]; intros d' r Hle; [done|].
  destruct d' as [|d']; [lia|]. cbn.
  destruct (σ !! r) as [s|] eqn:E; [|done]. cbn.
  rewrite (lookup_app_l_Some _ _ _ _ E). cbn.
  destruct (Scope.variables s !! x); [done|].
  destruct (Scope.parent s); [|done]. apply IH. lia.
Qed.

Lemma bind_parameters_parent param_names args s :
  Scope.parent (bind_parameters param_names args s) = Scope.parent s.
Proof.
  unfold bind_parameters. revert args s.
  induction param_names as [|p ps IH]; intros [|a args] s; cbn; try done.
  by rewrite IH.
Qed.

Lemma bind_parameters_other param_names args s x :
  x ∉ param_names →
  Scope.variables (bind_parameters param_names args s) !! x
  = Scope.variables s !! x.
Proof.
  unfold bind_parameters. revert args s.
  induction param_names as [|p ps IH]; intros [|a args] s Hx; cbn; try done.
  rewrite IH by (by apply not_elem_of_cons in Hx as [_ ?]). cbn.
  apply lookup_insert_ne. apply not_elem_of_cons in Hx as [? _]. done.
Qed.

Lemma visitFunctionDeclaration_done name parameter blockStatement i i' :
  visitFunctionDeclaration name parameter blockStatement i = (Done VNone, i') →
  ∃ func, functions i' !! name = Some func
          ∧ scope func = current_scope i ∧ body func = blockStatement.
Proof.
  unfold visitFunctionDeclaration, bind at 1, gets at 1.
  destruct (bool_decide _); [by intros [= <-]|].
  unfold bind at 1.
  destruct (match parameter with Some _ => _ | None => _ end) as [e|l];
    cbn; [by intros [= <-]|].
  intros [= <-]. eexists. cbn. rewrite lookup_insert_eq. done.
Qed.

(** C2.  A function keeps the scope that is current where it is declared;
    the scope made for a call is a new object whose parent is that scope,
    whatever the scope of the caller is, so that a name that is not a
    parameter is looked up in the chain of the defining scope, in the store
    as it is at the time of the call.  In [closure_program] the function
    [f] is declared in a block that then assigns 5 to the outer [x]; called
    after the block, and called from a function whose parameter is also
    named [x], it yields 5. *)
Theorem call_scope_parent_is_defining_scope :
  (∀ name parameter blockStatement i i',
      visitFunctionDeclaration name parameter blockStatement i
      = (Done VNone, i') →
      ∃ func, functions i' !! name = Some func
              ∧ scope func = current_scope i ∧ body func = blockStatement)
  ∧ (∀ (v : tree → M value) name args i func,
      functions i !! name = Some func →
      length (params func) = length args →
      let j := call_entry name func args i in
      (∀ o j', v (body func) j = (o, j') →
          callFunction v name args i =
          (match o with Raised (FunctionReturn r) => Done r | _ => o end,
           call_exit (current_scope i) j'))
      ∧ current_scope j = length (scopes i)
      ∧ (∃ s, scopes j !! current_scope j = Some s
              ∧ Scope.parent s = Some (scope func))
      ∧ (∀ x a, x ∉ params func →
            Scope.get_variable (S (scope func)) (scopes i) (scope func) x
            = Some a →
            scope_get_variable (current_scope j) x j = lift a j))
  ∧ output_lines closure_state = ["5"%string; "5"%string].
Proof.
  split; [exact visitFunctionDeclaration_done|]. split.
  - intros v name args i func Hf Hlen j. repeat split.
    + intros o j' Hrun. rewrite (callFunction_eq _ _ _ _ _ Hf Hlen).
      fold j. by rewrite Hrun.
    + eexists. split.
      * cbn. by rewrite lookup_app_r, Nat.sub_diag.
      * by rewrite bind_parameters_parent.
    + intros x a Hx Hget.
      unfold scope_get_variable, bind at 1, gets at 1.
      assert (Hlt : (scope func < length (scopes i))%nat).
      { cbn in Hget. destruct (scopes i !! scope func) eqn:E; [|done].
        by eapply lookup_lt_Some. }
      assert (Scope.get_variable (S (current_scope j)) (scopes j)
                (current_scope j) x = Some a) as ->; [|done].
      cbn -[Scope.get_variable bind_parameters].
      cbn -[bind_parameters Scope.get_variable].
      rewrite get_variable_S.
      rewrite lookup_app_r, Nat.sub_diag by done.
      cbn -[bind_parameters Scope.get_variable].
      rewrite bind_parameters_other, bind_parameters_parent by done.
      cbn -[Scope.get_variable]. rewrite lookup_empty.
      eapply get_variable_mono; [|exact Hget]. lia.
  - vm_compute. reflexivity.
Qed.

(** In the state after [closure_program], a call of [f] runs in a new
    scope whose parent is the scope of the block [f] was declared in. *)
Lemma call_scope_parent_is_defining_scope_witness :
  ∃ s, scopes (call_entry "f"
                 {| params := [];
                    body := BlockStatement
                              [Statement (ReturnStatement (var "x"))];
                    scope := 1 |} [] closure_state)
         !! length (scopes closure_state) = Some s
       ∧ Scope.parent s = Some 1%nat.
Proof.
  apply (proj1 (proj2 (proj2
           (proj1 (proj2 call_scope_parent_is_defining_scope)
              (visit (rt := plain_runtime) 10) "f" [] closure_state
              {| params := [];
                 body := BlockStatement
                           [Statement (ReturnStatement (var "x"))];
                 scope := 1 |} eq_refl eq_refl)))).
Defined.

(** ** While loops *)

Lemma balanced_first_result (v : tree → M value) statements :
  (∀ t, balanced (v t)) → balanced (first_result v statements).
Proof. intros Hv. induction statements; cbn; balanced_tac. Qed.

(** The loop over the statements of a body stops at the first result that
    is not [None], pops the scope of the turn and hands the result over,
    a [BreakStatement] instance as [None]. *)
Lemma while_body_first_result (v : tree → M value) c loopStatements i :
  (∀ t, balanced (v t)) →
  pushed_from c i →
  while_body v loopStatements i =
  match first_result v loopStatements i with
  | (Done (Some r), i') =>
      (Done (Some (if isinstance_BreakStatement r then VNone else r)),
       set_current_scope c i')
  | other => other
  end.
Proof.
  intros Hv. revert i.
  induction loopStatements as [|stmt rest IH]; intros i Hp; cbn; [done|].
  destruct (v stmt i) as [[r| e | |] i1] eqn:E;
    [|by rewrite !(bind_not_done _ _ _ _ _ E)..].
  rewrite !(bind_done _ _ _ _ _ E).
  destruct (Hv _ _ _ _ E) as [He Hc]. specialize (Hc _ eq_refl).
  assert (Hp1 : pushed_from c i1) by by eapply pushed_from_ext.
  destruct r; cbn [isinstance_BreakStatement is_None negb];
    try (unfold bind; by rewrite (pop_env_pushed_from c)).
  by apply IH.
Qed.

Lemma while_body_not_break (v : tree → M value) loopStatements i r i' :
  while_body v loopStatements i = (Done (Some r), i') → r ≠ VBreak.
Proof.
  revert i. induction loopStatements as [|stmt rest IH]; intros i; cbn;
    [done|].
  unfold bind at 1. destruct (v stmt i) as [[result| e | |] i1]; try done.
  destruct (isinstance_BreakStatement result) eqn:Eb.
  - unfold bind. destruct (pop_env i1) as [[[]| | |] ?]; try done.
    by intros [= <- <-].
  - destruct (negb (is_None result)); [|by apply IH].
    unfold bind. destruct (pop_env i1) as [[[]| | |] ?]; try done.
    intros [= <- <-]. by intros ->.
Qed.

Lemma visitWhileLoop_not_break (v : tree → M value) n cond body i i' :
  visitWhileLoop v n cond body i ≠ (Done VBreak, i').
Proof.
  revert i. induction n as [|n IH]; intros i; cbn; [done|].
  unfold bind at 1. destruct (v cond i) as [[c| e | |] i1]; try done.
  destruct (truthy c); [|done].
  unfold bind at 1. rewrite push_env_eq. unfold bind at 1.
  destruct (while_body v body (pushed i1)) as [[[r|]| e | |] i2] eqn:E;
    try done.
  - intros [= -> <-]. by apply while_body_not_break in E.
  - unfold bind. destruct (pop_env i2) as [[[]| | |] ?]; try done; apply IH.
Qed.

(** C3.  A turn of a while loop, taken when the condition holds, runs the
    statements of the body in a new scope, child of the scope the loop is
    in, up to the first statement whose result is not [None].  If there is
    one, the loop stops there: it returns [None] when the result is the
    [BreakStatement] instance and the result itself otherwise.  If there is
    none, the loop goes on with the next turn.  In either case the scope of
    the turn is popped: the current scope is again the scope of the loop.
    The loop returns [None] when the condition fails, and never returns the
    [BreakStatement] instance.  In [nested_while_program] the [break] of
    the inner loop ends the inner loop at [j = 2] each time and the outer
    loop makes its three turns. *)
Theorem while_loop_turn {rt : Runtime} (k : nat) (cond : tree)
    (body : list tree) :
  (∀ i, visit (S k) (WhileLoop cond body) i
        = visitWhileLoop (visit k) k cond body i)
  ∧ (∀ n i c i1,
       visit k cond i = (Done c, i1) → truthy c = true →
       (current_scope (pushed i1) = length (scopes i1)
        ∧ scopes (pushed i1) !! length (scopes i1)
          = Some (Scope.new (Some (current_scope i))))
       ∧ visitWhileLoop (visit k) (S n) cond body i =
         match first_result (visit k) body (pushed i1) with
         | (Done (Some r), i2) =>
             (Done (if isinstance_BreakStatement r then VNone else r),
              set_current_scope (current_scope i) i2)
         | (Done None, i2) =>
             visitWhileLoop (visit k) n cond body
               (set_current_scope (current_scope i) i2)
         | (Raised e, i2) => (Raised e, i2)
         | (OutOfFuel, i2) => (OutOfFuel, i2)
         | (Stuck, i2) => (Stuck, i2)
         end)
  ∧ (∀ n i c i1,
       visit k cond i = (Done c, i1) → truthy c = false →
       visitWhileLoop (visit k) (S n) cond body i = (Done VNone, i1))
  ∧ (∀ n i o i',
       visitWhileLoop (visit k) n cond body i = (o, i') →
       o ≠ Done VBreak
       ∧ (∀ r, o = Done r → current_scope i' = current_scope i))
  ∧ output_lines
      (snd (run (rt := plain_runtime) 40 false nested_while_program))
    = ["3 2 6"%string].
Proof.
  split; [done|]. split; [|split; [|split]].
  - intros n i c i1 Hcond Htrue.
    destruct (balanced_visit _ _ _ _ _ Hcond) as [_ Hc].
    specialize (Hc _ eq_refl). split.
    + split; [done|]. cbn. by rewrite lookup_app_r, Nat.sub_diag, Hc.
    + cbn [visitWhileLoop]. unfold bind at 1. rewrite Hcond, Htrue.
      unfold bind at 1. rewrite push_env_eq. unfold bind at 1.
      rewrite (while_body_first_result _ (current_scope i1))
        by (apply balanced_visit || apply pushed_from_pushed).
      destruct (first_result (visit k) body (pushed i1))
        as [[[r|]| e | |] i2] eqn:E; try done.
      * by rewrite Hc.
      * destruct (balanced_first_result (visit k) body
                    (balanced_visit k) _ _ _ E) as [He Hc2].
        unfold bind at 1.
        rewrite (pop_env_pushed_from (current_scope i1)); [by rewrite Hc|].
        eapply pushed_from_ext; [apply pushed_from_pushed | done |].
        by apply (Hc2 None).
  - intros n i c i1 Hcond Hfalse. cbn [visitWhileLoop]. unfold bind.
    by rewrite Hcond, Hfalse.
  - intros n i o i' Hrun. split.
    + intros ->. by apply visitWhileLoop_not_break in Hrun.
    + intros r ->.
      by apply (proj2 (balanced_visitWhileLoop _ (balanced_visit k)
                         _ _ _ _ _ _ Hrun) r).
  - vm_compute. reflexivity.
Qed.

(** [while (true) { break }] in a fresh interpreter: the first turn ends
    the loop, which returns [None] in the scope it was entered in. *)
Lemma while_loop_turn_witness :
  let '(o, i) :=
    visitWhileLoop (visit (rt := plain_runtime) 10) 1
      (BoolExpression [TrueLiteral]) [break_statement] (init false) in
  o = Done VNone ∧ current_scope i = 0%nat.
Proof.
  rewrite (proj2 (proj1 (proj2 (while_loop_turn (rt := plain_runtime) 10
             (BoolExpression [TrueLiteral]) [break_statement]))
             0%nat (init false) (VBool true) (init false)
             eq_refl eq_refl)).
  vm_compute. split; reflexivity.
Defined.

(** ** Arithmetic *)

(** C5 as stated fails: [-7 / 2] is -4, the quotient rounded toward minus
    infinity, where the truncated quotient is -3. *)
Lemma division_is_not_truncating :
  term_op (rt := plain_runtime) "/" (VInt (-7)) (VInt 2)
  = Some (ok (VInt (-4)))
  ∧ Z.quot (-7) 2 = -3
  ∧ fst (visit (rt := plain_runtime) 10
           (Term3 (UnaryMinus (number 7)) "/" (number 2)) (init false))
    = Done (VInt (-4)).
Proof. vm_compute. repeat split; reflexivity. Qed.

(** C5 (as amended).  [left / right] is the floor division [//] when
    [right] is an [int] and [left] is not a float: on two integers the
    quotient rounded toward minus infinity.  It is the true division
    otherwise: the quotient of the floats when both operands are floats.
    In particular [7 / 2] is 3, [7.0 / 2] is 3.5 and [7 % 2] is 1. *)
Theorem division_rounds_down_or_is_real {rt : Runtime} :
  (∀ left right b,
      as_int right = Some b → isinstance_float left = false →
      term_op "/" left right = Some (py_floordiv_int left b))
  ∧ (∀ a b, b ≠ 0 →
      ∃ q, term_op "/" (VInt a) (VInt b) = Some (ok (VInt q))
           ∧ (0 < b → b * q ≤ a < b * q + b)
           ∧ (b < 0 → b * q + b < a ≤ b * q))
  ∧ (∀ left right,
      isinstance_float left = true ∨ as_int right = None →
      term_op "/" left right = Some (py_truediv left right))
  ∧ (∀ x y, PrimFloat.eqb y zero = false →
      term_op "/" (VFloat x) (VFloat y) = Some (ok (VFloat (x / y)%float)))
  ∧ visit 10 (Term3 (number 7) "/" (number 2)) (init false)
    = (Done (VInt 3), init false)
  ∧ visit 10 (Term3 (decimal 70 1) "/" (number 2)) (init false)
    = (Done (VFloat 3.5), init false)
  ∧ visit 10 (Term3 (number 7) "%" (number 2)) (init false)
    = (Done (VInt 1), init false).
Proof.
  repeat split.
  - intros left right b Hb Hl. unfold term_op. cbn. by rewrite Hb, Hl.
  - intros a b Hb. exists (a / b). unfold term_op, py_floordiv_int. cbn.
    destruct (Z.eqb_spec b 0) as [|_]; [done|]. split; [done|].
    pose proof (Z.div_mod a b Hb) as Hdm. split; intros Hs.
    + pose proof (Z.mod_pos_bound a b Hs). lia.
    + pose proof (Z.mod_neg_bound a b Hs). lia.
  - intros left right [Hl|Hr]; unfold term_op; cbn.
    + rewrite Hl. by destruct (as_int right).
    + by rewrite Hr.
  - intros x y Hy. unfold term_op, py_truediv, float_truediv. cbn.
    by rewrite Hy.
Qed.

(** [-7 / 2]: the quotient is -4. *)
Lemma division_rounds_down_or_is_real_witness :
  ∃ q, term_op (rt := plain_runtime) "/" (VInt (-7)) (VInt 2)
       = Some (ok (VInt q))
       ∧ (0 < 2 → 2 * q ≤ -7 < 2 * q + 2)
       ∧ (2 < 0 → 2 * q + 2 < -7 ≤ 2 * q).
Proof.
  apply (proj1 (proj2 (division_rounds_down_or_is_real (rt := plain_runtime)))
           (-7) 2).
  lia.
Defined.





(** ** Matrix inversion *)

(** [f == 0] on a float is the IEEE comparison with zero. *)
Lemma py_eq_float_zero (f : float) :
  py_eq (VFloat f) (VInt 0) = PrimFloat.eqb f zero.
Proof.
  rewrite FloatAxioms.eqb_spec. unfold py_eq, compare_number. cbn.
  unfold compare_int_float, SFeqb.
  change (Prim2SF zero) with (S754_zero false).
  destruct (Prim2SF f) as [s|s| |s m e]; cbn; try done.
  - by destruct s.
  - destruct (0 <=? e) eqn:He.
    + apply Z.leb_le in He.
      pose proof (Z.pow_pos_nonneg 2 e ltac:(lia) He).
      destruct s.
      * destruct (Z.neg m * 2 ^ e) eqn:Ec; cbn; (done || lia).
      * destruct (Z.pos m * 2 ^ e) eqn:Ec; cbn; (done || lia).
    + rewrite Z.mul_0_l. by destruct s.
Qed.

Lemma invert_matrix_closed_form {rt : Runtime} (a b c d : value) :
  invert_matrix (matrix_value [[a; b]; [c; d]]) = closed_form_inverse a b c d.
Proof.
  unfold invert_matrix, closed_form_inverse. cbn.
  destruct (py_mul a d) as [e|ad]; [done|]. cbn.
  destruct (py_mul b c) as [e|bc]; [done|]. cbn.
  destruct (py_sub ad bc) as [e|det]; [done|]. cbn.
  destruct (py_eq det (VInt 0)); [done|].
  destruct (py_truediv d det) as [e|i00]; [done|]. cbn.
  destruct (py_neg b) as [e|nb]; [done|]. cbn.
  destruct (py_truediv nb det) as [e|i01]; [done|]. cbn.
  destruct (py_neg c) as [e|nc]; [done|]. cbn.
  destruct (py_truediv nc det) as [e|i10]; [done|]. cbn.
  by destruct (py_truediv a det) as [e|i11].
Qed.

(** C9: where the code departs from it.  On a matrix [[a, b], [c, d]] the
    inversion computes [det = a*d - b*c] with the operators of the
    language, raises "Matrix is not invertible" when [det == 0] and
    otherwise yields [[d/det, -b/det], [-c/det, a/det]]: on floats these
    are the IEEE operations.  The inverse of [[1,2],[3,4]] is
    [[-2,1],[1.5,-0.5]] and [[1,2],[2,4]] is not invertible.  The test on
    the sizes reads the number of rows and the length of the first row
    only: a list of rows that has not two rows, or whose first row has not
    two items, raises "Only 2x2 matrix inversion supported"; a list of two
    rows whose first row has two items and whose second row has not passes
    the test, and the unpacking of the second row raises [ValueError], as
    on [[1,2],[3]]. *)
Theorem invert_matrix_spec {rt : Runtime} :
  (∀ a b c d,
      invert_matrix (matrix_value [[a; b]; [c; d]])
      = closed_form_inverse a b c d)
  ∧ (∀ a b c d : float,
      let det := (a * d - b * c)%float in
      invert_matrix
        (matrix_value [[VFloat a; VFloat b]; [VFloat c; VFloat d]])
      = if PrimFloat.eqb det zero
        then err (Exception_ "Matrix is not invertible")
        else ok (matrix_value
                   [[VFloat (d / det)%float; VFloat (- b / det)%float];
                    [VFloat (- c / det)%float; VFloat (a / det)%float]]))
  ∧ (∀ m : list (list value),
      length m ≠ 2%nat →
      invert_matrix (matrix_value m)
      = err (Exception_ "Only 2x2 matrix inversion supported"))
  ∧ (∀ row0 row1 : list value,
      length row0 ≠ 2%nat →
      invert_matrix (matrix_value [row0; row1])
      = err (Exception_ "Only 2x2 matrix inversion supported"))
  ∧ (∀ (a b : value) (row1 : list value),
      length row1 ≠ 2%nat →
      invert_matrix (matrix_value [[a; b]; row1]) = err ValueError)
  ∧ invert_matrix
      (matrix_value [[VFloat 1; VFloat 2]; [VFloat 3; VFloat 4]])
    = ok (matrix_value [[VFloat (-2); VFloat 1];
                        [VFloat 1.5; VFloat (-0.5)]])
  ∧ invert_matrix
      (matrix_value [[VFloat 1; VFloat 2]; [VFloat 2; VFloat 4]])
    = err (Exception_ "Matrix is not invertible").
Proof.
  split; [exact invert_matrix_closed_form|].
  split; [|split; [|split; [|split]]].
  - intros a b c d det. rewrite invert_matrix_closed_form.
    unfold closed_form_inverse. cbn -[py_eq py_truediv]. fold det.
    rewrite py_eq_float_zero.
    destruct (PrimFloat.eqb det zero) eqn:E; [done|].
    unfold py_truediv, float_truediv. subst det. cbn. by rewrite E.
  - intros m Hm. unfold invert_matrix. cbn. rewrite length_fmap.
    by destruct (Nat.eqb_spec (length m) 2).
  - intros row0 row1 Hrow0. unfold invert_matrix. cbn.
    by destruct (Nat.eqb_spec (length row0) 2).
  - intros a b row1 Hrow1. unfold invert_matrix. cbn.
    by destruct row1 as [|c [|d [|e row1]]].
  - split; vm_compute; reflexivity.
Qed.

(** The rows [1, 2] and [3]. *)
Lemma invert_matrix_spec_witness :
  invert_matrix (rt := plain_runtime)
    (matrix_value [[VFloat 1; VFloat 2]; [VFloat 3]])
  = err ValueError.
Proof.
  apply (proj1 (proj2 (proj2 (proj2 (proj2
           (invert_matrix_spec (rt := plain_runtime))))))
           (VFloat 1) (VFloat 2) [VFloat 3]).
  cbn. lia.
Defined.

(** Three rows of two items are refused by the test on the sizes. *)
Lemma invert_matrix_three_rows :
  invert_matrix (rt := plain_runtime)
    (matrix_value [[VFloat 1; VFloat 2]; [VFloat 3; VFloat 4];
                   [VFloat 5; VFloat 6]])
  = err (Exception_ "Only 2x2 matrix inversion supported").
Proof. reflexivity. Qed.

(** ** Explicit-parent targets *)

Lemma wf_from_parent_lt n (σ : Scope.store) i s p :
  Scope.wf_from n σ = true → σ !! i = Some s → Scope.parent s = Some p →
  (p < n + i)%nat.
Proof.
  revert n i. induction σ as [|s0 σ IH]; intros n i Hwf Hi Hp; [done|].
  cbn in Hwf. apply andb_prop in Hwf as [H0 Hwf].
  destruct i as [|i]; cbn in Hi.
  - injection Hi as ->. rewrite Hp in H0. apply Nat.ltb_lt in H0. lia.
  - specialize (IH (S n) i Hwf Hi Hp). lia.
Qed.

Lemma wf_parent_lt (σ : Scope.store) i s p :
  Scope.wf σ = true → σ !! i = Some s → Scope.parent s = Some p →
  (p < i)%nat.
Proof. intros Hwf Hi Hp. by apply (wf_from_parent_lt 0 σ i s p). Qed.

Lemma ancestor_S levels (σ : Scope.store) c :
  Scope.ancestor (S levels) σ c =
  match σ !! c with
  | Some s =>
      match Scope.parent s with
      | Some p => Scope.ancestor levels σ p
      | None => Some None
      end
  | None => None
  end.
Proof. reflexivity. Qed.

Lemma ancestor_le levels (σ : Scope.store) c t :
  Scope.wf σ = true → Scope.ancestor levels σ c = Some (Some t) →
  (t ≤ c)%nat.
Proof.
  intros Hwf. revert c. induction levels as [|l IH]; intros c.
  - cbn. intros [= ->]. done.
  - rewrite ancestor_S. destruct (σ !! c) as [s|] eqn:E; [|done].
    destruct (Scope.parent s) as [p|] eqn:Ep; [|done].
    intros Ha. specialize (IH _ Ha).
    pose proof (wf_parent_lt _ _ _ _ Hwf E Ep). lia.
Qed.

(** The scope [levels] parents up is the entry [levels] of the chain. *)
Lemma ancestor_chain levels (σ : Scope.store) c t d :
  Scope.wf σ = true → Scope.ancestor levels σ c = Some (Some t) →
  (c < d)%nat → Scope.chain d σ c !! levels = Some t.
Proof.
  intros Hwf. revert c d. induction levels as [|l IH]; intros c d Ha Hd;
    (destruct d as [|d]; [lia|]).
  - cbn in Ha. injection Ha as ->. done.
  - rewrite ancestor_S in Ha. cbn.
    destruct (σ !! c) as [s|] eqn:E; [|done].
    destruct (Scope.parent s) as [p|] eqn:Ep; [|done].
    pose proof (wf_parent_lt _ _ _ _ Hwf E Ep). apply IH; [done | lia].
Qed.

(** The guard reads the scopes of the chain that come before the
    target. *)
Lemma exists_in_child_scopes_chain levels (σ : Scope.store) c t d name :
  Scope.wf σ = true → Scope.ancestor levels σ c = Some (Some t) →
  (c < d)%nat →
  Scope.exists_in_child_scopes d σ c t name
  = Some (existsb (binds σ name) (take levels (Scope.chain d σ c))).
Proof.
  intros Hwf. revert c d. induction levels as [|l IH]; intros c d Ha Hd;
    (destruct d as [|d]; [lia|]).
  - cbn in Ha. injection Ha as ->. cbn. by rewrite bool_decide_eq_true_2.
  - rewrite ancestor_S in Ha. cbn.
    destruct (σ !! c) as [s|] eqn:E; [|done].
    destruct (Scope.parent s) as [p|] eqn:Ep; [|done].
    pose proof (wf_parent_lt _ _ _ _ Hwf E Ep) as Hlt.
    pose proof (ancestor_le _ _ _ _ Hwf Ha) as Hle.
    rewrite bool_decide_eq_false_2 by lia. cbn.
    unfold binds at 1. rewrite E.
    destruct (Scope.has_variable name s); [done|]. cbn. rewrite ?Ep.
    apply IH; [done | lia].
Qed.

(** C8 as stated fails: in the block of [shadow_program] the declaration
    through [parent::x] is rejected because the block itself binds [x],
    although no scope lies strictly between the block and its parent. *)
Lemma shadow_guard_counts_current_scope :
  let '(o, i) := run (rt := plain_runtime) 20 false shadow_program in
  o = Raised (InterpreterError
        "Cannot declare variable 'x' in parent scope when it exists in child scope"
        "Remove the local declaration first or use a different name")
  ∧ current_scope i = 1%nat
  ∧ Scope.ancestor 1 (scopes i) (current_scope i) = Some (Some 0%nat)
  ∧ scopes_strictly_between (scopes i) (current_scope i) 1 = []
  ∧ scopes_below_target (scopes i) (current_scope i) 1 = [1%nat]
  ∧ binds (scopes i) "x" 1 = true.
Proof. vm_compute. repeat split; reflexivity. Qed.

(** C8 (as amended).  A write through an explicit-parent target resolves
    the scope [levels] parents up.  A declaration is rejected exactly when
    one of the scopes from the current one (included) up to the target
    (excluded) binds the name; a write that is not a declaration is never
    rejected by this guard.  A write that is not rejected binds the name in
    the target scope, whatever the nearer scopes bind. *)
Theorem explicit_parent_write {rt : Runtime} (v : tree → M value)
    (SET : bool) (scoped_name identifier : string)
    (typeAnnotation : option string) (expression : tree)
    (parentCtx : parent_kind) (i i1 : Interpreter) (value0 value : value)
    (target : nat) (s : Scope.t) :
  let parts := split_colons scoped_name [] in
  let name := List.last parts ""%string in
  let levels := (length parts - 1)%nat in
  v expression i = (Done value0, i1) →
  (if declared (declared_type_of typeAnnotation)
   then cast_value value0 (declared_type_of typeAnnotation)
   else narrow value0) = ok value →
  Scope.wf (scopes i1) = true →
  Scope.ancestor levels (scopes i1) (current_scope i1) = Some (Some target) →
  scopes i1 !! target = Some s →
  Scope.chain (S (current_scope i1)) (scopes i1) (current_scope i1) !! levels
  = Some target
  ∧ visitVariableDeclarationOrAssignment v SET (Some scoped_name) identifier
      typeAnnotation expression parentCtx i
    = if SET && existsb (binds (scopes i1) name)
                  (scopes_below_target (scopes i1) (current_scope i1) levels)
      then (Raised (InterpreterError
                      ("Cannot declare variable '" +:+ name +:+
                       "' in parent scope when it exists in child scope")
                      "Remove the local declaration first or use a different name"),
            i1)
      else (Done VNone, written target s name value i1).
Proof.
  intros parts name levels Hv Hconv Hwf Ha Hs. split.
  - apply ancestor_chain; [done | done | lia].
  - unfold visitVariableDeclarationOrAssignment.
    rewrite (bind_done _ _ _ _ _ Hv). unfold bind at 1. rewrite Hconv. cbn.
    unfold resolve_scope_for_assignment.
    fold parts. fold levels. fold name.
    unfold bind at 1, bind at 1, gets at 1. unfold bind at 1, gets at 1.
    unfold bind at 1. rewrite Ha. cbn [lift_store ret].
    unfold bind at 1.
    destruct SET; cbn [andb].
    + unfold _variable_exists_in_child_scopes, bind at 1, gets at 1.
      unfold bind at 1, gets at 1.
      rewrite (exists_in_child_scopes_chain levels _ _ target)
        by (done || lia).
      cbn [lift_store ret]. fold (scopes_below_target (scopes i1)
                                    (current_scope i1) levels).
      destruct (existsb _ _); [done|].
      unfold bind. rewrite scope_set_variable_eq, Hs. done.
    + unfold ret at 1. unfold bind. rewrite scope_set_variable_eq, Hs. done.
Qed.

(** From the innermost of three nested scopes that each bind [x], the
    write [parent::x = 7] binds [x] to 7 in the middle scope. *)
Lemma explicit_parent_write_witness :
  visitVariableDeclarationOrAssignment (rt := plain_runtime)
    (visit (rt := plain_runtime) 10) false (Some "parent::x"%string) ""
    None (expr (number 7)) OtherContext innermost_state
  = (Done VNone,
     written 1
       {| Scope.variables := {["x"%string := VInt 1]};
          Scope.parameters := ∅;
          Scope.parent := Some 0%nat |}
       "x" (VInt 7) innermost_state).
Proof.
  apply (proj2 (explicit_parent_write (rt := plain_runtime)
                  (visit (rt := plain_runtime) 10) false "parent::x" ""
                  None (expr (number 7)) OtherContext
                  innermost_state innermost_state (VInt 7) (VInt 7) 1
                  {| Scope.variables := {["x"%string := VInt 1]};
                     Scope.parameters := ∅;
                     Scope.parent := Some 0%nat |}
                  eq_refl eq_refl eq_refl eq_refl eq_refl)).
Defined.

(** ** Storage of whole floats *)

(** C4: where the code departs from it.  A plain reassignment without a
    type annotation stores the value it is given as it is, a float whose
    fractional part is zero included, whereas a plain declaration and an
    explicit-parent write store the integer.  In [narrowing_program],
    [Set x = 2.0] binds [x] to the integer 2 and [y = 2.0] binds [y] to
    the float 2.0.  The quotient [4.0 / 2], which is not stored, is the
    float 2.0. *)
Theorem plain_reassignment_keeps_whole_float {rt : Runtime} :
  (∀ (v : tree → M value) name expression parentCtx i i1 f r s,
      v expression i = (Done (VFloat f), i1) →
      Scope.nearest_binding (S (current_scope i1)) (scopes i1)
        (current_scope i1) name = Some (Some r) →
      scopes i1 !! r = Some s →
      visitVariableDeclarationOrAssignment v false None name None expression
        parentCtx i
      = (Done VNone, written r s name (VFloat f) i1))
  ∧ (let i := snd (run 20 false narrowing_program) in
     variables_of i 0 !! "x"%string = Some (VInt 2)
     ∧ variables_of i 0 !! "y"%string = Some (VFloat 2))
  ∧ narrow (VFloat 2) = ok (VInt 2)
  ∧ term_op "/" (VFloat 4) (VInt 2) = Some (ok (VFloat 2)).
Proof.
  split; [|by vm_compute].
  intros v name expression parentCtx i i1 f r s Hv Hn Hs.
  unfold visitVariableDeclarationOrAssignment.
  rewrite (bind_done _ _ _ _ _ Hv). cbn -[Scope.nearest_binding].
  rewrite Hn. cbn. unfold bind. rewrite scope_set_variable_eq, Hs. done.
Qed.

(** The reassignment [y = 2.0] of [narrowing_program], in the state its
    two declarations leave. *)
Lemma plain_reassignment_keeps_whole_float_witness :
  visitVariableDeclarationOrAssignment (rt := plain_runtime)
    (visit (rt := plain_runtime) 10) false None "y" None
    (expr (decimal 20 1)) OtherContext narrowing_declared_state
  = (Done VNone,
     written 0
       {| Scope.variables := {["x"%string := VInt 2; "y"%string := VInt 1]};
          Scope.parameters := ∅;
          Scope.parent := None |}
       "y" (VFloat 2) narrowing_declared_state).
Proof.
  apply (proj1 (plain_reassignment_keeps_whole_float (rt := plain_runtime))
           (visit (rt := plain_runtime) 10) "y"%string (expr (decimal 20 1))
           OtherContext narrowing_declared_state narrowing_declared_state
           2%float 0%nat
           {| Scope.variables := {["x"%string := VInt 2; "y"%string := VInt 1]};
              Scope.parameters := ∅;
              Scope.parent := None |});
    vm_compute; reflexivity.
Defined.

(** ** Increment and decrement *)

(** C7: where the code departs from it.  [x++] and [x--] read and write
    [self.memory], which is empty in a new interpreter and which no visit
    fills: in every run a bare increment or decrement raises
    "Variable ... not defined.", whether or not the name is bound in the
    scope chain.  In [increment_program], [x] is bound to 1 and [x++]
    raises. *)
Theorem increment_reads_the_unused_memory {rt : Runtime} :
  (∀ fuel t i o i',
      memory i = ∅ → visit fuel t i = (o, i') → memory i' = ∅)
  ∧ (∀ var_name INCREMENT DECREMENT i,
      memory i = ∅ →
      visitOperation var_name INCREMENT DECREMENT i
      = (Raised (Exception_ ("Variable '" +:+ var_name +:+ "' not defined.")),
         i))
  ∧ (let '(o, i) := run 20 false increment_program in
     o = Raised (Exception_ "Variable 'x' not defined.")
     ∧ variables_of i 0 !! "x"%string = Some (VInt 1)).
Proof.
  split; [|split].
  - intros fuel t i o i' Hm Hrun.
    destruct (balanced_visit fuel t _ _ _ Hrun) as [[_ Hmem] _]. auto.
  - intros var_name INCREMENT DECREMENT i Hm.
    unfold visitOperation, bind, gets. by rewrite Hm, lookup_empty.
  - by vm_compute.
Qed.

(** [x++] in the state [Set x = 1] leaves. *)
Lemma increment_reads_the_unused_memory_witness :
  visitOperation "x" true false increment_declared_state
  = (Raised (Exception_ "Variable 'x' not defined."),
     increment_declared_state).
Proof.
  apply (proj1 (proj2 (increment_reads_the_unused_memory
                         (rt := plain_runtime)))
           "x"%string true false increment_declared_state).
  reflexivity.
Defined.

(** ** Every state of a run is well formed *)

Lemma wf_from_app n (σ : Scope.store) s :
  Scope.wf_from n (σ ++ [s])
  = Scope.wf_from n σ
    && match Scope.parent s with
       | Some p => (p <? n + length σ)%nat
       | None => true
       end.
Proof.
  revert n. induction σ as [|s0 σ IH]; intros n; cbn.
  - by rewrite Nat.add_0_r, andb_true_r.
  - rewrite IH, andb_assoc.
    by replace (n + S (length σ))%nat with (S n + length σ)%nat by lia.
Qed.

Lemma wf_from_insert n (σ : Scope.store) r s s' :
  σ !! r = Some s → Scope.parent s' = Scope.parent s →
  Scope.wf_from n (<[r := s']> σ) = Scope.wf_from n σ.
Proof.
  revert n r. induction σ as [|s0 σ IH]; intros n r Hr Hp; [done|].
  destruct r as [|r]; cbn in *.
  - injection Hr as ->. by rewrite Hp.
  - by rewrite (IH _ _ Hr Hp).
Qed.

Lemma inv_init debug : inv (init debug).
Proof. repeat split; cbn; [lia | by intros ? ? ?]. Qed.

Lemma ext_length i i' : ext i i' → (length (scopes i) ≤ length (scopes i'))%nat.
Proof.
  intros [He _]. destruct (scopes i) as [|s σ] eqn:E using rev_ind; [cbn; lia|].
  destruct (He (length σ) s) as (s' & Hs' & _).
  - by rewrite lookup_app_r, Nat.sub_diag.
  - apply lookup_lt_Some in Hs'. rewrite length_app. cbn. lia.
Qed.

Section Preserves.
Context {A B : Type}.

Lemma preserves_same (m : M A) :
  (∀ i o i', m i = (o, i') → i' = i) → preserves m.
Proof. intros Hm i o i' Hi Hrun. by rewrite (Hm _ _ _ Hrun). Qed.

Lemma preserves_ret (a : A) : preserves (ret a).
Proof. apply preserves_same. by intros i o i' [= <- <-]. Qed.

Lemma preserves_raise (e : exn) : preserves (raise (A := A) e).
Proof. apply preserves_same. by intros i o i' [= <- <-]. Qed.

Lemma preserves_out_of_fuel : preserves (out_of_fuel (A := A)).
Proof. apply preserves_same. by intros i o i' [= <- <-]. Qed.

Lemma preserves_stuck : preserves (stuck (A := A)).
Proof. apply preserves_same. by intros i o i' [= <- <-]. Qed.

Lemma preserves_gets (f : Interpreter → A) : preserves (gets f).
Proof. apply preserves_same. by intros i o i' [= <- <-]. Qed.

Lemma preserves_lift (r : res A) : preserves (lift r).
Proof. destruct r; [apply preserves_raise | apply preserves_ret]. Qed.

Lemma preserves_lift_store (o : option A) : preserves (lift_store o).
Proof. destruct o; [apply preserves_ret | apply preserves_stuck]. Qed.

Lemma preserves_bind (m : M A) (k : A → M B) :
  preserves m → (∀ a, preserves (k a)) → preserves (bind m k).
Proof.
  intros Hm Hk i o i' Hi. unfold bind.
  destruct (m i) as [[a| e | |] i1] eqn:E; pose proof (Hm _ _ _ Hi E).
  - by apply Hk.
  - by intros [= <- <-].
  - by intros [= <- <-].
  - by intros [= <- <-].
Qed.
End Preserves.

Lemma preserves_modify (f : Interpreter → Interpreter) :
  (∀ i, scopes (f i) = scopes i) →
  (∀ i, functions (f i) = functions i) →
  (∀ i, current_scope (f i) = current_scope i) →
  preserves (modify f).
Proof.
  intros Hs Hf Hc i o i' (Hwf & Hcur & Hfun) [= <- <-].
  unfold inv. by rewrite Hs, Hf, Hc.
Qed.

Lemma preserves_for_each {A} (f : A → M unit) (l : list A) :
  (∀ x, preserves (f x)) → preserves (for_each f l).
Proof.
  intros Hf. induction l as [|x l IH]; cbn.
  - apply preserves_ret.
  - apply preserves_bind; auto.
Qed.

Lemma preserves_map_M {A B} (f : A → M B) (l : list A) :
  (∀ x, preserves (f x)) → preserves (map_M f l).
Proof.
  intros Hf. induction l as [|x l IH]; cbn.
  - apply preserves_ret.
  - apply preserves_bind; [auto|]. intros y.
    apply preserves_bind; [auto|]. intros ys. apply preserves_ret.
Qed.

Lemma preserves_scope_set_variable r name v p :
  preserves (scope_set_variable r name v p).
Proof.
  intros i o i' (Hwf & Hcur & Hfun). rewrite scope_set_variable_eq.
  destruct (scopes i !! r) as [s|] eqn:E; intros [= <- <-]; [|done].
  repeat split; cbn.
  - unfold Scope.wf. by rewrite (wf_from_insert _ _ _ s).
  - by rewrite length_insert.
  - intros name' f Hf. rewrite length_insert. eauto.
Qed.

Lemma preserves_push_env : preserves push_env.
Proof.
  intros i o i' (Hwf & Hcur & Hfun). rewrite push_env_eq. intros [= <- <-].
  repeat split; cbn.
  - unfold Scope.wf. rewrite wf_from_app. cbn.
    apply andb_true_intro. split; [done | by apply Nat.ltb_lt].
  - rewrite length_app. cbn. lia.
  - intros name f Hf. rewrite length_app. cbn. specialize (Hfun _ _ Hf). lia.
Qed.

Lemma preserves_pop_env : preserves pop_env.
Proof.
  intros i o i' (Hwf & Hcur & Hfun).
  unfold pop_env, bind, gets, deref, lift_store. cbn.
  destruct (scopes i !! current_scope i) as [s|] eqn:E; cbn;
    [|by intros [= <- <-]].
  destruct (Scope.parent s) as [p|] eqn:Ep; intros [= <- <-]; [|done].
  pose proof (wf_parent_lt _ _ _ _ Hwf E Ep). repeat split; cbn; [done|lia|done].
Qed.

Lemma inv_call_entry name func args i :
  inv i → functions i !! name = Some func →
  inv (call_entry name func args i).
Proof.
  intros (Hwf & Hcur & Hfun) Ef. repeat split; cbn.
  - unfold Scope.wf. rewrite wf_from_app, bind_parameters_parent. cbn.
    apply andb_true_intro. split; [done|].
    apply Nat.ltb_lt. eauto.
  - rewrite length_app. cbn. lia.
  - intros name' f Hf. rewrite length_app. cbn.
    specialize (Hfun _ _ Hf). lia.
Qed.

Create HintDb preserves discriminated.

#[local] Hint Resolve preserves_ret preserves_raise preserves_out_of_fuel
  preserves_stuck preserves_gets preserves_lift preserves_lift_store
  preserves_scope_set_variable preserves_push_env preserves_pop_env
  : preserves.

(** One step of the proof that a method keeps the states well formed. *)
Ltac preserves_step :=
  match goal with
  | |- preserves (bind _ _) => apply preserves_bind; [| intros ?]
  | |- preserves (for_each _ _) => apply preserves_for_each; intros ?
  | |- preserves (map_M _ _) => apply preserves_map_M; intros ?
  | |- preserves (modify _) => by apply preserves_modify
  | |- preserves (if ?b then _ else _) => destruct b
  | |- preserves (match ?x with _ => _ end) => destruct x
  | H : ∀ t, preserves (?v t) |- preserves (?v _) => apply H
  | |- preserves _ => solve [auto with preserves]
  end.
Ltac preserves_tac := repeat preserves_step.

Section PreservesMethods.
Context {rt : Runtime}.
Variable visit : tree → M value.
Hypothesis preserves_visit : ∀ t, preserves (visit t).
Hypothesis balanced_visit' : ∀ t, balanced (visit t).

Lemma preserves_visitChildren_from r children :
  preserves (visitChildren_from visit r children).
Proof.
  revert r. induction children as [|c cs IH]; intros r; cbn.
  - apply preserves_ret.
  - apply preserves_bind; auto.
Qed.

Lemma preserves_visitFunctionDeclaration name parameter blockStatement :
  preserves (visitFunctionDeclaration name parameter blockStatement).
Proof.
  unfold visitFunctionDeclaration.
  apply preserves_bind; [apply preserves_gets|]. intros fs.
  destruct (bool_decide _); [apply preserves_raise|].
  apply preserves_bind; [apply preserves_lift|]. intros param_list.
  intros i o i' (Hwf & Hcur & Hfun). unfold bind, gets, modify, ret.
  intros [= <- <-]. repeat split; cbn; [done..|].
  intros name' f. destruct (decide (name = name')) as [<-|Hne].
  - rewrite lookup_insert_eq. by intros [= <-].
  - rewrite lookup_insert_ne by done. eauto.
Qed.

Lemma preserves_callFunction name args :
  preserves (callFunction visit name args).
Proof.
  intros i o i' Hi. pose proof Hi as (Hwf & Hcur & Hfun).
  unfold callFunction, bind at 1, gets at 1.
  destruct (functions i !! name) as [func|] eqn:Ef; [|by intros [= <- <-]].
  destruct (negb _) eqn:El; [by intros [= <- <-]|].
  apply negb_false_iff, Nat.eqb_eq in El.
  intros Hrun.
  assert (Hrun' := Hrun).
  unfold bind at 1 in Hrun'. rewrite new_scope_eq in Hrun'.
  unfold bind at 1 in Hrun'. rewrite for_each_bind_parameters in Hrun'.
  unfold bind at 1, gets at 1 in Hrun'.
  unfold bind at 1, modify at 1 in Hrun'.
  unfold bind at 1, modify at 1 in Hrun'.
  unfold call_protected, bind at 1, modify at 1 in Hrun'.
  change (set_skip_next_block_scope true _)
    with (call_entry name func args i) in Hrun'.
  destruct (visit (body func) (call_entry name func args i))
    as [o1 i1] eqn:E.
  pose proof (inv_call_entry name func args i Hi Ef) as Hentry.
  pose proof (preserves_visit _ _ _ _ Hentry E) as (Hwf1 & Hcur1 & Hfun1).
  destruct (balanced_visit' _ _ _ _ E) as [He _].
  apply ext_length in He. cbn in He. rewrite length_app in He. cbn in He.
  assert (inv (set_current_scope (current_scope i)
                 (set_call_stack (removelast (call_stack i1)) i1))).
  { repeat split; cbn; [done | lia | done]. }
  cbn in Hrun'.
  destruct o1 as [a|e| |]; try destruct e; by injection Hrun' as <- <-.
Qed.

Hint Resolve preserves_visitFunctionDeclaration preserves_callFunction
  : preserves.

Lemma preserves_visitLogicOr l : preserves (visitLogicOr visit l).
Proof. induction l; cbn; preserves_tac. Qed.

Lemma preserves_visitLogicAnd l : preserves (visitLogicAnd visit l).
Proof. induction l; cbn; preserves_tac. Qed.

Lemma preserves_branches boolExpression body1 body2 indices otherwise :
  preserves otherwise →
  preserves (branches visit boolExpression body1 body2 indices otherwise).
Proof.
  intros Ho. induction indices; cbn; [done|]. unfold visit_opt.
  preserves_tac.
Qed.

Lemma preserves_while_body loopStatements :
  preserves (while_body visit loopStatements).
Proof. induction loopStatements; cbn; preserves_tac. Qed.

Lemma preserves_visitWhileLoop fuel boolExpression loopStatements :
  preserves (visitWhileLoop visit fuel boolExpression loopStatements).
Proof.
  induction fuel; cbn; [apply preserves_out_of_fuel|].
  apply preserves_bind; [auto|]. intros c. destruct (truthy c);
    [|apply preserves_ret].
  apply preserves_bind; [apply preserves_push_env|]. intros _.
  apply preserves_bind; [apply preserves_while_body|]. intros [r|];
    [apply preserves_ret|].
  apply preserves_bind; [apply preserves_pop_env | done].
Qed.

Lemma preserves_for_loop fuel cond forUpdate forBody :
  preserves (for_loop visit fuel cond forUpdate forBody).
Proof.
  induction fuel; cbn; [apply preserves_out_of_fuel|]. unfold visit_opt.
  preserves_tac.
Qed.

Lemma preserves_visitChildren children :
  preserves (visitChildren visit children).
Proof. apply preserves_visitChildren_from. Qed.

Hint Resolve preserves_visitChildren preserves_visitLogicOr
  preserves_visitLogicAnd preserves_visitWhileLoop preserves_for_loop
  : preserves.

Lemma preserves_accept fuel t : preserves (accept visit fuel t).
Proof.
  destruct t; cbn [accept]; try solve [auto with preserves].
  - unfold visitProgram, output_lines_append. preserves_tac.
  - unfold visitStatement, output_lines_append. preserves_tac.
  - unfold visitVariableDeclarationOrAssignment,
      resolve_scope_for_assignment, _variable_exists_in_child_scopes,
      scope_is_parameter, scope_has_variable, deref.
    preserves_tac.
  - unfold visitFunctionCall. preserves_tac.
  - unfold visitBuiltInFunctions, visit_opt. preserves_tac.
  - unfold visitIdentifier. preserves_tac.
  - unfold visitScopedIdentifier, scope_get_variable. preserves_tac.
  - unfold visitBlockStatement. preserves_tac.
  - unfold visitReturnStatement. preserves_tac.
  - unfold visitReassignment, scope_get_variable. preserves_tac.
  - unfold visitDisplayStatement, print, output_lines_append. preserves_tac.
  - unfold visitNumExpression3. preserves_tac.
  - unfold visitTerm3. preserves_tac.
  - unfold visitUnaryPlus. preserves_tac.
  - unfold visitUnaryMinus. preserves_tac.
  - unfold visitFactorNumber. preserves_tac.
  - unfold lookup_variable, scope_get_variable. preserves_tac.
  - unfold visitFactorString. preserves_tac.
  - unfold visitCastExpression. preserves_tac.
  - unfold visitOperation. preserves_tac.
  - unfold visitNumComparison. preserves_tac.
  - unfold visitEqualityComparison. preserves_tac.
  - unfold visitEqualityComparison. preserves_tac.
  - unfold visitMatrixExpression. preserves_tac.
  - unfold visitMatrixAtom, lookup_variable, scope_get_variable.
    preserves_tac.
  - unfold visitMatrixConstruction, print. preserves_tac.
  - unfold visitValueNumber. preserves_tac.
  - unfold visitValueIdentifier, lookup_variable, scope_get_variable.
    preserves_tac.
  - unfold visitLogicNot. preserves_tac.
  - unfold visitLogicIdentifier, lookup_variable, scope_get_variable.
    preserves_tac.
  - unfold visitIfStatement. apply preserves_branches. preserves_tac.
  - unfold visitLoopIfStatement. apply preserves_branches. preserves_tac.
  - unfold visitLoopStatements. preserves_tac.
  - unfold visitForLoop. preserves_tac.
  - unfold visitExpression, lookup_variable, scope_get_variable.
    preserves_tac.
Qed.
End PreservesMethods.

Lemma preserves_visit_fuel {rt : Runtime} fuel t : preserves (visit fuel t).
Proof.
  revert t. induction fuel as [|n IH]; intros t; cbn [visit].
  - apply preserves_out_of_fuel.
  - apply preserves_accept; [done|]. intros t'. apply balanced_visit.
Qed.

(** Every state of a run from a new interpreter is well formed: the
    hypothesis made on the store where an explicit-parent write is studied
    holds in all of them. *)
Lemma run_inv {rt : Runtime} fuel debug program o i :
  run fuel debug program = (o, i) → inv i.
Proof. apply preserves_visit_fuel, inv_init. Qed.

(** ** No run ends on a dangling scope reference *)

Lemma wf_parent_valid (σ : Scope.store) r s p :
  Scope.wf σ = true → σ !! r = Some s → Scope.parent s = Some p →
  (p < r)%nat ∧ (p < length σ)%nat.
Proof.
  intros Hwf Hr Hp. pose proof (wf_parent_lt _ _ _ _ Hwf Hr Hp).
  apply lookup_lt_Some in Hr. lia.
Qed.

Lemma get_variable_is_Some d (σ : Scope.store) r name :
  Scope.wf σ = true → (r < length σ)%nat → (r < d)%nat →
  is_Some (Scope.get_variable d σ r name).
Proof.
  intros Hwf. revert r. induction d as [|d IH]; intros r Hr Hd; [lia|].
  rewrite get_variable_S.
  destruct (lookup_lt_is_Some_2 _ _ Hr) as [s Hs]. rewrite Hs.
  destruct (Scope.variables s !! name); [done|].
  destruct (Scope.parent s) as [p|] eqn:Ep; [|done].
  destruct (wf_parent_valid _ _ _ _ Hwf Hs Ep). apply IH; lia.
Qed.

Lemma is_parameter_is_Some d (σ : Scope.store) r name :
  Scope.wf σ = true → (r < length σ)%nat → (r < d)%nat →
  is_Some (Scope.is_parameter d σ r name).
Proof.
  intros Hwf. revert r. induction d as [|d IH]; intros r Hr Hd; [lia|].
  cbn. destruct (lookup_lt_is_Some_2 _ _ Hr) as [s Hs]. rewrite Hs. cbn.
  destruct (bool_decide _); [done|].
  destruct (Scope.parent s) as [p|] eqn:Ep; [|done].
  destruct (wf_parent_valid _ _ _ _ Hwf Hs Ep). apply IH; lia.
Qed.

Lemma nearest_binding_valid d (σ : Scope.store) r name :
  Scope.wf σ = true → (r < length σ)%nat → (r < d)%nat →
  ∃ x, Scope.nearest_binding d σ r name = Some x
       ∧ ∀ r', x = Some r' → (r' < length σ)%nat.
Proof.
  intros Hwf. revert r. induction d as [|d IH]; intros r Hr Hd; [lia|].
  cbn. destruct (lookup_lt_is_Some_2 _ _ Hr) as [s Hs]. rewrite Hs. cbn.
  destruct (Scope.has_variable name s).
  - eexists. split; [done|]. by intros r' [= <-].
  - destruct (Scope.parent s) as [p|] eqn:Ep.
    + destruct (wf_parent_valid _ _ _ _ Hwf Hs Ep). apply IH; lia.
    + eexists. split; [done|]. done.
Qed.

Lemma ancestor_valid levels (σ : Scope.store) r :
  Scope.wf σ = true → (r < length σ)%nat →
  ∃ x, Scope.ancestor levels σ r = Some x
       ∧ ∀ t, x = Some t → (t < length σ)%nat.
Proof.
  intros Hwf. revert r. induction levels as [|l IH]; intros r Hr.
  - eexists. split; [done|]. by intros t [= <-].
  - rewrite ancestor_S.
    destruct (lookup_lt_is_Some_2 _ _ Hr) as [s Hs]. rewrite Hs.
    destruct (Scope.parent s) as [p|] eqn:Ep.
    + destruct (wf_parent_valid _ _ _ _ Hwf Hs Ep). by apply IH.
    + eexists. split; [done|]. done.
Qed.

Section Safe.
Context {A B : Type}.

Lemma safe_ret (a : A) : safe (ret a).
Proof. by intros i o i' _ [= <- <-]. Qed.

Lemma safe_raise (e : exn) : safe (raise (A := A) e).
Proof. by intros i o i' _ [= <- <-]. Qed.

Lemma safe_out_of_fuel : safe (out_of_fuel (A := A)).
Proof. by intros i o i' _ [= <- <-]. Qed.

Lemma safe_gets (f : Interpreter → A) : safe (gets f).
Proof. by intros i o i' _ [= <- <-]. Qed.

Lemma safe_lift (r : res A) : safe (lift r).
Proof. destruct r; [apply safe_raise | apply safe_ret]. Qed.

Lemma safe_bind (m : M A) (k : A → M B) :
  preserves m → safe m → (∀ a, safe (k a)) → safe (bind m k).
Proof.
  intros Hp Hm Hk i o i' Hi. unfold bind.
  destruct (m i) as [[a| e | |] i1] eqn:E.
  - apply Hk. by eapply Hp.
  - by intros [= <- <-].
  - by intros [= <- <-].
  - by destruct (Hm _ _ _ Hi E).
Qed.
End Safe.

Lemma safe_modify (f : Interpreter → Interpreter) : safe (modify f).
Proof. by intros i o i' _ [= <- <-]. Qed.

Lemma safe_for_each {A} (f : A → M unit) (l : list A) :
  (∀ x, preserves (f x)) → (∀ x, safe (f x)) → safe (for_each f l).
Proof.
  intros Hp Hf. induction l as [|x l IH]; cbn.
  - apply safe_ret.
  - apply safe_bind; auto.
Qed.

Lemma safe_map_M {A B} (f : A → M B) (l : list A) :
  (∀ x, preserves (f x)) → (∀ x, safe (f x)) → safe (map_M f l).
Proof.
  intros Hp Hf. induction l as [|x l IH]; cbn.
  - apply safe_ret.
  - apply safe_bind; [auto | auto |]. intros y.
    apply safe_bind; [by apply preserves_map_M | auto |]. intros ys.
    apply safe_ret.
Qed.

(** The scope operations on a reference that is in the store. *)
Lemma scope_get_variable_valid r name i :
  inv i → (r < length (scopes i))%nat →
  ∃ x, scope_get_variable r name i = (x, i) ∧ x ≠ Stuck.
Proof.
  intros (Hwf & _ & _) Hr. unfold scope_get_variable, bind, gets.
  destruct (get_variable_is_Some (S r) (scopes i) r name Hwf Hr
              ltac:(lia)) as [x Hx].
  rewrite Hx. cbn. destruct x; cbn; by eexists.
Qed.

Lemma scope_set_variable_valid r name v p i :
  (r < length (scopes i))%nat →
  ∃ i', scope_set_variable r name v p i = (Done tt, i')
        ∧ length (scopes i') = length (scopes i).
Proof.
  intros Hr. rewrite scope_set_variable_eq.
  destruct (lookup_lt_is_Some_2 _ _ Hr) as [s Hs]. rewrite Hs.
  eexists. split; [done|]. cbn. by rewrite length_insert.
Qed.

Lemma safe_lookup_variable name : safe (lookup_variable name).
Proof.
  intros i o i' Hi. unfold lookup_variable, bind at 1, gets at 1.
  destruct (scope_get_variable_valid (current_scope i) name i Hi)
    as (x & Hx & Hne); [by destruct Hi as (_ & ? & _)|].
  rewrite Hx. by intros [= <- <-].
Qed.

Lemma safe_push_env : safe push_env.
Proof. intros i o i' _. rewrite push_env_eq. by intros [= <- <-]. Qed.

Lemma safe_pop_env : safe pop_env.
Proof.
  intros i o i' (Hwf & Hcur & _).
  unfold pop_env, bind, gets, deref, lift_store. cbn.
  destruct (lookup_lt_is_Some_2 _ _ Hcur) as [s Hs]. rewrite Hs. cbn.
  destruct (Scope.parent s); by intros [= <- <-].
Qed.

(** Sequences of state operations, read from the left. *)
Lemma bind_assoc {A B C} (m : M A) (k : A → M B) (k' : B → M C) i :
  bind (bind m k) k' i = bind m (λ a, bind (k a) k') i.
Proof. unfold bind. by destruct (m i) as [[a| e | |] i1]. Qed.

Lemma bind_gets {A B} (f : Interpreter → A) (k : A → M B) i :
  bind (gets f) k i = k (f i) i.
Proof. reflexivity. Qed.

Lemma bind_ret {A B} (a : A) (k : A → M B) i : bind (ret a) k i = k a i.
Proof. reflexivity. Qed.

Lemma bind_raise {A B} e (k : A → M B) i : bind (raise e) k i = (Raised e, i).
Proof. reflexivity. Qed.

Lemma bind_modify {B} f (k : unit → M B) i : bind (modify f) k i = k tt (f i).
Proof. reflexivity. Qed.

(** Normalises the head of a sequence of state operations. *)
Ltac norm := repeat first
  [ rewrite bind_assoc | rewrite bind_gets | rewrite bind_ret
  | rewrite bind_raise | rewrite bind_modify ].

Lemma preserves_lookup_variable name : preserves (lookup_variable name).
Proof. unfold lookup_variable, scope_get_variable. preserves_tac. Qed.

Lemma preserves_print line : preserves (print line).
Proof. by apply preserves_modify. Qed.

Lemma preserves_output_lines_append line :
  preserves (output_lines_append line).
Proof. by apply preserves_modify. Qed.

Lemma preserves_visit_opt (v : tree → M value) t :
  (∀ t, preserves (v t)) → preserves (visit_opt v t).
Proof. intros Hv. unfold visit_opt. preserves_tac. Qed.

#[local] Hint Resolve preserves_lookup_variable preserves_print
  preserves_output_lines_append preserves_visit_opt
  preserves_visitFunctionDeclaration preserves_callFunction
  preserves_visitChildren preserves_visitChildren_from
  preserves_while_body : preserves.

Lemma safe_print line : safe (print line).
Proof. apply safe_modify. Qed.

Lemma safe_output_lines_append line : safe (output_lines_append line).
Proof. apply safe_modify. Qed.

Create HintDb safe discriminated.

#[local] Hint Resolve safe_ret safe_raise safe_out_of_fuel safe_gets
  safe_lift safe_modify safe_lookup_variable safe_push_env safe_pop_env
  safe_print safe_output_lines_append : safe.

(** One step of the proof that a method is safe. *)
Ltac safe_step :=
  match goal with
  | |- safe (bind _ _) =>
      apply safe_bind; [solve [preserves_tac] | | intros ?]
  | |- safe (for_each _ _) =>
      apply safe_for_each; [intros ?; solve [preserves_tac] | intros ?]
  | |- safe (map_M _ _) =>
      apply safe_map_M; [intros ?; solve [preserves_tac] | intros ?]
  | |- safe (if ?b then _ else _) => destruct b
  | |- safe (match ?x with _ => _ end) => destruct x
  | H : ∀ t, safe (?v t) |- safe (?v _) => apply H
  | |- safe _ => solve [auto with safe]
  end.
Ltac safe_tac := repeat safe_step.

Section SafeMethods.
Context {rt : Runtime}.
Variable visit : tree → M value.
Hypothesis preserves_visit : ∀ t, preserves (visit t).
Hypothesis balanced_visit' : ∀ t, balanced (visit t).
Hypothesis safe_visit : ∀ t, safe (visit t).

Lemma safe_scoped_write SET scoped_name (value : value) :
  safe (bind (resolve_scope_for_assignment scoped_name) (λ '(scope, var_name),
        bind (if SET : bool
                    then _variable_exists_in_child_scopes scope var_name
                    else ret false) (λ shadowed : bool,
        if shadowed then
          raise (InterpreterError
            ("Cannot declare variable '" +:+ var_name +:+
             "' in parent scope when it exists in child scope")
            "Remove the local declaration first or use a different name")
        else
          bind (scope_set_variable scope var_name value false) (λ _,
          ret VNone)))).
Proof.
  intros i o i' Hi. pose proof Hi as (Hwf & Hcur & _).
  unfold resolve_scope_for_assignment.
  set (parts := split_colons scoped_name []).
  set (levels := (length parts - 1)%nat).
  set (name := List.last parts ""%string).
  destruct (ancestor_valid levels (scopes i) (current_scope i) Hwf Hcur)
    as (x & Hx & Hvalid).
  norm. rewrite Hx. cbn [lift_store]. norm.
  destruct x as [t|]; norm; [|by intros [= <- <-]].
  specialize (Hvalid t eq_refl).
  destruct (scope_set_variable_valid t name value false i Hvalid)
    as (i2 & Hset & _).
  destruct SET.
  - unfold _variable_exists_in_child_scopes. norm.
    rewrite (exists_in_child_scopes_chain levels _ _ t) by (done || lia).
    cbn [lift_store]. norm.
    destruct (existsb _ _); norm; [by intros [= <- <-]|].
    unfold bind. rewrite Hset. by intros [= <- <-].
  - norm. unfold bind. rewrite Hset. by intros [= <- <-].
Qed.

Lemma scope_is_parameter_valid r name i :
  inv i → (r < length (scopes i))%nat →
  ∃ b, scope_is_parameter r name i = (Done b, i).
Proof.
  intros (Hwf & _ & _) Hr. unfold scope_is_parameter. norm.
  destruct (is_parameter_is_Some (S r) (scopes i) r name Hwf Hr ltac:(lia))
    as [b Hb].
  rewrite Hb. by eexists.
Qed.

Lemma scope_has_variable_valid r name i :
  (r < length (scopes i))%nat →
  ∃ b, scope_has_variable r name i = (Done b, i).
Proof.
  intros Hr. unfold scope_has_variable, deref. norm.
  destruct (lookup_lt_is_Some_2 _ _ Hr) as [s Hs]. rewrite Hs.
  by eexists.
Qed.

Lemma safe_visitVariableDeclarationOrAssignment SET scopedIdentifier
    identifier typeAnnotation expression parentCtx :
  safe (visitVariableDeclarationOrAssignment visit SET scopedIdentifier
          identifier typeAnnotation expression parentCtx).
Proof.
  unfold visitVariableDeclarationOrAssignment.
  destruct scopedIdentifier as [scoped_name|].
  - apply safe_bind; [done | done |]. intros value0.
    apply safe_bind; [apply preserves_lift | apply safe_lift |]. intros value.
    apply safe_scoped_write.
  - apply safe_bind; [done | done |]. intros value0.
    intros i o i' Hi. pose proof Hi as (Hwf & Hcur & _). norm.
    destruct SET.
    + assert (Hstore : ∀ o i',
        bind (lift (if declared (declared_type_of typeAnnotation)
                    then cast_value value0 (declared_type_of typeAnnotation)
                    else narrow value0))
          (λ value, bind (scope_set_variable (current_scope i) identifier
                            value false) (λ _, ret VNone)) i = (o, i') →
        o ≠ Stuck).
      { intros o1 i1. unfold bind at 1.
        destruct (if declared _ then _ else _) as [e|value]; cbn [lift];
          [by intros [= <- <-]|]. cbn [ret].
        destruct (scope_set_variable_valid (current_scope i) identifier value
                    false i Hcur) as (i2 & Hset & _).
        unfold bind. rewrite Hset. by intros [= <- <-]. }
      destruct (negb _).
      * destruct (scope_is_parameter_valid (current_scope i) identifier i
                    Hi Hcur) as (b & Hb).
        norm. rewrite (bind_done _ _ _ _ _ Hb).
        destruct b; norm; [by intros [= <- <-]|].
        destruct (scope_has_variable_valid (current_scope i) identifier i
                    Hcur) as (h & Hh).
        rewrite (bind_done _ _ _ _ _ Hh).
        destruct h; norm; [by intros [= <- <-]|]. apply Hstore.
      * norm. apply Hstore.
    + destruct (nearest_binding_valid (S (current_scope i)) (scopes i)
                  (current_scope i) identifier Hwf Hcur ltac:(lia))
        as (x & Hx & Hvalid).
      norm. rewrite Hx. cbn [lift_store]. norm.
      destruct x as [r|]; [|by intros [= <- <-]].
      specialize (Hvalid r eq_refl). unfold bind at 1.
      destruct (if declared _ then _ else _) as [e|value]; cbn [lift];
        [by intros [= <- <-]|]. cbn [ret].
      destruct (scope_set_variable_valid r identifier value false i Hvalid)
        as (i2 & Hset & _).
      unfold bind. rewrite Hset. by intros [= <- <-].
Qed.

Lemma safe_visitScopedIdentifier levels name :
  safe (visitScopedIdentifier levels name).
Proof.
  intros i o i' Hi. pose proof Hi as (Hwf & Hcur & _).
  unfold visitScopedIdentifier. norm.
  destruct (ancestor_valid levels (scopes i) (current_scope i) Hwf Hcur)
    as (x & Hx & Hvalid).
  rewrite Hx. cbn [lift_store]. norm.
  destruct x as [t|]; [|by intros [= <- <-]].
  destruct (scope_get_variable_valid t name i Hi (Hvalid t eq_refl))
    as (x & Hx' & Hne).
  rewrite Hx'. by intros [= <- <-].
Qed.

Lemma safe_visitReassignment name op expression :
  safe (visitReassignment visit name op expression).
Proof.
  unfold visitReassignment.
  apply safe_bind; [done | done |]. intros value.
  intros i o i' Hi. pose proof Hi as (Hwf & Hcur & _). norm.
  destruct (nearest_binding_valid (S (current_scope i)) (scopes i)
              (current_scope i) name Hwf Hcur ltac:(lia))
    as (x & Hx & Hvalid).
  rewrite Hx. cbn [lift_store]. norm.
  destruct x as [r|]; [|by intros [= <- <-]].
  specialize (Hvalid r eq_refl).
  destruct (scope_get_variable_valid r name i Hi Hvalid) as (x & Hget & Hne).
  destruct x as [current_value| e | |];
    [| rewrite (bind_not_done _ _ _ _ _ Hget) by done; by intros [= <- <-]
     | rewrite (bind_not_done _ _ _ _ _ Hget) by done; by intros [= <- <-]
     | done].
  rewrite (bind_done _ _ _ _ _ Hget).
  assert (Hafter : ∀ v o i', 
     bind (scope_set_variable r name v false)
       (λ _, scope_get_variable r name) i = (o, i') → o ≠ Stuck).
  { intros v o1 i1.
    destruct (scope_set_variable_valid r name v false i Hvalid)
      as (i2 & Hset & Hlen).
    rewrite (bind_done _ _ _ _ _ Hset).
    assert (Hi2 : inv i2).
    { eapply preserves_scope_set_variable; [exact Hi | exact Hset]. }
    destruct (scope_get_variable_valid r name i2 Hi2 ltac:(lia))
      as (x & Hx' & Hne').
    rewrite Hx'. by intros [= <- <-]. }
  destruct op; norm.
  1-4: unfold bind at 1;
    match goal with |- context [lift ?r] => destruct r as [e|v] end;
    cbn [lift]; [by intros [= <- <-] | apply Hafter].
  rewrite Hget. by intros [= <- <-].
Qed.

Lemma safe_callFunction name args : safe (callFunction visit name args).
Proof.
  intros i o i' Hi.
  destruct (functions i !! name) as [func|] eqn:Ef.
  - destruct (decide (length (params func) = length args)) as [Hlen|Hlen].
    + rewrite (callFunction_eq _ _ _ _ _ Ef Hlen).
      destruct (visit (body func) (call_entry name func args i))
        as [o1 i1] eqn:E.
      pose proof (safe_visit _ _ _ _ (inv_call_entry _ _ args _ Hi Ef) E).
      intros [= <- <-]. by destruct o1 as [a|[]| |].
    + unfold callFunction. norm. rewrite Ef.
      apply Nat.eqb_neq in Hlen. rewrite Hlen. by intros [= <- <-].
  - unfold callFunction. norm. rewrite Ef. by intros [= <- <-].
Qed.

Hint Resolve safe_visitVariableDeclarationOrAssignment
  safe_visitScopedIdentifier safe_visitReassignment safe_callFunction
  : safe.

Lemma safe_visitFunctionDeclaration name parameter blockStatement :
  safe (visitFunctionDeclaration name parameter blockStatement).
Proof.
  intros i o i' _. unfold visitFunctionDeclaration. norm.
  destruct (bool_decide _); [by intros [= <- <-]|].
  unfold bind at 1.
  destruct (match parameter with Some _ => _ | None => _ end) as [e|l];
    cbn [lift]; by intros [= <- <-].
Qed.

Lemma safe_visit_opt t : safe (visit_opt visit t).
Proof. unfold visit_opt. safe_tac. Qed.

Lemma safe_visitChildren_from r children :
  safe (visitChildren_from visit r children).
Proof.
  revert r. induction children as [|c cs IH]; intros r; cbn; safe_tac.
Qed.

Lemma safe_visitChildren children : safe (visitChildren visit children).
Proof. apply safe_visitChildren_from. Qed.

Hint Resolve safe_visit_opt safe_visitChildren : safe.

Lemma safe_visitLogicOr l : safe (visitLogicOr visit l).
Proof. induction l; cbn; safe_tac. Qed.

Lemma safe_visitLogicAnd l : safe (visitLogicAnd visit l).
Proof. induction l; cbn; safe_tac. Qed.

Lemma safe_branches boolExpression body1 body2 indices otherwise :
  safe otherwise →
  safe (branches visit boolExpression body1 body2 indices otherwise).
Proof. intros Ho. induction indices; cbn; [done|]. safe_tac. Qed.

Lemma safe_while_body loopStatements : safe (while_body visit loopStatements).
Proof. induction loopStatements; cbn; safe_tac. Qed.

Lemma safe_visitWhileLoop fuel boolExpression loopStatements :
  safe (visitWhileLoop visit fuel boolExpression loopStatements).
Proof.
  induction fuel; cbn; [apply safe_out_of_fuel|].
  apply safe_bind; [done | done |]. intros c.
  destruct (truthy c); [|apply safe_ret].
  apply safe_bind; [apply preserves_push_env | apply safe_push_env |].
  intros _.
  apply safe_bind; [by apply preserves_while_body | apply safe_while_body |].
  intros [r|]; [apply safe_ret|].
  apply safe_bind; [apply preserves_pop_env | apply safe_pop_env | done].
Qed.

Lemma safe_for_loop fuel cond forUpdate forBody :
  safe (for_loop visit fuel cond forUpdate forBody).
Proof.
  induction fuel; cbn; [apply safe_out_of_fuel|].
  apply safe_bind; [done | done |]. intros c.
  destruct (truthy c); [|apply safe_ret].
  apply safe_bind; [apply preserves_push_env | apply safe_push_env |].
  intros _.
  apply safe_bind; [by apply preserves_visit_opt | apply safe_visit_opt |].
  intros result. destruct (isinstance_BreakStatement result); [safe_tac|].
  apply safe_bind; [apply preserves_pop_env | apply safe_pop_env |].
  intros _. apply safe_bind; [done | done |]. intros c'.
  apply safe_bind; [preserves_tac | safe_tac | done].
Qed.

Hint Resolve safe_visitLogicOr safe_visitLogicAnd safe_visitWhileLoop
  safe_for_loop : safe.

Lemma safe_accept fuel t : safe (accept visit fuel t).
Proof.
  destruct t; cbn [accept]; try solve [auto with safe].
  - unfold visitProgram. safe_tac.
  - unfold visitStatement. safe_tac.
  - apply safe_visitFunctionDeclaration.
  - unfold visitFunctionCall. safe_tac.
  - unfold visitBuiltInFunctions. safe_tac.
  - unfold visitIdentifier. safe_tac.
  - unfold visitBlockStatement. safe_tac.
  - unfold visitReturnStatement. safe_tac.
  - unfold visitDisplayStatement, print, output_lines_append. safe_tac.
  - unfold visitNumExpression3. safe_tac.
  - unfold visitTerm3. safe_tac.
  - unfold visitUnaryPlus. safe_tac.
  - unfold visitUnaryMinus. safe_tac.
  - unfold visitFactorNumber. safe_tac.
  - unfold visitFactorString. safe_tac.
  - unfold visitCastExpression. safe_tac.
  - unfold visitOperation. safe_tac.
  - unfold visitNumComparison. safe_tac.
  - unfold visitEqualityComparison. safe_tac.
  - unfold visitEqualityComparison. safe_tac.
  - unfold visitMatrixExpression. safe_tac.
  - unfold visitMatrixAtom. safe_tac.
  - unfold visitMatrixConstruction, print. safe_tac.
  - unfold visitValueNumber. safe_tac.
  - unfold visitValueIdentifier. safe_tac.
  - unfold visitLogicNot. safe_tac.
  - unfold visitLogicIdentifier. safe_tac.
  - unfold visitIfStatement. apply safe_branches. safe_tac.
  - unfold visitLoopIfStatement. apply safe_branches. safe_tac.
  - unfold visitLoopStatements. safe_tac.
  - unfold visitForLoop. safe_tac.
  - unfold visitExpression. safe_tac.
Qed.
End SafeMethods.

Lemma safe_visit_fuel {rt : Runtime} fuel t : safe (visit fuel t).
Proof.
  revert t. induction fuel as [|n IH]; intros t; cbn [visit].
  - apply safe_out_of_fuel.
  - apply safe_accept;
      first [ done
            | intros t'; apply preserves_visit_fuel
            | intros t'; apply balanced_visit ].
Qed.

(** No run from a new interpreter ends on a scope reference that is not in
    the store, nor on a walk of the scope chain cut short by its bound:
    [Stuck] is not an outcome of a run. *)
Lemma run_never_stuck {rt : Runtime} fuel debug program :
  fst (run fuel debug program) ≠ Stuck.
Proof.
  unfold run. destruct (visit fuel program (init debug)) as [o i] eqn:E.
  by apply (safe_visit_fuel fuel program _ _ _ (inv_init debug) E).
Qed.

(* ===================================================================== *)
(** * Further properties of the evaluator                                 *)
(* ===================================================================== *)

(** ** What every visit keeps *)

Lemma extends_refl i : extends i i.
Proof.
  repeat split; try done; try apply ext_refl.
  intros r s Hr Hle. apply lookup_lt_Some in Hr. lia.
Qed.

Lemma extends_trans i1 i2 i3 : extends i1 i2 → extends i2 i3 → extends i1 i3.
Proof.
  intros (He & Hn & Hg & Hv & Hd & Hc & Ho & Hs & Hf)
         (He' & Hn' & Hg' & Hv' & Hd' & Hc' & Ho' & Hs' & Hf').
  repeat split; try congruence.
  - by eapply ext_trans.
  - by eapply ext_trans.
  - intros r s Hr Hle.
    destruct (decide (length (scopes i2) ≤ r)%nat) as [Hge|Hlt]; [eauto|].
    destruct (lookup_lt_is_Some_2 (scopes i2) r) as [s2 Hs2]; [lia|].
    destruct He' as [He' _]. destruct (He' _ _ Hs2) as (s3 & Hs3 & Hp).
    rewrite Hr in Hs3. injection Hs3 as <-. rewrite Hp. eauto.
  - by etrans.
  - by etrans.
  - by etrans.
Qed.

Lemma extends_same i i' :
  scopes i' = scopes i → memory i' = memory i →
  global_scope i' = global_scope i → variables i' = variables i →
  debug i' = debug i → call_stack i' = call_stack i →
  output_lines i `prefix_of` output_lines i' →
  stdout i `prefix_of` stdout i' →
  functions i ⊆ functions i' →
  extends i i'.
Proof.
  intros Hs Hm Hg Hv Hd Hc Ho Hst Hf.
  split; [by apply ext_same_store|]. repeat split; try done.
  intros r s Hr Hle. rewrite Hs in Hr. apply lookup_lt_Some in Hr. lia.
Qed.

Section Extending.
Context {A B : Type}.

Lemma extending_same (m : M A) :
  (∀ i o i', m i = (o, i') → i' = i) → extending m.
Proof. intros Hm i o i' Hrun. rewrite (Hm _ _ _ Hrun). apply extends_refl. Qed.

Lemma extending_ret (a : A) : extending (ret a).
Proof. apply extending_same. by intros i o i' [= <- <-]. Qed.

Lemma extending_raise (e : exn) : extending (raise (A := A) e).
Proof. apply extending_same. by intros i o i' [= <- <-]. Qed.

Lemma extending_out_of_fuel : extending (out_of_fuel (A := A)).
Proof. apply extending_same. by intros i o i' [= <- <-]. Qed.

Lemma extending_stuck : extending (stuck (A := A)).
Proof. apply extending_same. by intros i o i' [= <- <-]. Qed.

Lemma extending_gets (f : Interpreter → A) : extending (gets f).
Proof. apply extending_same. by intros i o i' [= <- <-]. Qed.

Lemma extending_lift (r : res A) : extending (lift r).
Proof. destruct r; [apply extending_raise | apply extending_ret]. Qed.

Lemma extending_lift_store (o : option A) : extending (lift_store o).
Proof. destruct o; [apply extending_ret | apply extending_stuck]. Qed.

Lemma extending_bind (m : M A) (k : A → M B) :
  extending m → (∀ a, extending (k a)) → extending (bind m k).
Proof.
  intros Hm Hk i o i'. unfold bind.
  destruct (m i) as [[a| e | |] i1] eqn:E; pose proof (Hm _ _ _ E).
  - intros Hka. eapply extends_trans; [done|]. by eapply Hk.
  - by intros [= <- <-].
  - by intros [= <- <-].
  - by intros [= <- <-].
Qed.
End Extending.

Lemma extending_modify (f : Interpreter → Interpreter) :
  (∀ i, scopes (f i) = scopes i) → (∀ i, memory (f i) = memory i) →
  (∀ i, global_scope (f i) = global_scope i) →
  (∀ i, variables (f i) = variables i) →
  (∀ i, debug (f i) = debug i) → (∀ i, call_stack (f i) = call_stack i) →
  (∀ i, output_lines i `prefix_of` output_lines (f i)) →
  (∀ i, stdout i `prefix_of` stdout (f i)) →
  (∀ i, functions (f i) = functions i) →
  extending (modify f).
Proof.
  intros Hs Hm Hg Hv Hd Hc Ho Hst Hf i o i' [= <- <-].
  apply extends_same; try done. by rewrite Hf.
Qed.

Lemma extending_for_each {A} (f : A → M unit) (l : list A) :
  (∀ x, extending (f x)) → extending (for_each f l).
Proof.
  intros Hf. induction l as [|x l IH]; cbn.
  - apply extending_ret.
  - apply extending_bind; auto.
Qed.

Lemma extending_map_M {A B} (f : A → M B) (l : list A) :
  (∀ x, extending (f x)) → extending (map_M f l).
Proof.
  intros Hf. induction l as [|x l IH]; cbn.
  - apply extending_ret.
  - apply extending_bind; [auto|]. intros y.
    apply extending_bind; [auto|]. intros ys. apply extending_ret.
Qed.

Lemma extending_scope_set_variable r name v p :
  extending (scope_set_variable r name v p).
Proof.
  intros i o i'. rewrite scope_set_variable_eq.
  destruct (scopes i !! r) as [s|] eqn:E; intros [= <- <-];
    [|apply extends_refl].
  repeat split; try done.
  - by apply (ext_insert_scope i r s).
  - intros r0 s0. cbn. intros Hr Hle. apply lookup_lt_Some in Hr.
    rewrite length_insert in Hr. lia.
Qed.

Lemma extends_pushed i : extends i (pushed i).
Proof.
  repeat split; try done; try apply ext_pushed.
  intros r s. cbn. intros Hr Hle.
  rewrite lookup_app_r in Hr by done.
  destruct (r - length (scopes i))%nat; [|done].
  injection Hr as <-. by eexists.
Qed.

Lemma extending_push_env : extending push_env.
Proof. intros i o i'. rewrite push_env_eq. intros [= <- <-]. apply extends_pushed. Qed.

Lemma extending_print line : extending (print line).
Proof. apply extending_modify; try done. intros i. by apply prefix_app_r. Qed.

Lemma extending_output_lines_append line :
  extending (output_lines_append line).
Proof. apply extending_modify; try done. intros i. by apply prefix_app_r. Qed.

Create HintDb extending discriminated.

#[local] Hint Resolve extending_ret extending_raise extending_out_of_fuel
  extending_stuck extending_gets extending_lift extending_lift_store
  extending_scope_set_variable extending_push_env extending_print
  extending_output_lines_append : extending.

Ltac extending_step :=
  match goal with
  | |- extending (bind _ _) => apply extending_bind; [| intros ?]
  | |- extending (for_each _ _) => apply extending_for_each; intros ?
  | |- extending (map_M _ _) => apply extending_map_M; intros ?
  | |- extending (modify _) => by apply extending_modify
  | |- extending (if ?b then _ else _) => destruct b
  | |- extending (match ?x with _ => _ end) => destruct x
  | H : ∀ t, extending (?v t) |- extending (?v _) => apply H
  | |- extending _ => solve [auto with extending]
  end.
Ltac extending_tac := repeat extending_step.

(** The state a call leaves extends the state of the caller, as soon as
    the body was visited in a state that its end extends. *)
Lemma extends_call name func args c i i' :
  extends (call_entry name func args i) i' →
  extends i (call_exit c i').
Proof.
  intros (He & Hn & Hg & Hv & Hd & Hc & Ho & Hs & Hf).
  assert (He0 : ext i (call_entry name func args i)).
  { split; [|done]. intros r s Hr. exists s. split; [|done].
    cbn. by apply lookup_app_l_Some. }
  repeat split; try done.
  - destruct (ext_trans _ _ _ He0 He) as [H _]. exact H.
  - destruct (ext_trans _ _ _ He0 He) as [_ H]. exact H.
  - intros r s. cbn. intros Hr Hle.
    destruct (decide (r = length (scopes i))) as [->|Hne].
    + destruct He as [He _].
      destruct (He (length (scopes i))
                  (bind_parameters (params func) args
                     (Scope.new (Some (scope func))))) as (s' & Hs' & Hp).
      { cbn. by rewrite lookup_app_r, Nat.sub_diag. }
      rewrite Hr in Hs'. injection Hs' as <-.
      rewrite Hp, bind_parameters_parent. by eexists.
    + apply (Hn r s Hr). cbn. rewrite length_app. cbn. lia.
  - cbn. rewrite Hc. cbn. by rewrite removelast_last.
Qed.

Section ExtendingMethods.
Context {rt : Runtime}.
Variable visit : tree → M value.
Hypothesis extending_visit : ∀ t, extending (visit t).

Lemma extending_visitChildren_from r children :
  extending (visitChildren_from visit r children).
Proof.
  revert r. induction children as [|c cs IH]; intros r; cbn.
  - apply extending_ret.
  - apply extending_bind; auto.
Qed.

Lemma extending_visitChildren children :
  extending (visitChildren visit children).
Proof. apply extending_visitChildren_from. Qed.

Lemma extending_visitFunctionDeclaration name parameter blockStatement :
  extending (visitFunctionDeclaration name parameter blockStatement).
Proof.
  intros i o i'. unfold visitFunctionDeclaration, bind at 1, gets at 1.
  destruct (bool_decide _) eqn:Ed; [intros [= <- <-]; apply extends_refl|].
  apply bool_decide_eq_false in Ed.
  unfold bind at 1.
  destruct (match parameter with Some _ => _ | None => _ end) as [e|l];
    cbn; [intros [= <- <-]; apply extends_refl|].
  intros [= <- <-]. apply extends_same; try done. cbn.
  apply insert_subseteq. by apply eq_None_not_Some.
Qed.

Lemma extending_callFunction name args :
  extending (callFunction visit name args).
Proof.
  intros i o i'.
  destruct (functions i !! name) as [func|] eqn:Ef.
  - destruct (decide (length (params func) = length args)) as [El|El].
    + rewrite (callFunction_eq _ _ _ _ _ Ef El).
      destruct (visit (body func) (call_entry name func args i))
        as [o1 i1] eqn:E.
      intros [= <- <-]. eapply extends_call. by eapply extending_visit.
    + unfold callFunction, bind at 1, gets at 1. rewrite Ef.
      apply Nat.eqb_neq in El. rewrite El. cbn.
      intros [= <- <-]. apply extends_refl.
  - unfold callFunction, bind at 1, gets at 1. rewrite Ef.
    intros [= <- <-]. apply extends_refl.
Qed.

Lemma extending_pop_env : extending pop_env.
Proof. unfold pop_env, deref. extending_tac. Qed.

Lemma extending_visitOperation var_name INCREMENT DECREMENT :
  extending (visitOperation var_name INCREMENT DECREMENT).
Proof.
  intros i o i' Hrun.
  destruct (balanced_visitOperation var_name INCREMENT DECREMENT _ _ _ Hrun)
    as [He _].
  assert (Hsame : ∃ m, i' = set_memory m i).
  { revert Hrun. unfold visitOperation, bind at 1, gets at 1.
    destruct (memory i !! var_name) as [current_value|] eqn:E;
      [|intros [= <- <-]; by exists (memory i); destruct i].
    destruct (negb _); [intros [= <- <-]; by exists (memory i); destruct i|].
    unfold bind at 1.
    destruct INCREMENT; [|destruct DECREMENT].
    + unfold bind at 1.
      destruct (py_add _ _) as [e|v]; cbn;
        [intros [= <- <-]; by exists (memory i); destruct i|].
      unfold bind, gets, modify; cbn.
      destruct (<[var_name:=v]> (memory i) !! var_name);
        intros [= <- <-]; by eexists.
    + unfold bind at 1.
      destruct (py_sub _ _) as [e|v]; cbn;
        [intros [= <- <-]; by exists (memory i); destruct i|].
      unfold bind, gets, modify; cbn.
      destruct (<[var_name:=v]> (memory i) !! var_name);
        intros [= <- <-]; by eexists.
    + unfold bind, gets, ret; cbn. rewrite E.
      intros [= <- <-]; by exists (memory i); destruct i. }
  destruct Hsame as [m ->]. repeat split; try done; try apply He.
  intros r s. cbn. intros Hr Hle. apply lookup_lt_Some in Hr. lia.
Qed.

Hint Resolve extending_visitChildren extending_visitFunctionDeclaration
  extending_callFunction extending_pop_env extending_visitOperation
  : extending.

Lemma extending_visitLogicOr l : extending (visitLogicOr visit l).
Proof. induction l; cbn; extending_tac. Qed.

Lemma extending_visitLogicAnd l : extending (visitLogicAnd visit l).
Proof. induction l; cbn; extending_tac. Qed.

Lemma extending_branches boolExpression body1 body2 indices otherwise :
  extending otherwise →
  extending (branches visit boolExpression body1 body2 indices otherwise).
Proof.
  intros Ho. induction indices; cbn; [done|]. unfold visit_opt.
  extending_tac.
Qed.

Lemma extending_while_body loopStatements :
  extending (while_body visit loopStatements).
Proof. induction loopStatements; cbn; extending_tac. Qed.

Lemma extending_visitWhileLoop fuel boolExpression loopStatements :
  extending (visitWhileLoop visit fuel boolExpression loopStatements).
Proof.
  induction fuel; cbn; [apply extending_out_of_fuel|].
  apply extending_bind; [auto|]. intros c. destruct (truthy c);
    [|apply extending_ret].
  apply extending_bind; [apply extending_push_env|]. intros _.
  apply extending_bind; [apply extending_while_body|]. intros [r|];
    [apply extending_ret|].
  apply extending_bind; [apply extending_pop_env | done].
Qed.

Lemma extending_for_loop fuel cond forUpdate forBody :
  extending (for_loop visit fuel cond forUpdate forBody).
Proof.
  induction fuel; cbn; [apply extending_out_of_fuel|]. unfold visit_opt.
  extending_tac.
Qed.

Hint Resolve extending_visitLogicOr extending_visitLogicAnd
  extending_visitWhileLoop extending_for_loop : extending.

Lemma extending_accept fuel t : extending (accept visit fuel t).
Proof.
  destruct t; cbn [accept]; try solve [auto with extending].
  - unfold visitProgram. extending_tac.
  - unfold visitStatement. extending_tac.
  - unfold visitVariableDeclarationOrAssignment,
      resolve_scope_for_assignment, _variable_exists_in_child_scopes,
      scope_is_parameter, scope_has_variable, deref.
    extending_tac.
  - unfold visitFunctionCall. extending_tac.
  - unfold visitBuiltInFunctions, visit_opt. extending_tac.
  - unfold visitIdentifier. extending_tac.
  - unfold visitScopedIdentifier, scope_get_variable. extending_tac.
  - unfold visitBlockStatement. extending_tac.
  - unfold visitReturnStatement. extending_tac.
  - unfold visitReassignment, scope_get_variable. extending_tac.
  - unfold visitDisplayStatement. extending_tac.
  - unfold visitNumExpression3. extending_tac.
  - unfold visitTerm3. extending_tac.
  - unfold visitUnaryPlus. extending_tac.
  - unfold visitUnaryMinus. extending_tac.
  - unfold visitFactorNumber. extending_tac.
  - unfold lookup_variable, scope_get_variable. extending_tac.
  - unfold visitFactorString. extending_tac.
  - unfold visitCastExpression. extending_tac.
  - unfold visitNumComparison. extending_tac.
  - unfold visitEqualityComparison. extending_tac.
  - unfold visitEqualityComparison. extending_tac.
  - unfold visitMatrixExpression. extending_tac.
  - unfold visitMatrixAtom, lookup_variable, scope_get_variable.
    extending_tac.
  - unfold visitMatrixConstruction. extending_tac.
  - unfold visitValueNumber. extending_tac.
  - unfold visitValueIdentifier, lookup_variable, scope_get_variable.
    extending_tac.
  - unfold visitLogicNot. extending_tac.
  - unfold visitLogicIdentifier, lookup_variable, scope_get_variable.
    extending_tac.
  - unfold visitIfStatement. apply extending_branches. extending_tac.
  - unfold visitLoopIfStatement. apply extending_branches. extending_tac.
  - unfold visitLoopStatements. extending_tac.
  - unfold visitForLoop. extending_tac.
  - unfold visitExpression, lookup_variable, scope_get_variable.
    extending_tac.
Qed.
End ExtendingMethods.

Lemma extending_visit_fuel {rt : Runtime} fuel t : extending (visit fuel t).
Proof.
  revert t. induction fuel as [|n IH]; intros t; cbn [visit].
  - apply extending_out_of_fuel.
  - by apply extending_accept.
Qed.

(** ** Scopes, calls and output across a visit *)

Lemma rooted_init debug : rooted (init debug).
Proof.
  repeat split; [by eexists|]. intros [|r] s; cbn; [lia | done].
Qed.

Lemma rooted_extends i i' : rooted i → extends i i' → rooted i'.
Proof.
  intros (Hg & (g & Hg0 & Hgp) & Hr) (He & Hn & Hg' & _).
  destruct He as [He _]. repeat split.
  - congruence.
  - destruct (He _ _ Hg0) as (g' & Hg0' & Hp). exists g'. split; congruence.
  - intros r s Hs Hpos.
    destruct (decide (length (scopes i) ≤ r)%nat) as [Hge|Hlt]; [eauto|].
    destruct (lookup_lt_is_Some_2 (scopes i) r) as [s0 Hs0]; [lia|].
    destruct (He _ _ Hs0) as (s' & Hs' & Hp).
    rewrite Hs in Hs'. injection Hs' as <-. rewrite Hp. eauto.
Qed.

(** A call ends in the scope of the caller and with the call stack of the
    caller however it ends: with a value, with the value of a return
    unwind, or with an exception raised in the body ([finally]).  This also
    holds when the function is unknown or called with the wrong number of
    arguments, in which case nothing was changed. *)
Theorem call_restores_scope_and_stack {rt : Runtime} (k : nat)
    (name : string) (args : list value) (i i' : Interpreter)
    (o : outcome value) :
  callFunction (visit k) name args i = (o, i') →
  current_scope i' = current_scope i ∧ call_stack i' = call_stack i.
Proof.
  intros Hrun. split.
  - revert Hrun.
    destruct (functions i !! name) as [func|] eqn:Ef.
    + destruct (decide (length (params func) = length args)) as [El|El].
      * rewrite (callFunction_eq _ _ _ _ _ Ef El).
        destruct (visit k (body func) _) as [o1 i1].
        by intros [= <- <-].
      * unfold callFunction, bind at 1, gets at 1. rewrite Ef.
        apply Nat.eqb_neq in El. rewrite El. cbn. by intros [= <- <-].
    + unfold callFunction, bind at 1, gets at 1. rewrite Ef.
      by intros [= <- <-].
  - assert (He : extends i i').
    { eapply extending_callFunction; [|exact Hrun].
      intros t. apply extending_visit_fuel. }
    apply He.
Qed.

(** The call [h()] of [failing_call_program] raises from inside a block of
    the body and leaves the global scope current and the call stack
    empty. *)
Lemma call_restores_scope_and_stack_witness :
  fst (callFunction (visit (rt := plain_runtime) 10) "h" []
         failing_call_state)
  = Raised (Exception_ "Variable 'z' not found in any scope")
  ∧ current_scope (snd (callFunction (visit (rt := plain_runtime) 10) "h" []
                          failing_call_state)) = 0%nat
  ∧ call_stack (snd (callFunction (visit (rt := plain_runtime) 10) "h" []
                       failing_call_state)) = [].
Proof.
  split; [by vm_compute|].
  apply (call_restores_scope_and_stack (rt := plain_runtime) 10 "h" []
           failing_call_state _ _ (surjective_pairing _)).
Defined.

(** No visit removes or changes a line of [output_lines] or a printed
    line: whatever a visit ends with, the lines it started with are a
    prefix of the lines it leaves. *)
Theorem output_lines_only_grow {rt : Runtime} (fuel : nat) (t : tree)
    (i i' : Interpreter) (o : outcome value) :
  visit fuel t i = (o, i') →
  output_lines i `prefix_of` output_lines i'
  ∧ stdout i `prefix_of` stdout i'.
Proof.
  intros Hrun. destruct (extending_visit_fuel fuel t _ _ _ Hrun)
    as (_ & _ & _ & _ & _ & _ & Ho & Hs & _). done.
Qed.

(** [display 1] in the state after [closure_program], which has recorded
    two lines. *)
Lemma output_lines_only_grow_witness :
  output_lines closure_state
    `prefix_of` output_lines
                  (snd (visit (rt := plain_runtime) 10
                          (display [expr (number 1)]) closure_state))
  ∧ stdout closure_state
      `prefix_of` stdout
                    (snd (visit (rt := plain_runtime) 10
                            (display [expr (number 1)]) closure_state)).
Proof.
  apply (output_lines_only_grow (rt := plain_runtime) 10
           (display [expr (number 1)]) closure_state _ _
           (surjective_pairing _)).
Defined.

(** The table of functions only grows: whatever a visit ends with, every
    function declared before it is still declared with the same
    parameters, body and defining scope; and a declaration under a name
    already in the table is rejected, in whatever scope it is made. *)
Theorem functions_are_never_redefined {rt : Runtime} :
  (∀ fuel t i o i' name func,
      visit fuel t i = (o, i') → functions i !! name = Some func →
      functions i' !! name = Some func)
  ∧ (∀ name parameter blockStatement i,
      is_Some (functions i !! name) →
      visitFunctionDeclaration name parameter blockStatement i
      = (Raised (InterpreterError
                   ("Duplicate function declaration '" +:+ name +:+ "'")
                   "Function names must be unique"), i)).
Proof.
  split.
  - intros fuel t i o i' name func Hrun Hf.
    destruct (extending_visit_fuel fuel t _ _ _ Hrun)
      as (_ & _ & _ & _ & _ & _ & _ & _ & Hsub).
    by eapply lookup_weaken.
  - intros name parameter blockStatement i Hf.
    unfold visitFunctionDeclaration, bind, gets.
    by rewrite bool_decide_eq_true_2.
Qed.

(** [visitIdentifier] reads [self.variables], which is empty in a new
    interpreter and which no visit assigns: in every state of a run the
    visit of an [Identifier] node raises "Undefined variable". *)
Theorem identifier_reads_the_unused_variables {rt : Runtime} :
  (∀ debug, variables (init debug) = ∅)
  ∧ (∀ fuel t i o i',
      visit fuel t i = (o, i') → variables i' = variables i)
  ∧ (∀ k var_name i,
      variables i = ∅ →
      visit (S k) (Identifier var_name) i
      = (Raised (Exception_ ("Undefined variable: " +:+ var_name)), i)).
Proof.
  split; [done|]. split.
  - intros fuel t i o i' Hrun.
    by destruct (extending_visit_fuel fuel t _ _ _ Hrun)
      as (_ & _ & _ & Hv & _).
  - intros k var_name i Hv. cbn [visit accept].
    unfold visitIdentifier, bind, gets. by rewrite Hv, lookup_empty.
Qed.

Lemma chain_ends_at_root d (σ : Scope.store) r :
  Scope.wf σ = true →
  (∀ r s, σ !! r = Some s → (0 < r)%nat → is_Some (Scope.parent s)) →
  (∃ g, σ !! 0%nat = Some g ∧ Scope.parent g = None) →
  (r < d)%nat → (r < length σ)%nat →
  last (Scope.chain d σ r) = Some 0%nat.
Proof.
  intros Hwf Hpar (g & Hg & Hgp). revert r.
  induction d as [|d IH]; intros r Hd Hr; [lia|]. cbn.
  destruct (lookup_lt_is_Some_2 σ r Hr) as [s Hs]. rewrite Hs.
  destruct (Scope.parent s) as [p|] eqn:Ep.
  - pose proof (wf_parent_lt _ _ _ _ Hwf Hs Ep) as Hlt.
    rewrite last_cons. rewrite IH by lia. done.
  - destruct r as [|r]; [done|].
    destruct (Hpar _ _ Hs) as [p Hp]; [lia|]. congruence.
Qed.

Lemma get_variable_global d (σ : Scope.store) r g x v :
  Scope.wf σ = true →
  (∀ r s, σ !! r = Some s → (0 < r)%nat → is_Some (Scope.parent s)) →
  σ !! 0%nat = Some g → Scope.variables g !! x = Some v →
  (r < d)%nat → (r < length σ)%nat →
  ∃ w, Scope.get_variable d σ r x = Some (ok w).
Proof.
  intros Hwf Hpar Hg Hx. revert r.
  induction d as [|d IH]; intros r Hd Hr; [lia|]. rewrite get_variable_S.
  destruct (lookup_lt_is_Some_2 σ r Hr) as [s Hs]. rewrite Hs.
  destruct (Scope.variables s !! x) as [w|] eqn:Ex; [by eexists|].
  destruct (Scope.parent s) as [p|] eqn:Ep.
  - pose proof (wf_parent_lt _ _ _ _ Hwf Hs Ep) as Hlt. apply IH; lia.
  - destruct r as [|r]; [congruence|].
    destruct (Hpar _ _ Hs) as [p Hp]; [lia|]. congruence.
Qed.

(** Every scope other than the global one has a parent, created before it:
    this holds in a new interpreter and every visit keeps it.  Hence the
    chain of every scope object ends at the global scope, and a name bound
    in the global scope is found from every scope (its value there being
    the nearest binding of the chain). *)
Theorem global_names_are_visible_from_every_scope {rt : Runtime} :
  (∀ debug, inv (init debug) ∧ rooted (init debug))
  ∧ (∀ fuel t i o i',
      inv i → rooted i → visit fuel t i = (o, i') → inv i' ∧ rooted i')
  ∧ (∀ i r,
      inv i → rooted i → (r < length (scopes i))%nat →
      last (Scope.chain (S r) (scopes i) r) = Some (global_scope i))
  ∧ (∀ i r g x v,
      inv i → rooted i → (r < length (scopes i))%nat →
      scopes i !! global_scope i = Some g →
      Scope.variables g !! x = Some v →
      ∃ w, scope_get_variable r x i = (Done w, i)).
Proof.
  split; [|split; [|split]].
  - intros debug. split; [apply inv_init | apply rooted_init].
  - intros fuel t i o i' Hi Hr Hrun. split.
    + by eapply preserves_visit_fuel.
    + eapply rooted_extends; [done|]. by eapply extending_visit_fuel.
  - intros i r (Hwf & _) (Hg & Hroot & Hpar) Hlt. rewrite Hg.
    apply chain_ends_at_root; try done. lia.
  - intros i r g x v (Hwf & _) (Hg & Hroot & Hpar) Hlt Hs Hx.
    rewrite Hg in Hs.
    destruct (get_variable_global (S r) (scopes i) r g x v) as [w Hw];
      try done; [lia|].
    exists w. unfold scope_get_variable, bind, gets. by rewrite Hw.
Qed.

(** A visit that ends with a value ends in the scope it started in; the
    scope objects it found are all still in the store, with the parent they
    had. *)
Theorem visit_restores_current_scope {rt : Runtime} (fuel : nat) (t : tree)
    (i i' : Interpreter) (r : value) :
  visit fuel t i = (Done r, i') →
  current_scope i' = current_scope i
  ∧ (length (scopes i) ≤ length (scopes i'))%nat
  ∧ (∀ c s, scopes i !! c = Some s →
            ∃ s', scopes i' !! c = Some s'
                  ∧ Scope.parent s' = Scope.parent s).
Proof.
  intros Hrun. destruct (balanced_visit fuel t _ _ _ Hrun) as [He Hc].
  split; [by eapply Hc|]. split; [by apply ext_length | apply He].
Qed.

(** The run of [nested_while_program], whose loops push a scope per turn,
    ends in the global scope. *)
Lemma visit_restores_current_scope_witness :
  current_scope (snd (visit (rt := plain_runtime) 40 nested_while_program
                        (init false))) = 0%nat
  ∧ (1 ≤ length (scopes (snd (visit (rt := plain_runtime) 40
                                 nested_while_program (init false)))))%nat.
Proof.
  destruct (visit_restores_current_scope (rt := plain_runtime) 40
              nested_while_program (init false)
              (snd (visit (rt := plain_runtime) 40 nested_while_program
                      (init false)))
              (VList [VStr "3 2 6"])) as (H1 & H2 & _).
  - vm_compute. reflexivity.
  - split; [exact H1 | exact H2].
Defined.

(** ** Declarations, assignments and lookups *)

Lemma lookup_written r s x v i :
  scopes i !! r = Some s →
  scopes (written r s x v i) !! r = Some (Scope.set_variable x v false s).
Proof.
  intros Hs. cbn. apply list_lookup_insert_eq. by eapply lookup_lt_Some.
Qed.

Lemma get_variable_written_here d r s x v i :
  scopes i !! r = Some s →
  Scope.get_variable (S d) (scopes (written r s x v i)) r x = Some (ok v).
Proof.
  intros Hs. rewrite get_variable_S, (lookup_written _ _ _ _ _ Hs). cbn.
  by rewrite lookup_insert_eq.
Qed.

(** A plain declaration [Set x = e] that passes the checks (or is the
    initialiser or the update of a [for]) binds [x] in the current scope to
    the value of [e], converted to the declared type or, without one,
    narrowed; a lookup of [x] then yields that value.  No other scope
    object and no other name of the current scope is changed. *)
Theorem declaration_then_lookup {rt : Runtime} (v : tree → M value)
    (x : string) (typeAnnotation : option string) (expression : tree)
    (parentCtx : parent_kind) (i i1 : Interpreter) (value0 value : value)
    (s : Scope.t) :
  v expression i = (Done value0, i1) →
  (if declared (declared_type_of typeAnnotation)
   then cast_value value0 (declared_type_of typeAnnotation)
   else narrow value0) = ok value →
  scopes i1 !! current_scope i1 = Some s →
  parentCtx ≠ OtherContext
  ∨ (Scope.is_parameter (S (current_scope i1)) (scopes i1) (current_scope i1) x
     = Some false
     ∧ Scope.has_variable x s = false) →
  let i' := written (current_scope i1) s x value i1 in
  visitVariableDeclarationOrAssignment v true None x typeAnnotation
    expression parentCtx i = (Done VNone, i')
  ∧ lookup_variable x i' = (Done value, i')
  ∧ (∀ r, r ≠ current_scope i1 → scopes i' !! r = scopes i1 !! r)
  ∧ (∀ y, y ≠ x → variables_of i' (current_scope i1) !! y
                   = Scope.variables s !! y).
Proof.
  intros Hv Hconv Hs Hfree i'. repeat split.
  - unfold visitVariableDeclarationOrAssignment.
    rewrite (bind_done _ _ _ _ _ Hv). norm.
    assert (Hstore :
      bind (lift (if declared (declared_type_of typeAnnotation)
                  then cast_value value0 (declared_type_of typeAnnotation)
                  else narrow value0))
        (λ value, bind (scope_set_variable (current_scope i1) x value false)
                    (λ _, ret VNone)) i1 = (Done VNone, i')).
    { rewrite Hconv. unfold ok. cbn [lift]. norm. unfold bind.
      by rewrite scope_set_variable_eq, Hs. }
    destruct Hfree as [Hctx|[Hp Hh]].
    + destruct parentCtx; [| |done]; cbn; norm; exact Hstore.
    + destruct (negb _); norm; [|exact Hstore].
      unfold scope_is_parameter. norm. rewrite Hp. cbn [lift_store]. norm.
      unfold scope_has_variable, deref. norm. rewrite Hs. cbn [lift_store].
      norm. rewrite Hh. norm. exact Hstore.
  - subst i'. unfold lookup_variable, scope_get_variable. norm.
    change (current_scope (written _ _ _ _ i1)) with (current_scope i1).
    by rewrite (get_variable_written_here _ _ _ _ _ _ Hs).
  - intros r Hr. cbn. by apply list_lookup_insert_ne.
  - intros y Hy. subst i'. unfold variables_of.
    rewrite (lookup_written _ _ _ _ _ Hs). cbn.
    by apply lookup_insert_ne.
Qed.

(** [Set x = 1] in a new interpreter, then [x]. *)
Lemma declaration_then_lookup_witness :
  lookup_variable "x"
    (written 0 (Scope.new None) "x" (VInt 1) (init false))
  = (Done (VInt 1), written 0 (Scope.new None) "x" (VInt 1) (init false)).
Proof.
  apply (declaration_then_lookup (rt := plain_runtime)
           (visit (rt := plain_runtime) 10) "x" None (expr (number 1))
           OtherContext (init false) (init false) (VInt 1) (VInt 1)
           (Scope.new None) eq_refl eq_refl eq_refl
           (or_intror (conj eq_refl eq_refl))).
Defined.

Lemma is_parameter_chain d (σ : Scope.store) c x :
  Scope.wf σ = true → (c < d)%nat → (c < length σ)%nat →
  Scope.is_parameter d σ c x
  = Some (existsb (is_parameter_of σ x) (Scope.chain d σ c)).
Proof.
  intros Hwf. revert c. induction d as [|d IH]; intros c Hd Hc; [lia|].
  cbn. destruct (lookup_lt_is_Some_2 σ c Hc) as [s Hs].
  unfold is_parameter_of at 1. rewrite Hs. cbn.
  destruct (bool_decide (x ∈ Scope.parameters s)); [done|]. cbn.
  destruct (Scope.parent s) as [p|] eqn:Ep; [|done].
  pose proof (wf_parent_lt _ _ _ _ Hwf Hs Ep). apply IH; [lia|lia].
Qed.

(** What a plain declaration [Set x = e] does once [e] has yielded a value,
    in a store whose parents come before their children.  Outside the
    initialiser and the update of a [for], it is refused with "Cannot
    redeclare parameter" exactly when [x] is a parameter of some scope on
    the chain of the current scope; failing that, it is refused with "is
    already declared in this scope" exactly when the current scope binds
    [x]; failing that, the value, converted to the declared type or
    narrowed, is stored in the current scope, or the error of the conversion
    is raised.  In the initialiser and in the update of a [for] neither
    test is made: the value is stored over a parameter or a binding of the
    current scope.  After a refusal the state is the one [e] left. *)
Theorem plain_declaration_is_checked {rt : Runtime} (v : tree → M value)
    (x : string) (typeAnnotation : option string) (expression : tree)
    (parentCtx : parent_kind) (i i1 : Interpreter) (value0 : value)
    (s : Scope.t) :
  v expression i = (Done value0, i1) →
  Scope.wf (scopes i1) = true →
  scopes i1 !! current_scope i1 = Some s →
  let stored :=
    match (if declared (declared_type_of typeAnnotation)
           then cast_value value0 (declared_type_of typeAnnotation)
           else narrow value0) with
    | inl e => (Raised e, i1)
    | inr value => (Done VNone, written (current_scope i1) s x value i1)
    end in
  visitVariableDeclarationOrAssignment v true None x typeAnnotation
    expression parentCtx i
  = match parentCtx with
    | OtherContext =>
        if existsb (is_parameter_of (scopes i1) x)
             (Scope.chain (S (current_scope i1)) (scopes i1)
                (current_scope i1))
        then (Raised (InterpreterError
                        ("Cannot redeclare parameter '" +:+ x +:+
                         "' in this scope")
                        "Parameters cannot be redeclared in the same function scope"),
              i1)
        else if Scope.has_variable x s
        then (Raised (InterpreterError
                        ("Variable '" +:+ x +:+
                         "' is already declared in this scope")
                        "Use reassignment syntax instead of redeclaration"),
              i1)
        else stored
    | ForInitContext | ForUpdateContext => stored
    end.
Proof.
  intros Hv Hwf Hs stored.
  assert (Hc : (current_scope i1 < length (scopes i1))%nat)
    by (by eapply lookup_lt_Some).
  assert (Hstore :
    bind (lift (if declared (declared_type_of typeAnnotation)
                then cast_value value0 (declared_type_of typeAnnotation)
                else narrow value0))
      (λ value, bind (scope_set_variable (current_scope i1) x value false)
                  (λ _, ret VNone)) i1 = stored).
  { subst stored.
    destruct (if declared (declared_type_of typeAnnotation)
              then cast_value value0 (declared_type_of typeAnnotation)
              else narrow value0) as [e|value]; cbn [lift]; norm; [done|].
    unfold bind. by rewrite scope_set_variable_eq, Hs. }
  unfold visitVariableDeclarationOrAssignment.
  rewrite (bind_done _ _ _ _ _ Hv). norm.
  destruct parentCtx; cbn [orb negb]; norm; [exact Hstore..|].
  unfold scope_is_parameter. norm.
  rewrite is_parameter_chain by (done || lia). cbn [lift_store]. norm.
  destruct (existsb _ _); norm; [done|].
  unfold scope_has_variable, deref. norm. rewrite Hs. cbn [lift_store].
  norm. destruct (Scope.has_variable x s); norm; [done|]. exact Hstore.
Qed.

(** [Set x = 2] in the state [Set x = 1] leaves: refused as a statement,
    stored as the initialiser of a [for]. *)
Lemma plain_declaration_is_checked_witness :
  visitVariableDeclarationOrAssignment (rt := plain_runtime)
    (visit (rt := plain_runtime) 10) true None "x" None (expr (number 2))
    OtherContext increment_declared_state
  = (Raised (InterpreterError
               "Variable 'x' is already declared in this scope"
               "Use reassignment syntax instead of redeclaration"),
     increment_declared_state)
  ∧ visitVariableDeclarationOrAssignment (rt := plain_runtime)
      (visit (rt := plain_runtime) 10) true None "x" None (expr (number 2))
      ForInitContext increment_declared_state
    = (Done VNone,
       written 0 {| Scope.variables := {["x"%string := VInt 1]};
                    Scope.parameters := ∅;
                    Scope.parent := None |}
         "x" (VInt 2) increment_declared_state).
Proof.
  split.
  - refine (eq_trans
              (plain_declaration_is_checked (rt := plain_runtime)
                 (visit (rt := plain_runtime) 10) "x" None
                 (expr (number 2)) OtherContext increment_declared_state
                 increment_declared_state (VInt 2)
                 {| Scope.variables := {["x"%string := VInt 1]};
                    Scope.parameters := ∅;
                    Scope.parent := None |} _ _ _) _);
      vm_compute; reflexivity.
  - refine (eq_trans
              (plain_declaration_is_checked (rt := plain_runtime)
                 (visit (rt := plain_runtime) 10) "x" None
                 (expr (number 2)) ForInitContext increment_declared_state
                 increment_declared_state (VInt 2)
                 {| Scope.variables := {["x"%string := VInt 1]};
                    Scope.parameters := ∅;
                    Scope.parent := None |} _ _ _) _);
      vm_compute; reflexivity.
Defined.

(** Outside the initialiser and the update of a [for] (where the test is
    not made), a plain declaration of [x] is rejected as soon as [x] is a
    parameter in some scope of the chain of the current scope: in a block
    nested in the body of the function, and in a function declared inside
    it, as well as in the body itself. *)
Theorem parameters_cannot_be_redeclared {rt : Runtime} (v : tree → M value)
    (x : string) (typeAnnotation : option string) (expression : tree)
    (i i1 : Interpreter) (value0 : value) (r : nat) (s : Scope.t) :
  v expression i = (Done value0, i1) →
  Scope.wf (scopes i1) = true →
  r ∈ Scope.chain (S (current_scope i1)) (scopes i1) (current_scope i1) →
  scopes i1 !! r = Some s →
  x ∈ Scope.parameters s →
  visitVariableDeclarationOrAssignment v true None x typeAnnotation
    expression OtherContext i
  = (Raised (InterpreterError
               ("Cannot redeclare parameter '" +:+ x +:+ "' in this scope")
               "Parameters cannot be redeclared in the same function scope"),
     i1).
Proof.
  intros Hv Hwf Hr Hs Hx.
  assert (Hc : (current_scope i1 < length (scopes i1))%nat).
  { destruct (decide (current_scope i1 < length (scopes i1))%nat);
      [done|].
    cbn in Hr. rewrite lookup_ge_None_2 in Hr by lia.
    apply list_elem_of_singleton in Hr as ->.
    rewrite lookup_ge_None_2 in Hs by lia. done. }
  unfold visitVariableDeclarationOrAssignment.
  rewrite (bind_done _ _ _ _ _ Hv). norm. cbn [orb negb]. norm.
  unfold scope_is_parameter. norm.
  rewrite is_parameter_chain by (done || lia).
  assert (existsb (is_parameter_of (scopes i1) x)
            (Scope.chain (S (current_scope i1)) (scopes i1)
               (current_scope i1)) = true) as ->.
  { apply existsb_exists. exists r. split; [by apply list_elem_of_In|].
    unfold is_parameter_of. rewrite Hs. by apply bool_decide_eq_true_2. }
  cbn [lift_store]. by norm.
Qed.

(** [Set p = 2] in a block of the body of [f(p)]. *)
Lemma parameters_cannot_be_redeclared_witness :
  visitVariableDeclarationOrAssignment (rt := plain_runtime)
    (visit (rt := plain_runtime) 10) true None "p" None (expr (number 2))
    OtherContext block_in_call_state
  = (Raised (InterpreterError
               "Cannot redeclare parameter 'p' in this scope"
               "Parameters cannot be redeclared in the same function scope"),
     block_in_call_state).
Proof.
  apply (parameters_cannot_be_redeclared (rt := plain_runtime)
           (visit (rt := plain_runtime) 10) "p" None (expr (number 2))
           block_in_call_state block_in_call_state (VInt 2) 1
           {| Scope.variables := {["p"%string := VInt 7]};
              Scope.parameters := {["p"%string]};
              Scope.parent := Some 0%nat |}).
  - vm_compute. reflexivity.
  - vm_compute. reflexivity.
  - refine (bool_decide_unpack _ _); vm_compute; exact I.
  - vm_compute. reflexivity.
  - refine (bool_decide_unpack _ _); vm_compute; exact I.
Defined.

Lemma get_variable_insert_nearest d (σ : Scope.store) c r s x v :
  Scope.nearest_binding d σ c x = Some (Some r) → σ !! r = Some s →
  Scope.get_variable d (<[r := Scope.set_variable x v false s]> σ) c x
  = Some (ok v).
Proof.
  intros Hn Hs. revert c Hn. induction d as [|d IH]; intros c Hn; [done|].
  rewrite get_variable_S. cbn in Hn.
  destruct (σ !! c) as [sc|] eqn:Ec; [|done]. cbn in Hn.
  destruct (decide (r = c)) as [->|Hne].
  - rewrite list_lookup_insert_eq by (by eapply lookup_lt_Some). cbn.
    by rewrite lookup_insert_eq.
  - rewrite list_lookup_insert_ne by done. rewrite Ec.
    destruct (Scope.has_variable x sc) eqn:Eh; [congruence|].
    unfold Scope.has_variable in Eh. apply bool_decide_eq_false in Eh.
    apply eq_None_not_Some in Eh. rewrite Eh.
    destruct (Scope.parent sc) as [p|]; [|done]. by apply IH.
Qed.

(** A plain assignment [x = e] writes the nearest scope of the chain that
    binds [x], with the value of [e] converted to the declared type if
    there is one; a lookup of [x] from the current scope then yields that
    value.  No other scope object and no other name of that scope is
    changed. *)
Theorem assignment_then_lookup {rt : Runtime} (v : tree → M value)
    (x : string) (typeAnnotation : option string) (expression : tree)
    (parentCtx : parent_kind) (i i1 : Interpreter) (value0 value : value)
    (target : nat) (s : Scope.t) :
  v expression i = (Done value0, i1) →
  (if declared (declared_type_of typeAnnotation)
   then cast_value value0 (declared_type_of typeAnnotation)
   else ok value0) = ok value →
  Scope.nearest_binding (S (current_scope i1)) (scopes i1) (current_scope i1) x
  = Some (Some target) →
  scopes i1 !! target = Some s →
  let i' := written target s x value i1 in
  visitVariableDeclarationOrAssignment v false None x typeAnnotation
    expression parentCtx i = (Done VNone, i')
  ∧ lookup_variable x i' = (Done value, i')
  ∧ (∀ r, r ≠ target → scopes i' !! r = scopes i1 !! r)
  ∧ (∀ y, y ≠ x → variables_of i' target !! y = Scope.variables s !! y).
Proof.
  intros Hv Hconv Hn Hs i'. subst i'. repeat split.
  - unfold visitVariableDeclarationOrAssignment.
    rewrite (bind_done _ _ _ _ _ Hv). norm.
    rewrite Hn. cbn [lift_store]. norm. rewrite Hconv. unfold ok.
    cbn [lift]. norm. unfold bind. by rewrite scope_set_variable_eq, Hs.
  - unfold lookup_variable, scope_get_variable. norm.
    change (current_scope (written _ _ _ _ i1)) with (current_scope i1).
    change (scopes (written target s x value i1))
      with (<[target := Scope.set_variable x value false s]> (scopes i1)).
    by rewrite (get_variable_insert_nearest _ _ _ _ _ _ _ Hn Hs).
  - intros r Hr. cbn. by apply list_lookup_insert_ne.
  - intros y Hy. unfold variables_of.
    rewrite (lookup_written _ _ _ _ _ Hs). cbn.
    by apply lookup_insert_ne.
Qed.

(** [x = 9] from the innermost of three scopes that each bind [x]. *)
Lemma assignment_then_lookup_witness :
  lookup_variable "x"
    (written 2
       {| Scope.variables := {["x"%string := VInt 2]};
          Scope.parameters := ∅;
          Scope.parent := Some 1%nat |}
       "x" (VInt 9) innermost_state)
  = (Done (VInt 9),
     written 2
       {| Scope.variables := {["x"%string := VInt 2]};
          Scope.parameters := ∅;
          Scope.parent := Some 1%nat |}
       "x" (VInt 9) innermost_state).
Proof.
  apply (assignment_then_lookup (rt := plain_runtime)
           (visit (rt := plain_runtime) 10) "x" None (expr (number 9))
           OtherContext innermost_state innermost_state (VInt 9) (VInt 9) 2
           {| Scope.variables := {["x"%string := VInt 2]};
              Scope.parameters := ∅;
              Scope.parent := Some 1%nat |});
    vm_compute; reflexivity.
Defined.

Lemma get_variable_nearest_binding d (σ : Scope.store) c x :
  Scope.get_variable d σ c x =
  match Scope.nearest_binding d σ c x with
  | Some (Some r) =>
      match σ !! r with
      | Some s => ok <$> Scope.variables s !! x
      | None => None
      end
  | Some None =>
      Some (err (Exception_
        ("Variable '" +:+ x +:+ "' not found in any scope")))
  | None => None
  end.
Proof.
  revert c. induction d as [|d IH]; intros c; [done|].
  rewrite get_variable_S. cbn.
  destruct (σ !! c) as [s|] eqn:E; [|done]. cbn.
  unfold Scope.has_variable.
  destruct (Scope.variables s !! x) as [w|] eqn:Ex.
  - rewrite bool_decide_eq_true_2 by done. by rewrite E, Ex.
  - rewrite bool_decide_eq_false_2 by (by apply eq_None_not_Some).
    destruct (Scope.parent s); [apply IH | done].
Qed.

(** When no scope of the chain binds [x], reading [x] raises
    "not found in any scope", the plain assignment [x = e] is rejected with
    "not declared in this scope", and a compound assignment to [x] raises
    "not defined."; the last two after the expression was evaluated. *)
Theorem unbound_name_fails_everywhere {rt : Runtime} (v : tree → M value)
    (x : string) (i i1 : Interpreter) :
  Scope.nearest_binding (S (current_scope i1)) (scopes i1) (current_scope i1) x
  = Some None →
  lookup_variable x i1
  = (Raised (Exception_ ("Variable '" +:+ x +:+ "' not found in any scope")),
     i1)
  ∧ (∀ typeAnnotation expression parentCtx value0,
      v expression i = (Done value0, i1) →
      visitVariableDeclarationOrAssignment v false None x typeAnnotation
        expression parentCtx i
      = (Raised (InterpreterError
                   ("Variable '" +:+ x +:+ "' not declared in this scope")
                   "Declare the variable with 'Set' before assigning to it"),
         i1))
  ∧ (∀ op expression value0,
      v expression i = (Done value0, i1) →
      visitReassignment v x op expression i
      = (Raised (Exception_ ("Variable '" +:+ x +:+ "' not defined.")), i1)).
Proof.
  intros Hn. repeat split.
  - unfold lookup_variable, scope_get_variable. norm.
    by rewrite get_variable_nearest_binding, Hn.
  - intros typeAnnotation expression parentCtx value0 Hv.
    unfold visitVariableDeclarationOrAssignment.
    rewrite (bind_done _ _ _ _ _ Hv). norm. rewrite Hn. by norm.
  - intros op expression value0 Hv. unfold visitReassignment.
    rewrite (bind_done _ _ _ _ _ Hv). norm. rewrite Hn. by norm.
Qed.

(** [z] in the scopes of [three_scopes_program]. *)
Lemma unbound_name_fails_everywhere_witness :
  lookup_variable "z" innermost_state
  = (Raised (Exception_ "Variable 'z' not found in any scope"),
     innermost_state).
Proof.
  apply (unbound_name_fails_everywhere (rt := plain_runtime)
           (visit (rt := plain_runtime) 10) "z" innermost_state
           innermost_state).
  vm_compute. reflexivity.
Defined.

Lemma ancestor_insert levels (σ : Scope.store) r s s' c :
  σ !! r = Some s → Scope.parent s' = Scope.parent s →
  Scope.ancestor levels (<[r := s']> σ) c = Scope.ancestor levels σ c.
Proof.
  intros Hs Hp. revert c. induction levels as [|l IH]; intros c; [done|].
  rewrite !ancestor_S.
  destruct (decide (r = c)) as [->|Hne].
  - rewrite list_lookup_insert_eq by (by eapply lookup_lt_Some).
    rewrite Hs, Hp. destruct (Scope.parent s); [apply IH | done].
  - rewrite list_lookup_insert_ne by done.
    destruct (σ !! c) as [sc|]; [|done].
    destruct (Scope.parent sc); [apply IH | done].
Qed.

(** A write through an explicit-parent target that ends with a value is read
    back by a scoped identifier with the same number of levels: the read
    yields the value that was stored, and the current scope is the one the
    expression left. *)
Theorem explicit_parent_write_then_read {rt : Runtime} (v : tree → M value)
    (SET : bool) (scoped_name identifier : string)
    (typeAnnotation : option string) (expression : tree)
    (parentCtx : parent_kind) (i i' : Interpreter) (r : value) :
  visitVariableDeclarationOrAssignment v SET (Some scoped_name) identifier
    typeAnnotation expression parentCtx i = (Done r, i') →
  let parts := split_colons scoped_name [] in
  let name := List.last parts ""%string in
  let levels := (length parts - 1)%nat in
  ∃ value0 i1 value,
    v expression i = (Done value0, i1)
    ∧ (if declared (declared_type_of typeAnnotation)
       then cast_value value0 (declared_type_of typeAnnotation)
       else narrow value0) = ok value
    ∧ visitScopedIdentifier levels name i' = (Done value, i')
    ∧ current_scope i' = current_scope i1.
Proof.
  intros Hrun parts name levels. revert Hrun.
  unfold visitVariableDeclarationOrAssignment.
  unfold bind at 1. destruct (v expression i) as [[value0| e | |] i1] eqn:Hv;
    [|done..].
  unfold bind at 1.
  destruct (if declared _ then _ else _) as [e|value] eqn:Hconv;
    cbn [lift]; [done|]. cbn [ret].
  unfold resolve_scope_for_assignment.
  fold parts. fold levels. fold name. norm.
  destruct (Scope.ancestor levels (scopes i1) (current_scope i1))
    as [[target|]|] eqn:Ha; cbn [lift_store]; norm; [|done..].
  assert (Hwrite : ∀ j,
    bind (scope_set_variable target name value false) (λ _, ret VNone) i1
    = (Done r, j) →
    visitScopedIdentifier levels name j = (Done value, j)
    ∧ current_scope j = current_scope i1).
  { intros j. unfold bind. rewrite scope_set_variable_eq.
    destruct (scopes i1 !! target) as [s|] eqn:Hs; [|done].
    intros [= _ <-]. split; [|done].
    unfold visitScopedIdentifier. norm.
    change (current_scope (set_scopes _ i1)) with (current_scope i1).
    change (scopes (set_scopes ?σ i1)) with σ.
    rewrite (ancestor_insert _ _ _ s) by done. rewrite Ha.
    cbn [lift_store]. norm.
    unfold scope_get_variable. norm.
    change (scopes (set_scopes ?σ i1)) with σ.
    rewrite get_variable_S.
    rewrite list_lookup_insert_eq by (by eapply lookup_lt_Some). cbn.
    by rewrite lookup_insert_eq. }
  destruct SET.
  - unfold _variable_exists_in_child_scopes. norm.
    destruct (Scope.exists_in_child_scopes _ _ _ _ _) as [[|]|];
      cbn [lift_store]; norm; [done| |done].
    intros Hrun. destruct (Hwrite _ Hrun). by eexists _, _, _.
  - norm. intros Hrun. destruct (Hwrite _ Hrun). by eexists _, _, _.
Qed.

(** [parent::x = 7] from the innermost of three scopes, then
    [parent::x]. *)
Lemma explicit_parent_write_then_read_witness :
  ∃ value0 i1 value,
    visit (rt := plain_runtime) 10 (expr (number 7)) innermost_state
    = (Done value0, i1)
    ∧ narrow value0 = ok value
    ∧ visitScopedIdentifier 1 "x"
        (snd (visitVariableDeclarationOrAssignment (rt := plain_runtime)
                (visit (rt := plain_runtime) 10) false
                (Some "parent::x"%string) "" None (expr (number 7))
                OtherContext innermost_state))
      = (Done value,
         snd (visitVariableDeclarationOrAssignment (rt := plain_runtime)
                (visit (rt := plain_runtime) 10) false
                (Some "parent::x"%string) "" None (expr (number 7))
                OtherContext innermost_state))
    ∧ current_scope
        (snd (visitVariableDeclarationOrAssignment (rt := plain_runtime)
                (visit (rt := plain_runtime) 10) false
                (Some "parent::x"%string) "" None (expr (number 7))
                OtherContext innermost_state))
      = current_scope i1.
Proof.
  apply (explicit_parent_write_then_read (rt := plain_runtime)
           (visit (rt := plain_runtime) 10) false "parent::x" "" None
           (expr (number 7)) OtherContext innermost_state _ VNone).
  vm_compute. reflexivity.
Defined.

(** [set_var] walks from the global scope, which has no parent: it binds
    the name in the global scope whatever the current scope is.  [get_var]
    reads through the chain of the current scope: it sees the write from
    the global scope, and not from a scope that binds the name itself. *)
Theorem set_var_writes_the_global_scope (name : string) (value : value)
    (i : Interpreter) (g : Scope.t) :
  scopes i !! global_scope i = Some g →
  Scope.parent g = None →
  let i' := written (global_scope i) g name value i in
  set_var name value i = (Done tt, i')
  ∧ (current_scope i = global_scope i → get_var name i' = (Done value, i'))
  ∧ (∀ s w, current_scope i ≠ global_scope i →
            scopes i !! current_scope i = Some s →
            Scope.variables s !! name = Some w →
            get_var name i' = (Done w, i')).
Proof.
  intros Hg Hp i'. subst i'. repeat split.
  - unfold set_var. norm. cbn. rewrite Hg. cbn. rewrite Hp.
    destruct (Scope.has_variable name g); cbn [lift_store]; norm;
      by rewrite scope_set_variable_eq, Hg.
  - intros Hc. unfold get_var, scope_get_variable. norm.
    change (current_scope (written _ _ _ _ i)) with (current_scope i).
    rewrite Hc. by rewrite (get_variable_written_here _ _ _ _ _ _ Hg).
  - intros s w Hc Hs Hw. unfold get_var, scope_get_variable. norm.
    change (current_scope (written _ _ _ _ i)) with (current_scope i).
    rewrite get_variable_S. cbn.
    rewrite list_lookup_insert_ne by done. by rewrite Hs, Hw.
Qed.

(** [set_var("x", 5)] from the innermost of three scopes that each bind
    [x]. *)
Lemma set_var_writes_the_global_scope_witness :
  set_var "x" (VInt 5) innermost_state
  = (Done tt,
     written 0
       {| Scope.variables := {["x"%string := VInt 0]};
          Scope.parameters := ∅;
          Scope.parent := None |}
       "x" (VInt 5) innermost_state).
Proof.
  apply (set_var_writes_the_global_scope "x" (VInt 5) innermost_state
           {| Scope.variables := {["x"%string := VInt 0]};
              Scope.parameters := ∅;
              Scope.parent := None |});
    vm_compute; reflexivity.
Defined.

(** ** Functions and calls *)

Lemma parameter_names_ok (l l' : list string) (seen : gset string) :
  parameter_names l seen = ok l' ↔
  l' = l ∧ NoDup l ∧ (∀ x, x ∈ l → x ∉ seen).
Proof.
  revert l' seen. induction l as [|p l IH]; intros l' seen; cbn.
  - split.
    + intros [= <-]. repeat split; [constructor|]. intros x Hx.
      by apply elem_of_nil in Hx.
    + by intros (-> & _).
  - destruct (bool_decide (p ∈ seen)) eqn:Ep.
    + apply bool_decide_eq_true in Ep. split; [done|].
      intros (_ & _ & Hseen). destruct (Hseen p); [left | done].
    + apply bool_decide_eq_false in Ep.
      destruct (parameter_names l ({[p]} ∪ seen)) as [e|l0] eqn:E; cbn.
      * split; [done|]. intros (-> & Hnd & Hseen).
        apply NoDup_cons in Hnd as [Hp Hnd].
        assert (parameter_names l ({[p]} ∪ seen) = ok l) as Hok.
        { apply IH. repeat split; [done|]. intros x Hx.
          apply not_elem_of_union. split.
          - apply not_elem_of_singleton. by intros ->.
          - apply Hseen. by right. }
        by rewrite E in Hok.
      * apply IH in E as (-> & Hnd & Hseen). split.
        -- intros [= <-]. repeat split.
           ++ apply NoDup_cons. split; [|done]. intros Hp.
              apply (Hseen p Hp). apply elem_of_union. left.
              by apply elem_of_singleton.
           ++ intros x Hx. apply elem_of_cons in Hx as [->|Hx]; [done|].
              intros Hs. apply (Hseen x Hx). apply elem_of_union. by right.
        -- by intros (-> & _).
Qed.

(** The parameter loop of a function declaration accepts a list of names
    exactly when no name occurs twice, and then keeps the list as it is: a
    declared function has distinct parameters; a declaration with a
    repeated parameter raises an [InterpreterError] and leaves the state as
    it was. *)
Theorem parameter_names_are_distinct :
  (∀ l l', parameter_names l ∅ = ok l' ↔ l' = l ∧ NoDup l)
  ∧ (∀ name l blockStatement i i',
      visitFunctionDeclaration name (Some l) blockStatement i
      = (Done VNone, i') →
      ∃ func, functions i' !! name = Some func
              ∧ params func = l ∧ NoDup (params func))
  ∧ (∀ name l blockStatement i o i',
      ¬ NoDup l →
      visitFunctionDeclaration name (Some l) blockStatement i = (o, i') →
      i' = i ∧ ∃ message suggestion,
                 o = Raised (InterpreterError message suggestion)).
Proof.
  assert (H0 : ∀ l l', parameter_names l ∅ = ok l' ↔ l' = l ∧ NoDup l).
  { intros l l'. rewrite parameter_names_ok. split.
    - by intros (-> & ? & _).
    - intros (-> & ?). repeat split; [done|]. intros x _.
      apply not_elem_of_empty. }
  split; [exact H0|]. split.
  - intros name l blockStatement i i'.
    unfold visitFunctionDeclaration. norm.
    destruct (bool_decide _); norm; [done|]. unfold bind at 1.
    destruct (parameter_names l ∅) as [e|l'] eqn:E; cbn [lift]; [done|].
    apply H0 in E as (-> & Hnd). cbn [ret]. norm.
    intros [= <-]. eexists. cbn. rewrite lookup_insert_eq. done.
  - intros name l blockStatement i o i' Hnd.
    unfold visitFunctionDeclaration. norm.
    destruct (bool_decide _); norm; [intros [= <- <-]; eauto|].
    unfold bind at 1.
    destruct (parameter_names l ∅) as [e|l'] eqn:E; cbn [lift].
    + intros [= <- <-]. split; [done|].
      clear -E. revert E. generalize (∅ : gset string).
      induction l as [|p l IH]; intros seen; cbn; [done|].
      destruct (bool_decide _); [intros [= <-]; eauto|].
      destruct (parameter_names l _) as [e'|] eqn:E'; cbn; [|done].
      intros [= <-]. eauto.
    + apply H0 in E as (_ & ?). done.
Qed.

Lemma bind_parameters_lookup param_names args s k p a :
  NoDup param_names →
  param_names !! k = Some p → args !! k = Some a →
  Scope.variables (bind_parameters param_names args s) !! p = Some a.
Proof.
  revert args s k.
  induction param_names as [|p0 ps IH]; intros [|a0 args] s k Hnd Hp Ha;
    try done.
  apply NoDup_cons in Hnd as [Hp0 Hnd].
  destruct k as [|k]; cbn in Hp, Ha.
  - injection Hp as ->. injection Ha as ->.
    change (bind_parameters (p :: ps) (a :: args) s)
      with (bind_parameters ps args (Scope.set_variable p a true s)).
    rewrite bind_parameters_other by done. cbn. by rewrite lookup_insert_eq.
  - change (bind_parameters (p0 :: ps) (a0 :: args) s)
      with (bind_parameters ps args (Scope.set_variable p0 a0 true s)).
    by eapply IH.
Qed.

Lemma bind_parameters_parameters param_names args s p :
  length param_names = length args →
  p ∈ Scope.parameters (bind_parameters param_names args s)
  ↔ p ∈ param_names ∨ p ∈ Scope.parameters s.
Proof.
  revert args s.
  induction param_names as [|p0 ps IH]; intros [|a0 args] s Hlen; try done.
  - cbn. split; [auto|]. intros [H|H]; [by apply elem_of_nil in H | done].
  - change (bind_parameters (p0 :: ps) (a0 :: args) s)
      with (bind_parameters ps args (Scope.set_variable p0 a0 true s)).
    rewrite IH by (cbn in Hlen; lia). cbn.
    rewrite elem_of_cons, elem_of_union, elem_of_singleton. tauto.
Qed.

(** In the scope made for a call, the parameters are bound to the arguments
    by position, each is recorded as a parameter, and nothing else is
    bound. *)
Theorem call_binds_parameters (name : string) (func : Function)
    (args : list value) (i : Interpreter) :
  NoDup (params func) →
  length (params func) = length args →
  let j := call_entry name func args i in
  (∀ k p a, params func !! k = Some p → args !! k = Some a →
            scope_get_variable (current_scope j) p j = (Done a, j))
  ∧ (∀ p, p ∈ params func →
          scope_is_parameter (current_scope j) p j = (Done true, j))
  ∧ (∀ x s, x ∉ params func →
            scopes j !! current_scope j = Some s →
            Scope.has_variable x s = false).
Proof.
  intros Hnd Hlen j.
  assert (Hj : scopes j !! current_scope j
               = Some (bind_parameters (params func) args
                         (Scope.new (Some (scope func))))).
  { cbn. by rewrite lookup_app_r, Nat.sub_diag. }
  repeat split.
  - intros k p a Hp Ha. unfold scope_get_variable. norm.
    rewrite get_variable_S, Hj.
    by rewrite (bind_parameters_lookup _ _ _ k p a).
  - intros p Hin. unfold scope_is_parameter. norm.
    cbn [Scope.is_parameter]. rewrite Hj. cbn -[bind_parameters].
    rewrite bool_decide_eq_true_2; [done|].
    apply bind_parameters_parameters; auto.
  - intros x s Hx. rewrite Hj. intros [= <-].
    unfold Scope.has_variable. rewrite bind_parameters_other by done.
    cbn. rewrite lookup_empty. apply bool_decide_eq_false_2.
    by intros [? ?].
Qed.

(** [b] in the scope of the call [f(1, 2)] of [f(a, b)]. *)
Lemma call_binds_parameters_witness :
  scope_get_variable 1 "b"
    (call_entry "f"
       {| params := ["a"%string; "b"%string]; body := BlockStatement [];
          scope := 0 |}
       [VInt 1; VInt 2] (init false))
  = (Done (VInt 2),
     call_entry "f"
       {| params := ["a"%string; "b"%string]; body := BlockStatement [];
          scope := 0 |}
       [VInt 1; VInt 2] (init false)).
Proof.
  apply (proj1 (call_binds_parameters "f"
                  {| params := ["a"%string; "b"%string];
                     body := BlockStatement []; scope := 0 |}
                  [VInt 1; VInt 2] (init false)
                  ltac:(refine (bool_decide_unpack _ _); vm_compute; exact I)
                  eq_refl) 1%nat "b"%string (VInt 2) eq_refl eq_refl).
Defined.

(** ** Loops, conditions and logic *)

Lemma for_loop_done (v : tree → M value) fuel cond forUpdate forBody i r i' :
  for_loop v fuel cond forUpdate forBody i = (Done r, i') → r = VNone.
Proof.
  revert i. induction fuel as [|n IH]; intros i; [done|]. cbn.
  unfold bind at 1. destruct (v cond i) as [[c| e | |] i1]; [|done..].
  destruct (truthy c); [|by intros [= <-]].
  unfold bind at 1. rewrite push_env_eq. unfold bind at 1.
  destruct (visit_opt v forBody (pushed i1)) as [[result| e | |] i2];
    [|done..].
  destruct (isinstance_BreakStatement result).
  - unfold bind at 1. destruct (pop_env i2) as [[[]| e | |] i3]; [|done..].
    by intros [= <-].
  - unfold bind at 1. destruct (pop_env i2) as [[[]| e | |] i3]; [|done..].
    unfold bind at 1. destruct (v cond i3) as [[c'| e | |] i4]; [|done..].
    unfold bind at 1.
    destruct (truthy c').
    + unfold bind at 1.
      destruct (visit_opt v forUpdate i4) as [[u| e | |] i5]; [|done..].
      cbn [ret]. apply IH.
    + cbn [ret]. apply IH.
Qed.

(** A [for] loop yields [None] whenever it ends with a value, in the scope
    it started in.  A turn, taken when the condition holds, visits the body
    in a new scope and pops it; the loop stops there when the body yields
    the [BreakStatement] instance, and otherwise goes on whatever the body
    yielded: the condition is visited again, and the update is visited only
    if it holds.  The loop ends when the condition fails. *)
Theorem for_loop_turn {rt : Runtime} (k : nat) (forInit : option tree)
    (cond : tree) (forUpdate forBody : option tree) :
  (∀ i, visit (S k) (ForLoop forInit cond forUpdate forBody) i
        = visitForLoop (visit k) k forInit cond forUpdate forBody i)
  ∧ (∀ i r i', visit (S k) (ForLoop forInit cond forUpdate forBody) i
               = (Done r, i') →
               r = VNone ∧ current_scope i' = current_scope i)
  ∧ (∀ n i c i1 result i2,
      visit k cond i = (Done c, i1) → truthy c = true →
      visit_opt (visit k) forBody (pushed i1) = (Done result, i2) →
      let i3 := set_current_scope (current_scope i) i2 in
      for_loop (visit k) (S n) cond forUpdate forBody i =
      if isinstance_BreakStatement result then (Done VNone, i3)
      else
        match visit k cond i3 with
        | (Done c', i4) =>
            if truthy c' then
              match visit_opt (visit k) forUpdate i4 with
              | (Done _, i5) => for_loop (visit k) n cond forUpdate forBody i5
              | (Raised e, i5) => (Raised e, i5)
              | (OutOfFuel, i5) => (OutOfFuel, i5)
              | (Stuck, i5) => (Stuck, i5)
              end
            else for_loop (visit k) n cond forUpdate forBody i4
        | (Raised e, i4) => (Raised e, i4)
        | (OutOfFuel, i4) => (OutOfFuel, i4)
        | (Stuck, i4) => (Stuck, i4)
        end)
  ∧ (∀ n i c i1,
      visit k cond i = (Done c, i1) → truthy c = false →
      for_loop (visit k) (S n) cond forUpdate forBody i = (Done VNone, i1)).
Proof.
  split; [done|]. split; [|split].
  - intros i r i' Hrun. split; revert Hrun.
    + cbn [visit accept]. unfold visitForLoop.
      unfold bind at 1.
      destruct forInit as [init|].
      * unfold bind at 1.
        destruct (visit k init i) as [[u| e | |] i1]; [|done..].
        cbn [ret]. apply for_loop_done.
      * cbn [ret].
      apply for_loop_done.
    + intros Hrun.
      destruct (balanced_visit (S k) _ _ _ _ Hrun) as [_ Hc]. by eapply Hc.
  - intros n i c i1 result i2 Hc Ht Hbody i3. cbn [for_loop].
    rewrite (bind_done _ _ _ _ _ Hc), Ht.
    unfold bind at 1. rewrite push_env_eq.
    rewrite (bind_done _ _ _ _ _ Hbody).
    assert (Hb : balanced (visit_opt (visit k) forBody)).
    { destruct forBody; cbn; [apply balanced_visit | apply balanced_raise]. }
    destruct (Hb _ _ _ Hbody) as [He Hcur]. specialize (Hcur _ eq_refl).
    destruct (balanced_visit k cond _ _ _ Hc) as [_ Hcur1].
    specialize (Hcur1 _ eq_refl).
    assert (Hpop : pop_env i2 = (Done tt, i3)).
    { subst i3. rewrite <- Hcur1. apply pop_env_pushed_from.
      eapply pushed_from_ext; [apply pushed_from_pushed | done | done]. }
    destruct (isinstance_BreakStatement result).
    + by rewrite (bind_done _ _ _ _ _ Hpop).
    + rewrite (bind_done _ _ _ _ _ Hpop). unfold bind at 1.
      destruct (visit k cond i3) as [[c'| e | |] i4]; [|done..].
      unfold bind at 1. destruct (truthy c'); [|done].
      unfold bind at 1.
      by destruct (visit_opt (visit k) forUpdate i4) as [[u| e | |] i5].
  - intros n i c i1 Hc Ht. cbn [for_loop].
    by rewrite (bind_done _ _ _ _ _ Hc), Ht.
Qed.

(** [or] visits its operands in order up to the first one that is true and
    yields [True] there, the later operands not being visited; it yields
    [False] when all are false.  [and] is the dual.  Both yield a [bool],
    not the operand. *)
Theorem logic_operators_short_circuit (v : tree → M value) :
  (∀ before b after i vs i1 c i2,
      map_M v before i = (Done vs, i1) →
      Forall (λ x, truthy x = false) vs →
      v b i1 = (Done c, i2) → truthy c = true →
      visitLogicOr v (before ++ b :: after) i = (Done (VBool true), i2))
  ∧ (∀ operands i vs i1,
      map_M v operands i = (Done vs, i1) →
      Forall (λ x, truthy x = false) vs →
      visitLogicOr v operands i = (Done (VBool false), i1))
  ∧ (∀ before b after i vs i1 c i2,
      map_M v before i = (Done vs, i1) →
      Forall (λ x, truthy x = true) vs →
      v b i1 = (Done c, i2) → truthy c = false →
      visitLogicAnd v (before ++ b :: after) i = (Done (VBool false), i2))
  ∧ (∀ operands i vs i1,
      map_M v operands i = (Done vs, i1) →
      Forall (λ x, truthy x = true) vs →
      visitLogicAnd v operands i = (Done (VBool true), i1))
  ∧ (∀ operands i r i',
      visitLogicOr v operands i = (Done r, i')
      ∨ visitLogicAnd v operands i = (Done r, i') →
      isinstance_bool r = true).
Proof.
  assert (Hmap : ∀ (l : list tree) x i vs i1,
    map_M v (x :: l) i = (Done vs, i1) →
    ∃ y ys i0, v x i = (Done y, i0) ∧ map_M v l i0 = (Done ys, i1)
               ∧ vs = y :: ys).
  { intros l x i vs i1. cbn. unfold bind at 1.
    destruct (v x i) as [[y| e | |] i0] eqn:Ex; [|done..].
    unfold bind at 1.
    destruct (map_M v l i0) as [[ys| e | |] i3] eqn:El; [|done..].
    intros [= <- <-]. by exists y, ys, i0. }
  repeat split.
  - intros before. induction before as [|x l IH];
      intros b after i vs i1 c i2 Hm Hf Hb Ht.
    + injection Hm as <- <-. cbn.
      by rewrite (bind_done _ _ _ _ _ Hb), Ht.
    + apply Hmap in Hm as (y & ys & i0 & Hx & Hl & ->).
      apply Forall_cons in Hf as [Hy Hys]. cbn.
      rewrite (bind_done _ _ _ _ _ Hx), Hy. by eapply IH.
  - intros operands. induction operands as [|x l IH]; intros i vs i1 Hm Hf.
    + by injection Hm as <- <-.
    + apply Hmap in Hm as (y & ys & i0 & Hx & Hl & ->).
      apply Forall_cons in Hf as [Hy Hys]. cbn.
      rewrite (bind_done _ _ _ _ _ Hx), Hy. by eapply IH.
  - intros before. induction before as [|x l IH];
      intros b after i vs i1 c i2 Hm Hf Hb Ht.
    + injection Hm as <- <-. cbn.
      by rewrite (bind_done _ _ _ _ _ Hb), Ht.
    + apply Hmap in Hm as (y & ys & i0 & Hx & Hl & ->).
      apply Forall_cons in Hf as [Hy Hys]. cbn.
      rewrite (bind_done _ _ _ _ _ Hx), Hy. by eapply IH.
  - intros operands. induction operands as [|x l IH]; intros i vs i1 Hm Hf.
    + by injection Hm as <- <-.
    + apply Hmap in Hm as (y & ys & i0 & Hx & Hl & ->).
      apply Forall_cons in Hf as [Hy Hys]. cbn.
      rewrite (bind_done _ _ _ _ _ Hx), Hy. by eapply IH.
  - intros operands. induction operands as [|x l IH]; intros i r i' [H|H].
    + by injection H as <- <-.
    + by injection H as <- <-.
    + cbn in H. unfold bind at 1 in H.
      destruct (v x i) as [[y| e | |] i0]; [|done..].
      destruct (truthy y); [by injection H as <- <- | eauto].
    + cbn in H. unfold bind at 1 in H.
      destruct (v x i) as [[y| e | |] i0]; [|done..].
      destruct (negb (truthy y)); [by injection H as <- <- | eauto].
Qed.

(** ** Recorded output *)

(** A statement that is a function call with a result other than [None]
    records the line "Result: ..." and yields the result; at the top level
    of a program the result is then recorded again on a line of its own. *)
Theorem call_statement_is_recorded_twice {rt : Runtime} (k : nat)
    (name : string) (argumentList : option (list tree))
    (i i1 : Interpreter) (r : value) :
  visit k (FunctionCall name argumentList) i = (Done r, i1) →
  is_None r = false →
  let recorded := set_output_lines
                    (output_lines i1 ++ ["Result: " +:+ py_str r]) i1 in
  visit (S k) (Statement (FunctionCall name argumentList)) i
  = (Done r, recorded)
  ∧ (isinstance_BreakStatement r = false →
     let lines := output_lines i1 ++ ["Result: " +:+ py_str r; py_str r] in
     visit (S (S k)) (Program [Statement (FunctionCall name argumentList)]) i
     = (Done (VList (VStr <$> lines)), set_output_lines lines i1)).
Proof.
  intros Hcall Hr recorded.
  assert (Hstmt : visit (S k) (Statement (FunctionCall name argumentList)) i
                  = (Done r, recorded)).
  { cbn [visit accept]. unfold visitStatement.
    rewrite (bind_done _ _ _ _ _ Hcall). rewrite Hr. cbn [negb andb].
    unfold output_lines_append. by norm. }
  split; [done|]. intros Hb lines.
  change (visit (S (S k)) (Program ?l) i)
    with (visitProgram (visit (S k)) l i).
  unfold visitProgram. cbn [for_each]. norm.
  rewrite (bind_done _ _ _ _ _ Hstmt). rewrite Hr, Hb. cbn [negb andb].
  unfold output_lines_append. norm. subst recorded lines. cbn.
  by rewrite <- app_assoc.
Qed.

(** The program [g()] in the state where [g] returns 5. *)
Lemma call_statement_is_recorded_twice_witness :
  visit (rt := plain_runtime) 12
    (Program [Statement (FunctionCall "g" None)]) last_statement_state
  = (Done (VList [VStr "Result: 5"; VStr "5"]),
     set_output_lines ["Result: 5"%string; "5"%string]
       (snd (visit (rt := plain_runtime) 10 (FunctionCall "g" None)
               last_statement_state))).
Proof.
  apply (proj2 (call_statement_is_recorded_twice (rt := plain_runtime) 10
                  "g" None last_statement_state
                  (snd (visit (rt := plain_runtime) 10 (FunctionCall "g" None)
                          last_statement_state))
                  (VInt 5) ltac:(vm_compute; reflexivity) eq_refl) eq_refl).
Defined.

(** ** Compound assignments and casts *)




Lemma int_of_float_of_bool (b : bool) :
  res_bind (float_of_int (Z.b2z b)) int_of_float = ok (if b then 1 else 0).
Proof. destruct b; vm_compute; reflexivity. Qed.

(** For the types [int], [float], [bool] and [string], whatever the case of
    the letters, a cast expression yields what [cast_value] yields.  They
    differ on failures only: a [ValueError] becomes an [Exception] with the
    message "Cannot cast ...".  Any other type, [matrix] included, is
    rejected by the cast expression. *)
Theorem cast_expression_agrees_with_cast_value {rt : Runtime}
    (v : tree → M value) (typeAnnotation : string) (factor : tree)
    (i i1 : Interpreter) (value : value) :
  v factor i = (Done value, i1) →
  let t := lower typeAnnotation in
  (t = "int"%string ∨ t = "float"%string ∨ t = "bool"%string
   ∨ t = "string"%string →
   visitCastExpression v typeAnnotation factor i
   = match cast_value value (Some t) with
     | inr w => (Done w, i1)
     | inl ValueError =>
         (Raised (Exception_
                    ("Cannot cast " +:+ py_str value +:+ " to " +:+ t)), i1)
     | inl e => (Raised e, i1)
     end)
  ∧ (t ≠ "int"%string → t ≠ "float"%string → t ≠ "bool"%string →
     t ≠ "string"%string →
     visitCastExpression v typeAnnotation factor i
     = (Raised (Exception_ ("Unsupported cast type: " +:+ t)), i1)).
Proof.
  intros Hv t. split.
  - intros Ht. unfold visitCastExpression. fold t.
    rewrite (bind_done _ _ _ _ _ Hv).
    destruct Ht as [-> | [-> | [-> | ->]]]; cbn [String.eqb Ascii.eqb
      Bool.eqb cast_value].
    + destruct value as [| |z|f|b|s|l]; cbn [py_float res_bind]; unfold ok;
        cbn [res_bind]; try reflexivity.
      * destruct (float_of_int z) as [[]|f]; cbn [res_bind];
          try reflexivity.
        destruct (int_of_float f) as [[]|n]; reflexivity.
      * destruct (int_of_float f) as [[]|n]; reflexivity.
      * pose proof (int_of_float_of_bool b) as Hb.
        destruct (float_of_int (Z.b2z b)) as [e|f]; cbn [res_bind] in *;
          [done|]. rewrite Hb. reflexivity.
      * destruct (float_of_str s) as [f|]; cbn [res_bind];
          [|reflexivity].
        destruct (int_of_float f) as [[]|n]; reflexivity.
    + destruct value as [| |z|f|b|s|l]; cbn [py_float res_bind]; unfold ok;
        cbn [res_bind]; try reflexivity.
      * destruct (float_of_int z) as [[]|f]; reflexivity.
      * destruct (float_of_int (Z.b2z b)) as [[]|f]; reflexivity.
      * destruct (float_of_str s) as [f|]; reflexivity.
    + destruct value; reflexivity.
    + reflexivity.
  - intros H1 H2 H3 H4. unfold visitCastExpression. fold t.
    rewrite (bind_done _ _ _ _ _ Hv).
    apply String.eqb_neq in H1, H2, H3, H4. by rewrite H1, H2, H3, H4.
Qed.

(** The cast of [2.5] to [INT] is 2. *)
Lemma cast_expression_agrees_with_cast_value_witness :
  visitCastExpression (rt := plain_runtime) (visit (rt := plain_runtime) 10)
    "INT" (decimal 25 1) (init false)
  = (Done (VInt 2), init false).
Proof.
  apply (proj1 (cast_expression_agrees_with_cast_value (rt := plain_runtime)
                  (visit (rt := plain_runtime) 10) "INT" (decimal 25 1)
                  (init false) (init false) (VFloat 2.5)
                  ltac:(vm_compute; reflexivity)) (or_introl eq_refl)).
Defined.

(** ** Transposition *)

Lemma res_map_ok {A B} (f : A → res B) (g : A → B) (l : list A) :
  (∀ x, x ∈ l → f x = ok (g x)) → res_map f l = ok (g <$> l).
Proof.
  induction l as [|x l IH]; intros Hf; [done|]. cbn.
  rewrite Hf by left. cbn. rewrite IH; [done|].
  intros y Hy. apply Hf. by right.
Qed.

Lemma getitem_matrix {rt : Runtime} (m : list (list value)) i row :
  m !! i = Some row → py_getitem (matrix_value m) i = ok (VList row).
Proof.
  intros Hm. unfold py_getitem, matrix_value. cbn.
  by rewrite list_lookup_fmap, Hm.
Qed.

Lemma entry_lookup m i j row x :
  m !! i = Some row → row !! j = Some x → entry m i j = x.
Proof. intros Hm Hr. unfold entry. by rewrite Hm; cbn; rewrite Hr. Qed.

Lemma transposed_shape rows cols m :
  matrix_of_shape cols rows (transposed rows cols m).
Proof.
  split.
  - unfold transposed. by rewrite length_fmap, length_seq.
  - unfold transposed. apply Forall_fmap, Forall_forall. intros j _. cbn.
    by rewrite length_fmap, length_seq.
Qed.

Lemma entry_transposed rows cols m i j :
  (i < rows)%nat → (j < cols)%nat →
  entry (transposed rows cols m) j i = entry m i j.
Proof.
  intros Hi Hj. unfold entry at 1, transposed.
  rewrite list_lookup_fmap, lookup_seq_lt by done. cbn.
  rewrite list_lookup_fmap, lookup_seq_lt by done. done.
Qed.

Lemma transposed_involutive rows cols m :
  matrix_of_shape rows cols m →
  transposed cols rows (transposed rows cols m) = m.
Proof.
  intros [Hlen Hrows]. apply list_eq. intros a. unfold transposed at 1.
  rewrite list_lookup_fmap.
  destruct (decide (a < rows)%nat) as [Ha|Ha].
  - rewrite lookup_seq_lt by done. cbn.
    destruct (lookup_lt_is_Some_2 m a) as [row Hrow]; [lia|].
    rewrite Hrow. f_equal. apply list_eq. intros b.
    rewrite list_lookup_fmap.
    assert (Hl : length row = cols).
    { rewrite Forall_forall in Hrows. apply Hrows.
      by eapply list_elem_of_lookup_2. }
    destruct (decide (b < cols)%nat) as [Hb|Hb].
    + rewrite lookup_seq_lt by done. cbn.
      rewrite entry_transposed by done.
      destruct (lookup_lt_is_Some_2 row b) as [x Hx]; [lia|].
      by rewrite Hx, (entry_lookup _ _ _ _ _ Hrow Hx).
    + rewrite lookup_seq_ge by lia. cbn.
      symmetry. apply lookup_ge_None_2. lia.
  - rewrite lookup_seq_ge by lia. cbn.
    symmetry. apply lookup_ge_None_2. lia.
Qed.

Lemma transpose_matrix_rectangular {rt : Runtime} rows cols m :
  matrix_of_shape rows cols m → (0 < rows)%nat → (0 < cols)%nat →
  transpose_matrix (matrix_value m)
  = ok (matrix_value (transposed rows cols m)).
Proof.
  intros [Hlen Hrows] Hr Hc.
  destruct m as [|row0 m']; [cbn in Hlen; lia|].
  assert (Hl0 : length row0 = cols) by (by apply Forall_cons in Hrows as [? _]).
  unfold transpose_matrix.
  change (truthy (matrix_value (row0 :: m'))) with true. cbn [negb].
  rewrite (getitem_matrix (row0 :: m') 0 row0) by done.
  unfold ok at 1. cbn [res_bind].
  destruct row0 as [|x0 row0']; [cbn in Hl0; lia|].
  change (truthy (VList (x0 :: row0'))) with true. cbn [negb].
  cbn [py_len]. unfold ok at 1. cbn [res_bind]. rewrite Hl0.
  unfold matrix_value at 1. cbn [py_len]. unfold ok at 1. cbn [res_bind].
  rewrite length_fmap, Hlen.
  rewrite (res_map_ok _ (λ j, VList ((λ i, entry (((x0 :: row0') :: m')) i j)
                                       <$> seq 0 rows))).
  - cbn [res_bind]. unfold matrix_value, transposed.
    by rewrite <- list_fmap_compose.
  - intros j Hj. apply elem_of_seq in Hj as [_ Hj]. cbn in Hj.
    rewrite (res_map_ok _ (λ i, entry (((x0 :: row0') :: m')) i j)); [done|].
    intros a Ha. apply elem_of_seq in Ha as [_ Ha]. cbn in Ha.
    destruct (lookup_lt_is_Some_2 ((x0 :: row0') :: m') a) as [row Hrow];
      [lia|].
    fold (matrix_value ((x0 :: row0') :: m')).
    rewrite (getitem_matrix _ _ _ Hrow). cbn [res_bind].
    assert (Hl : length row = cols).
    { rewrite Forall_forall in Hrows. apply Hrows.
      by eapply list_elem_of_lookup_2. }
    destruct (lookup_lt_is_Some_2 row j) as [x Hx]; [lia|].
    unfold py_getitem. cbn. rewrite Hx.
    by rewrite (entry_lookup _ _ _ _ _ Hrow Hx).
Qed.

Lemma res_map_ok_or_err {A B} (f : A → res B) (l : list A) e :
  (∀ x, x ∈ l → (∃ y, f x = ok y) ∨ f x = err e) →
  (∃ ys, res_map f l = ok ys) ∨ res_map f l = err e.
Proof.
  induction l as [|x l IH]; intros Hf; [left; by eexists|]. cbn.
  destruct (Hf x) as [[y ->]| ->]; [left | | by right]. cbn.
  destruct IH as [[ys ->]| ->]; [| left; by eexists | by right].
  intros z Hz. apply Hf. by right.
Qed.

Lemma res_map_err {A B} (f : A → res B) (l : list A) e :
  (∀ x, x ∈ l → (∃ y, f x = ok y) ∨ f x = err e) →
  (∃ x, x ∈ l ∧ f x = err e) →
  res_map f l = err e.
Proof.
  induction l as [|x l IH]; intros Hf (z & Hz & Hfz).
  - by apply elem_of_nil in Hz.
  - cbn. destruct (Hf x) as [[y Hy]| ->]; [left | | done]. rewrite Hy. cbn.
    rewrite IH; [done | |].
    + intros w Hw. apply Hf. by right.
    + apply elem_of_cons in Hz as [->|Hz]; [|by exists z].
      rewrite Hy in Hfz. done.
Qed.

(** On a matrix of [rows] rows and [cols] columns, both positive, the
    transposition yields the matrix of [cols] rows and [rows] columns whose
    entry [(j, i)] is the entry [(i, j)], and transposing twice gives the
    matrix back.  The transposition of the empty matrix, and of a matrix
    whose first row is empty, is the empty matrix.  When a row is shorter
    than the first one, it raises [IndexError]. *)
Theorem transpose_matrix_spec {rt : Runtime} :
  (∀ rows cols m,
      matrix_of_shape rows cols m → (0 < rows)%nat → (0 < cols)%nat →
      let m' := transposed rows cols m in
      transpose_matrix (matrix_value m) = ok (matrix_value m')
      ∧ matrix_of_shape cols rows m'
      ∧ (∀ i j, (i < rows)%nat → (j < cols)%nat → entry m' j i = entry m i j)
      ∧ transpose_matrix (matrix_value m') = ok (matrix_value m))
  ∧ transpose_matrix (matrix_value []) = ok (VList [])
  ∧ (∀ m, transpose_matrix (matrix_value ([] :: m)) = ok (VList []))
  ∧ (∀ x row m short,
      short ∈ m → (length short < S (length row))%nat →
      transpose_matrix (matrix_value ((x :: row) :: m)) = err IndexError).
Proof.
  split; [|split; [done|split; [done|]]].
  - intros rows cols m Hm Hr Hc m'. split; [|split; [|split]].
    + by apply transpose_matrix_rectangular.
    + apply transposed_shape.
    + intros i j Hi Hj. by apply entry_transposed.
    + subst m'. rewrite (transpose_matrix_rectangular cols rows);
        [|apply transposed_shape|done..].
      by rewrite transposed_involutive.
  - intros x row m short Hin Hshort.
    set (M := (x :: row) :: m).
    assert (Hentry : ∀ i j,
      (j < length M)%nat →
      (∃ y, res_bind (py_getitem (matrix_value M) j)
                     (λ mj, py_getitem mj i) = ok y)
      ∨ res_bind (py_getitem (matrix_value M) j) (λ mj, py_getitem mj i)
        = err IndexError).
    { intros i j Hj. destruct (lookup_lt_is_Some_2 M j Hj) as [r Hr].
      rewrite (getitem_matrix _ _ _ Hr). cbn. unfold py_getitem. cbn.
      destruct (r !! i); [left; by eexists | by right]. }
    assert (Hcol : ∀ i,
      (∃ y, res_bind
              (res_map (λ j, res_bind (py_getitem (matrix_value M) j)
                                      (λ mj, py_getitem mj i))
                 (seq 0 (length M)))
              (λ row, ok (VList row)) = ok y)
      ∨ res_bind
          (res_map (λ j, res_bind (py_getitem (matrix_value M) j)
                                  (λ mj, py_getitem mj i))
             (seq 0 (length M)))
          (λ row, ok (VList row)) = err IndexError).
    { intros i.
      destruct (res_map_ok_or_err
                  (λ j, res_bind (py_getitem (matrix_value M) j)
                                 (λ mj, py_getitem mj i))
                  (seq 0 (length M)) IndexError) as [[ys ->]| ->].
      - intros j Hj. apply elem_of_seq in Hj as [_ Hj]. by apply Hentry.
      - left. by eexists.
      - by right. }
    unfold transpose_matrix.
    change (truthy (matrix_value M)) with true. cbn [negb].
    rewrite (getitem_matrix M 0 (x :: row)) by done.
    unfold ok at 1. cbn [res_bind].
    change (truthy (VList (x :: row))) with true. cbn [negb].
    cbn [py_len]. unfold ok at 1. cbn [res_bind].
    unfold matrix_value at 1. cbn [py_len]. unfold ok at 1. cbn [res_bind].
    rewrite length_fmap. fold (matrix_value M).
    rewrite (res_map_err _ _ IndexError); [done | |].
    + intros i _. apply Hcol.
    + exists (length short). split.
      * apply elem_of_seq. cbn. lia.
      * apply list_elem_of_lookup_1 in Hin as [k Hk].
        rewrite (res_map_err _ _ IndexError); [done | |].
        -- intros j Hj. apply elem_of_seq in Hj as [_ Hj]. by apply Hentry.
        -- exists (S k). split.
           ++ apply elem_of_seq. apply lookup_lt_Some in Hk. cbn. lia.
           ++ rewrite (getitem_matrix M (S k) short) by done. cbn.
              unfold py_getitem. cbn.
              by rewrite lookup_ge_None_2.
Qed.

(** ** Arithmetic, narrowing and comparisons *)

(** On integers with a divisor other than zero, [/] and [%] yield a
    quotient [q] and a remainder [r] with [a = b*q + r], the remainder
    having the sign of the divisor; computed with the operators of the
    language, [q * b + r] is [a]. *)
Theorem division_and_remainder_compose {rt : Runtime} (a b : Z) :
  b ≠ 0 →
  ∃ q r,
    term_op "/" (VInt a) (VInt b) = Some (ok (VInt q))
    ∧ term_op "%" (VInt a) (VInt b) = Some (ok (VInt r))
    ∧ a = b * q + r
    ∧ (0 < b → 0 ≤ r < b) ∧ (b < 0 → b < r ≤ 0)
    ∧ res_bind (py_mul (VInt q) (VInt b)) (λ p, py_add p (VInt r))
      = ok (VInt a).
Proof.
  intros Hb. exists (a / b), (a mod b).
  assert (Hz : (b =? 0) = false) by by apply Z.eqb_neq.
  repeat split.
  - unfold term_op, py_floordiv_int. cbn. by rewrite Hz.
  - unfold term_op, py_mod. cbn. by rewrite Hz.
  - by apply Z.div_mod.
  - by apply Z.mod_pos_bound.
  - by apply Z.mod_pos_bound.
  - by apply Z.mod_neg_bound.
  - by apply Z.mod_neg_bound.
  - cbn. do 2 f_equal. rewrite (Z.div_mod a b) at 3 by done. lia.
Qed.

(** [-7 / 2] and [-7 % 2]. *)
Lemma division_and_remainder_compose_witness :
  ∃ q r,
    term_op (rt := plain_runtime) "/" (VInt (-7)) (VInt 2)
    = Some (ok (VInt q))
    ∧ term_op (rt := plain_runtime) "%" (VInt (-7)) (VInt 2)
      = Some (ok (VInt r))
    ∧ -7 = 2 * q + r
    ∧ (0 < 2 → 0 ≤ r < 2) ∧ (2 < 0 → 2 < r ≤ 0)
    ∧ res_bind (py_mul (VInt q) (VInt 2)) (λ p, py_add p (VInt r))
      = ok (VInt (-7)).
Proof.
  apply (division_and_remainder_compose (rt := plain_runtime) (-7) 2).
  discriminate.
Defined.

Lemma narrow_float (f : float) :
  (float_is_integer f = false ∧ narrow (VFloat f) = ok (VFloat f))
  ∨ (∃ z, float_is_integer f = true ∧ narrow (VFloat f) = ok (VInt z)
          ∧ compare_int_float z f = Some Eq).
Proof.
  unfold narrow, float_is_integer, int_of_float, compare_int_float.
  destruct (Prim2SF f) as [s|s| |s m e] eqn:E.
  - right. exists 0. by cbn.
  - by left.
  - by left.
  - destruct (0 <=? e) eqn:Ee.
    + right. eexists. split; [done|]. split; [done|].
      destruct s; f_equal; apply Z.compare_eq_iff; lia.
    + destruct ((Z.pos m mod 2 ^ (- e)) =? 0) eqn:Em; [|by left].
      right. eexists. split; [done|]. split; [done|].
      apply Z.eqb_eq in Em. apply Z.leb_gt in Ee.
      assert (Hp : 0 < 2 ^ (- e)) by (apply Z.pow_pos_nonneg; lia).
      pose proof (Z.div_mod (Z.pos m) (2 ^ (- e)) ltac:(lia)) as Hdm.
      rewrite Em in Hdm.
      destruct s; f_equal; apply Z.compare_eq_iff; lia.
Qed.

(** The narrowing applied when a value is stored never fails, leaves
    every value that is not a float as it is and a float either as it is
    or as the integer equal to it; a narrowed value is not changed by a
    second narrowing.  [cast_value] without a type is the narrowing. *)
Theorem narrowing_keeps_the_number {rt : Runtime} :
  (∀ v, ∃ w, narrow v = ok w)
  ∧ (∀ v, isinstance_float v = false → narrow v = ok v)
  ∧ (∀ f w, narrow (VFloat f) = ok w →
            (w = VFloat f ∧ float_is_integer f = false)
            ∨ (∃ z, w = VInt z ∧ compare_int_float z f = Some Eq
                    ∧ py_eq w (VFloat f) = true))
  ∧ (∀ v w, narrow v = ok w → narrow w = ok w)
  ∧ (∀ v, cast_value v None = narrow v).
Proof.
  split; [|split; [|split; [|split]]].
  - intros [| |z|f|b|s|l]; try (by eexists).
    destruct (narrow_float f) as [[_ ->]|(z & _ & -> & _)]; by eexists.
  - by intros [].
  - intros f w. destruct (narrow_float f) as [[Hf ->]|(z & Hf & -> & Hc)].
    + intros [= <-]. by left.
    + intros [= <-]. right. exists z. split; [done|]. split; [done|].
      cbn. by rewrite Hc.
  - intros [| |z|f|b|s|l] w; try (by intros [= <-]).
    destruct (narrow_float f) as [[Hf Hn]|(z & Hf & Hn & Hc)]; rewrite Hn.
    + by intros [= <-].
    + by intros [= <-].
  - done.
Qed.

(** ** Scoped names *)

Lemma split_colons_colon_free (s : string) (cur : list ascii) :
  colon_free s = true →
  split_colons s cur
  = [string_of_list_ascii (rev cur ++ list_ascii_of_string s)].
Proof.
  unfold colon_free. revert cur. induction s as [|a s IH]; intros cur Hs.
  - cbn. by rewrite List.app_nil_r.
  - cbn in Hs. apply andb_prop in Hs as [Ha Hs].
    apply negb_true_iff in Ha. cbn [split_colons]. rewrite Ha. cbn [andb].
    destruct s as [|b s'].
    + done.
    + rewrite IH by done. cbn [rev]. by rewrite <- List.app_assoc.
Qed.

Lemma split_colons_scoped_text levels name :
  colon_free name = true →
  split_colons (scoped_text levels name) []
  = replicate levels "parent"%string ++ [name].
Proof.
  intros Hn. induction levels as [|l IH].
  - cbn [scoped_text replicate app]. rewrite split_colons_colon_free by done.
    cbn. by rewrite string_of_list_ascii_of_string.
  - cbn [scoped_text replicate]. rewrite <- app_comm_cons, <- IH. done.
Qed.

(** A scoped name written with [levels] times [parent::] resolves, for a
    write, to the scope [levels] parents up and to the name after the last
    [::], that is to the scope a scoped identifier of [levels] levels reads
    from.  When the chain is shorter, the write raises an [Exception] and
    the read an [InterpreterError]. *)
Theorem scoped_names_resolve {rt : Runtime} (levels : nat) (name : string)
    (i : Interpreter) (a : option nat) :
  colon_free name = true →
  Scope.ancestor levels (scopes i) (current_scope i) = Some a →
  resolve_scope_for_assignment (scoped_text levels name) i
  = match a with
    | Some target => (Done (target, name), i)
    | None =>
        (Raised (Exception_
                   ("No parent scope exists while resolving assignment to '"
                    +:+ scoped_text levels name +:+ "'")), i)
    end
  ∧ visit 1 (ScopedIdentifier levels name) i
    = match a with
      | Some target => scope_get_variable target name i
      | None =>
          (Raised (InterpreterError
                     ("No parent scope exists while resolving 'parent::"
                      +:+ name +:+ "'")
                     "Too many 'parent::' references, the parent scope doesn't exist"),
           i)
      end.
Proof.
  intros Hn Ha. split.
  - unfold resolve_scope_for_assignment.
    rewrite split_colons_scoped_text by done.
    rewrite last_last, length_app, length_replicate. cbn [length].
    replace (levels + 1 - 1)%nat with levels by lia.
    norm. rewrite Ha. cbn [lift_store]. norm. by destruct a.
  - cbn [visit accept]. unfold visitScopedIdentifier. norm. rewrite Ha.
    cbn [lift_store]. norm. by destruct a.
Qed.

(** [parent::parent::x] from the innermost of three scopes. *)
Lemma scoped_names_resolve_witness :
  resolve_scope_for_assignment "parent::parent::x" innermost_state
  = (Done (0%nat, "x"%string), innermost_state).
Proof.
  apply (proj1 (scoped_names_resolve (rt := plain_runtime) 2 "x"
                  innermost_state (Some 0%nat) eq_refl
                  ltac:(vm_compute; reflexivity))).
Defined.

(** ** Branches of an [if] *)




(** On two integers the comparisons are those of the integers.  [!=] is the
    negation of [==], and [==] never raises: a string and a number are
    different, a boolean equals the integer 0 or 1 it counts as.  The
    order of a string and a number is a [TypeError]. *)
Theorem comparisons_of_the_language {rt : Runtime} :
  (∀ a b,
      evaluateBinaryOp (VInt a) (VInt b) "<" = ok (VBool (a <? b))
      ∧ evaluateBinaryOp (VInt a) (VInt b) "<=" = ok (VBool (a <=? b))
      ∧ evaluateBinaryOp (VInt a) (VInt b) ">" = ok (VBool (a >? b))
      ∧ evaluateBinaryOp (VInt a) (VInt b) ">=" = ok (VBool (a >=? b))
      ∧ evaluateBinaryOp (VInt a) (VInt b) "==" = ok (VBool (a =? b)))
  ∧ (∀ left right,
      evaluateBinaryOp left right "!="
      = res_bind (evaluateBinaryOp left right "==")
                 (λ r, ok (VBool (negb (truthy r))))
      ∧ ∃ b, evaluateBinaryOp left right "==" = ok (VBool b))
  ∧ (∀ s z,
      evaluateBinaryOp (VStr s) (VInt z) "==" = ok (VBool false)
      ∧ evaluateBinaryOp (VStr s) (VInt z) "<" = err TypeError
      ∧ evaluateBinaryOp (VInt z) (VStr s) "<" = err TypeError)
  ∧ (∀ b z, evaluateBinaryOp (VBool b) (VInt z) "=="
            = ok (VBool (Z.b2z b =? z))).
Proof.
  split; [|split; [|split]].
  - intros a b. unfold evaluateBinaryOp, py_lt, py_le, py_gt, py_ge. cbn.
    unfold Z.ltb, Z.leb, Z.gtb, Z.geb.
    repeat split; try by destruct (a ?= b).
    destruct (a ?= b) eqn:E.
    + apply Z.compare_eq_iff in E as ->. by rewrite Z.eqb_refl.
    + assert ((a =? b) = false) as ->; [|done].
      apply Z.eqb_neq. intros ->. by rewrite Z.compare_refl in E.
    + assert ((a =? b) = false) as ->; [|done].
      apply Z.eqb_neq. intros ->. by rewrite Z.compare_refl in E.
  - intros left right. unfold evaluateBinaryOp. cbn. split; [done|].
    by eexists.
  - intros s z. by cbn.
  - intros b z. unfold evaluateBinaryOp. cbn.
    destruct (Z.b2z b ?= z) eqn:E.
    + apply Z.compare_eq_iff in E as ->. by rewrite Z.eqb_refl.
    + assert ((Z.b2z b =? z) = false) as ->; [|done].
      apply Z.eqb_neq. intros <-. by rewrite Z.compare_refl in E.
    + assert ((Z.b2z b =? z) = false) as ->; [|done].
      apply Z.eqb_neq. intros <-. by rewrite Z.compare_refl in E.
Qed.
